(** * Urban-Analytics: accessibility tools (tools/accessibility.py)

    A shallow embedding of the accessibility aggregation engine:
    the decay functions, the polygon sampler, the per-tract accessibility
    aggregator and the edge-load accumulator, with the properties the
    specification states about them.

    Conventions of the embedding.
    - Python floats are modelled by exact rationals ([Qc]); the two special
      floats the code relies on are explicit: an infinite travel cost is
      [Inf] of type [cost], a not-a-number weight is [None] of type
      [option Qc]. Rounding is not modelled.
    - Python exceptions are the [Raise] outcomes of type [outcome]; the only
      unbounded loop (the retry loop of the sampler) takes fuel.
    - The external collaborators (numpy's global generator, shapely's
      geometry predicates, osmnx's nearest-node search, igraph's shortest
      paths) are parameters of the sections that use them. *)

From Stdlib Require Import ZArith QArith Qcanon Lia.
From Stdlib Require Reals Lra.
From stdpp Require Import gmap strings list fin_maps numbers.

Local Open Scope Z_scope.

(** ** Python outcomes *)

Inductive exn : Type :=
  | AssertionError
  | AttributeError
  | TypeError
  | KeyError
  | ValueError
  | ZeroDivisionError.

Inductive outcome (A : Type) : Type :=
  | Ret (a : A)
  | Raise (e : exn)
  | OutOfFuel.
Arguments Ret {A} a.
Arguments Raise {A} e.
Arguments OutOfFuel {A}.

Global Instance exn_eq_dec : EqDecision exn.
Proof. solve_decision. Defined.

Global Instance outcome_eq_dec {A} `{EqDecision A} : EqDecision (outcome A).
Proof. solve_decision. Defined.

(** The computation returns a value. *)
Definition returns {A} (m : outcome A) : bool :=
  match m with
  | Ret _ => true
  | _ => false
  end.

Global Instance outcome_ret : MRet outcome := λ A a, Ret a.
Global Instance outcome_bind : MBind outcome := λ A B f m,
  match m with
  | Ret a => f a
  | Raise e => Raise e
  | OutOfFuel => OutOfFuel
  end.

(** ** Numbers *)

(** Python's [round(x)] with one argument: nearest integer, ties to even. *)
Definition py_round (q : Qc) : Z :=
  let n := Qnum (this q) in
  let d := Zpos (Qden (this q)) in
  let f := n / d in
  match (2 * (n mod d)) ?= d with
  | Lt => f
  | Gt => f + 1
  | Eq => if Z.even f then f else f + 1
  end.

(** A travel cost: a finite float or [float('inf')]. *)
Inductive cost : Type :=
  | Fin (q : Qc)
  | Inf.

Global Instance cost_eq_dec : EqDecision cost.
Proof. solve_decision. Defined.

(** [d <= t] on costs, [t] finite. *)
Definition cost_le (d : cost) (t : Qc) : bool :=
  match d with
  | Fin q => bool_decide (q ≤ t)%Qc
  | Inf => false
  end.

(** ** Python sequences *)

(** A slice bound clipped to a list of length [len], as [l[a:b]] does:
    negative bounds count from the end. *)
Definition py_clip (len i : Z) : nat :=
  Z.to_nat (if i <? 0 then Z.max 0 (i + len) else Z.min i len).

(** [l[a:b]]. *)
Definition py_slice {A} (l : list A) (a b : Z) : list A :=
  let len := Z.of_nat (length l) in
  let s := py_clip len a in
  let e := py_clip len b in
  take (e - s) (drop s l).

(** [range(start, stop, step)]; [step = 0] raises [ValueError]. *)
Definition py_range (start stop step : Z) : outcome (list Z) :=
  if step =? 0 then Raise ValueError else
  let cnt :=
    if 0 <? step then (stop - start + step - 1) / step
    else (start - stop - step - 1) / (- step) in
  Ret ((λ i : nat, start + Z.of_nat i * step) <$> seq 0 (Z.to_nat cnt)).

(** [a // b] on integers. *)
Definition py_floordiv (a b : Z) : outcome Z :=
  if b =? 0 then Raise ZeroDivisionError else Ret (a / b).

(** [arr.sum()] and Python's [sum] over numbers. *)
Definition np_sum (l : list Qc) : Qc := foldr Qcplus 0%Qc l.

(** [a * b] on one-dimensional arrays: elementwise, an array of length one
    is stretched, any other mismatch of lengths raises. *)
Definition np_mul (a b : list Qc) : outcome (list Qc) :=
  if (length a =? length b)%nat then Ret (zip_with Qcmult a b)
  else match a, b with
       | [x], _ => Ret (Qcmult x <$> b)
       | _, [y] => Ret ((λ x, x * y)%Qc <$> a)
       | _, _ => Raise ValueError
       end.

(** Running a fallible step over a list, left to right. *)
Fixpoint mapM_outcome {A B} (f : A → outcome B) (l : list A)
    : outcome (list B) :=
  match l with
  | [] => Ret []
  | a :: l' => b ← f a; bs ← mapM_outcome f l'; Ret (b :: bs)
  end.

Fixpoint foldM_outcome {A S} (f : S → A → outcome S) (l : list A) (s : S)
    : outcome S :=
  match l with
  | [] => Ret s
  | a :: l' => s' ← f s a; foldM_outcome f l' s'
  end.

(** ** Decay functions *)

(** [acc_comulative(d, t)]: [(d<=t)*1], elementwise. *)
Definition acc_comulative (t : Qc) (d : cost) : Qc :=
  if cost_le d t then 1%Qc else 0%Qc.

(** ** Polygon sampler *)

(** What the sampler uses of a shapely polygon. *)
Record Polygon : Type := {
  bounds : Qc * Qc * Qc * Qc;      (* x_min, y_min, x_max, y_max *)
  area : Qc;
  within : Qc * Qc → bool          (* point.within(polygon) *)
}.

(** A simple polygon has a bounding box with two sides and some area. *)
Definition simple_polygon (poly : Polygon) : Prop :=
  let '(x_min, y_min, x_max, y_max) := bounds poly in
  (x_min < x_max)%Qc ∧ (y_min < y_max)%Qc ∧ (0 < area poly)%Qc.

(** The values that reach [random_points_in_polygon] as its first two
    arguments: Python does not check them against the parameter names. *)
Inductive pyobj : Type :=
  | PyInt (z : Z)
  | PyPolygon (p : Polygon).

(** numpy's process-wide generator: its state, the state an integer seed
    sets, one draw of [random_sample()] in [0,1), and the entropy the
    operating system hands out at its [i]-th request. *)
Record Rng : Type := {
  rng_state : Type;
  seed_state : Z → rng_state;
  random_sample : rng_state → Qc * rng_state;
  os_entropy : nat → Z
}.

Section Sampler.

Context (R : Rng).

(** The generator together with the number of entropy requests so far. *)
Definition rng_world : Type := rng_state R * nat.

(** [np.random.seed(seed)]: an integer seed fixes the state; [None] takes
    fresh entropy. Either way the previous state is discarded. *)
Definition np_random_seed (seed : option Z) (w : rng_world) : rng_world :=
  match seed with
  | Some s => (seed_state R s, w.2)
  | None => (seed_state R (os_entropy R w.2), S w.2)
  end.

(** [np.random.uniform(low, high, n)]. *)
Fixpoint np_random_uniform (low high : Qc) (n : nat) (st : rng_state R)
    : list Qc * rng_state R :=
  match n with
  | O => ([], st)
  | S n' =>
      let '(u, st1) := random_sample R st in
      let '(us, st2) := np_random_uniform low high n' st1 in
      ((low + (high - low) * u)%Qc :: us, st2)
  end.

(** One pass of the loop body up to the filter: [n] candidate points in
    the bounding box, those within the polygon kept, in order. *)
Definition draw_batch (poly : Polygon) (n : nat) (st : rng_state R)
    : list (Qc * Qc) * rng_state R :=
  let '(x_min, y_min, x_max, y_max) := bounds poly in
  let '(x, st1) := np_random_uniform x_min x_max n st in
  let '(y, st2) := np_random_uniform y_min y_max n st1 in
  (filter (λ p, within poly p = true) (zip x y), st2).

(** The [while True] loop. *)
Fixpoint sample_loop (fuel : nat) (poly : Polygon) (n_pts : Z) (n : nat)
    (st : rng_state R) : outcome (list Qc * list Qc) * rng_state R :=
  match fuel with
  | O => (OutOfFuel, st)
  | S fuel' =>
      let '(pts, st') := draw_batch poly n st in
      let X := py_slice (pts.*1) 0 n_pts in
      let Y := py_slice (pts.*2) 0 n_pts in
      if Z.of_nat (length X) <? n_pts
      then sample_loop fuel' poly n_pts n st'
      else (Ret (X, Y), st')
  end.

(** [n = int(round(n_pts*(1+2/sft)))] with
    [sft = polygon.area/((x_max-x_min)*(y_max-y_min))]. *)
Definition inflated_size (poly : Polygon) (n_pts : Z) : outcome Z :=
  let '(x_min, y_min, x_max, y_max) := bounds poly in
  let box := ((x_max - x_min) * (y_max - y_min))%Qc in
  if bool_decide (box = 0%Qc) then Raise ZeroDivisionError else
  let sft := (area poly / box)%Qc in
  if bool_decide (sft = 0%Qc) then Raise ZeroDivisionError else
  Ret (py_round (Qc_of_Z n_pts * (1 + 2 / sft))%Qc).

(** The size of one pass, 0 where [inflated_size] raises. *)
Definition batch_size (poly : Polygon) (n_pts : Z) : nat :=
  match inflated_size poly n_pts with
  | Ret n => Z.to_nat n
  | _ => 0%nat
  end.

(** [random_points_in_polygon(polygon, n_pts, seed)]. The two positional
    parameters receive whatever the caller passes in that order. *)
Definition random_points_in_polygon (fuel : nat) (polygon n_pts : pyobj)
    (seed : option Z) (w : rng_world)
    : outcome (list Qc * list Qc) * rng_world :=
  let w0 := np_random_seed seed w in
  match polygon with
  | PyInt _ => (Raise AttributeError, w0)        (* polygon.bounds *)
  | PyPolygon poly =>
      match n_pts with
      | PyPolygon _ =>
          match inflated_size poly 0 with
          | Ret _ => (Raise TypeError, w0)       (* n_pts*(1+2/sft) *)
          | Raise e => (Raise e, w0)
          | OutOfFuel => (OutOfFuel, w0)
          end
      | PyInt k =>
          match inflated_size poly k with
          | Ret n =>
              if n <? 0 then (Raise ValueError, w0)    (* negative size *)
              else
                let '(r, st) := sample_loop fuel poly k (Z.to_nat n) w0.1 in
                (r, (st, w0.2))
          | Raise e => (Raise e, w0)
          | OutOfFuel => (OutOfFuel, w0)
          end
      end
  end.

(** The generator's state after [i] passes of the loop. *)
Fixpoint state_after (i : nat) (poly : Polygon) (n : nat) (st : rng_state R)
    : rng_state R :=
  match i with
  | O => st
  | S i' => state_after i' poly n (draw_batch poly n st).2
  end.

(** The points of pass number [i] that fall within the polygon. *)
Definition batch_hits (i : nat) (poly : Polygon) (n : nat)
    (st : rng_state R) : list (Qc * Qc) :=
  (draw_batch poly n (state_after i poly n st)).1.

End Sampler.

(** ** The routing graph *)

(** Node identifiers (OSM ids) and edge keys [(u, v, key)]. *)
Definition node : Type := Z.
Definition edge : Type := Z * Z * Z.

(** An edge attribute value: a number, or an edge key (the [orig_name]
    tag). *)
Inductive attr : Type :=
  | ANum (q : Qc)
  | AEdge (e : edge).

Global Instance attr_eq_dec : EqDecision attr.
Proof. solve_decision. Defined.

(** A networkx graph as the code uses it: nodes and edges in iteration
    order and the two attribute stores, [G.nodes[n][name]] and
    [G.edges[e][name]]. *)
Record graph : Type := {
  g_nodes : list node;
  g_edges : list edge;
  g_node_attrs : gmap (node * string) Qc;
  g_edge_attrs : gmap (edge * string) attr
}.

(** An igraph graph: vertex and edge indices are list positions; each
    vertex carries its [osmid], each edge the attributes of the networkx
    edge it was made from. *)
Record igraph : Type := {
  vs : list node;
  es : list edge;
  es_attrs : gmap (edge * string) attr
}.

(** Modelled from the spec: [get_full_igraph] of tools/utils.py, which is
    not among the sources. The conversion keeps the nodes and the edges in
    the graph's iteration order and copies every edge attribute. *)
Definition get_full_igraph (G : graph) : igraph :=
  {| vs := g_nodes G; es := g_edges G; es_attrs := g_edge_attrs G |}.

(** [Gig.es[i][name]]. *)
Definition es_attr (Gig : igraph) (i : nat) (name : string) : outcome attr :=
  match es Gig !! i with
  | None => Raise ValueError
  | Some e =>
      match es_attrs Gig !! (e, name) with
      | None => Raise KeyError
      | Some a => Ret a
      end
  end.

(** [for e in G.edges: G.edges[e][name] = a]. *)
Definition set_all_edges (name : string) (f : edge → attr) (G : graph)
    : graph :=
  {| g_nodes := g_nodes G; g_edges := g_edges G;
     g_node_attrs := g_node_attrs G;
     g_edge_attrs :=
       foldl (λ m e, <[(e, name) := f e]> m) (g_edge_attrs G) (g_edges G) |}.

(** [nx.set_node_attributes(G, values, name)]: keys of [values] that are
    not nodes of [G] are passed over. *)
Definition set_node_attributes (G : graph) (values : gmap node Qc)
    (name : string) : graph :=
  {| g_nodes := g_nodes G; g_edges := g_edges G;
     g_node_attrs :=
       foldl (λ m n, match values !! n with
                     | Some v => <[(n, name) := v]> m
                     | None => m
                     end) (g_node_attrs G) (g_nodes G);
     g_edge_attrs := g_edge_attrs G |}.

(** ** Input tables *)

(** A row of the points-of-interest table. *)
Record poi : Type := {
  p_x : Qc;
  p_y : Qc;
  p_cols : gmap string Qc
}.

(** A row of the tracts table. Column labels are Python objects, [None]
    among them; a cell holds a number or not-a-number. *)
Record tract : Type := {
  t_index : Z;
  t_geometry : Polygon;
  t_cols : gmap (option string) (option Qc)
}.

(** [pois[pois_weight_column]] after the defaulting of lines 159-162: with
    no column given, a column of ones on a copy of the table. *)
Definition poi_weights (pois : list poi) (pois_weight_column : option string)
    : outcome (list Qc) :=
  match pois_weight_column with
  | None => Ret ((λ _, 1%Qc) <$> pois)
  | Some c =>
      mapM_outcome (λ p, match p_cols p !! c with
                         | Some v => Ret v
                         | None => Raise KeyError
                         end) pois
  end.

Definition weight_column_name (pois_weight_column : option string) : string :=
  default "temp"%string pois_weight_column.

(** [attrs = {}.fromkeys(G.nodes,0)] followed by
    [for node, val in zip(nodes, weights): attrs[node] += val]. *)
Definition sum_poi_weights (G : graph) (nodes : list node) (vals : list Qc)
    : outcome (gmap node Qc) :=
  foldM_outcome
    (λ (a : gmap node Qc) (nv : node * Qc),
       match a !! nv.1 with
       | Some x => Ret (<[nv.1 := (x + nv.2)%Qc]> a)
       | None => Raise KeyError
       end)
    (zip nodes vals)
    (list_to_map ((λ n, (n, 0%Qc)) <$> g_nodes G)).

(** [node_dict]: OSM id to igraph vertex, a later vertex replacing an
    earlier one with the same id. *)
Definition node_dict (Gig : igraph) : gmap node nat :=
  foldl (λ m iv, <[iv.2 := iv.1]> m) ∅ (imap (λ i v, (i, v)) (vs Gig)).

Definition lookup_all {K V} `{Countable K} (m : gmap K V) (ks : list K)
    : outcome (list V) :=
  mapM_outcome (λ k, match m !! k with
                     | Some v => Ret v
                     | None => Raise KeyError
                     end) ks.

(** [[d for n,d in G.nodes(data=name)]] restricted to numbers: the node's
    attribute, in node order. *)
Definition node_data (G : graph) (name : string) : outcome (list (node * Qc)) :=
  mapM_outcome (λ n, match g_node_attrs G !! (n, name) with
                     | Some v => Ret (n, v)
                     | None => Raise KeyError
                     end) (g_nodes G).

(** [n_targets] with [vals]: the nodes of positive weight, in node order. *)
Definition positive_targets (G : graph) (name : string)
    : outcome (list (node * Qc)) :=
  nd ← node_data G name;
  Ret (filter (λ nv, (0 < nv.2)%Qc) nd).

(** [{i: a for i, a in zip(index, acc)}]. *)
Definition dict_of_zip (index : list Z) (acc : list Qc) : gmap Z Qc :=
  foldl (λ m ia, <[ia.1 := ia.2]> m) ∅ (zip index acc).

(** ** External collaborators on graphs *)

(** [ox.get_nearest_nodes(G, X, Y)], the cost of a shortest path between
    two igraph vertices under a weight attribute (infinite when there is
    none), and [Gig.get_shortest_paths(source, weights, output='epath')]:
    for every vertex, in index order, the edge indices of a shortest path
    from the source, empty for the source itself and for vertices out of
    reach. *)
Record Oracles : Type := {
  get_nearest_nodes : graph → list Qc → list Qc → list node;
  distance : igraph → string → nat → nat → cost;
  get_shortest_paths : igraph → nat → string → list (list nat)
}.

(** [Gig.shortest_paths_dijkstra(source, target, weights)]: one row per
    source, one column per target. *)
Definition shortest_paths_dijkstra (O : Oracles) (Gig : igraph)
    (source target : list nat) (weights : string) : list (list cost) :=
  (λ s, distance O Gig weights s <$> target) <$> source.

(** ** Accessibility aggregator *)

(** The body of [for tract in ...] (lines 208-213 and 218-223) for the [k]
    distance rows of one tract: [total_acc/k]. *)
Definition tract_score (func : cost → Qc) (vals : list Qc) (k : Z)
    (rows : list (list cost)) : outcome Qc :=
  total_acc ← foldM_outcome
    (λ total ds, new ← np_mul vals (func <$> ds); Ret (total + np_sum new)%Qc)
    rows 0%Qc;
  Ret (total_acc / Qc_of_Z k)%Qc.

(** The loop over the tracts of one distance matrix, [n] advancing by [k];
    returns [acc] extended. *)
Fixpoint tract_loop {T} (func : cost → Qc) (vals : list Qc) (k : Z)
    (distances : list (list cost)) (l : list T) (n : Z) (acc : list Qc)
    : outcome (list Qc) :=
  match l with
  | [] => Ret acc
  | _ :: l' =>
      a ← tract_score func vals k (py_slice distances n (n + k));
      tract_loop func vals k distances l' (n + k) (acc ++ [a])
  end.

(** Lines 196-223: the scores of all tracts from the resolved sample
    vertices, in one distance matrix or in sections of [iter_cap] tracts. *)
Definition tract_scores {T} (O : Oracles) (Gig : igraph) (weight : string)
    (func : cost → Qc) (vals : list Qc) (nig_targets : list nat) (k : Z)
    (iter_cap : Z) (loop : list T) (ig_nodes : list nat)
    : outcome (list Qc) :=
  let len := Z.of_nat (length ig_nodes) in
  if iter_cap * k <=? len then
    q ← py_floordiv len (iter_cap * k);
    xs ← py_range 0 ((q + 1) * (iter_cap * k) + 1) (iter_cap * k);
    let sects := (λ x, py_slice ig_nodes x (x + iter_cap * k)) <$> xs in
    q' ← py_floordiv (Z.of_nat (length loop)) iter_cap;
    ys ← py_range 0 ((q' + 1) * iter_cap + 1) iter_cap;
    let loops := (λ x, py_slice loop x (x + iter_cap)) <$> ys in
    foldM_outcome
      (λ acc sl,
         let distances :=
           shortest_paths_dijkstra O Gig sl.1 nig_targets weight in
         tract_loop func vals k distances sl.2 0 acc)
      (zip sects loops) []
  else
    let distances :=
      shortest_paths_dijkstra O Gig ig_nodes nig_targets weight in
    tract_loop func vals k distances loop 0 [].

(** ** Edge-load accumulator: helpers *)

(** [sum(Gig.es[seq]['length'])]; a value that is not a number cannot be
    added. *)
Definition attr_number (a : attr) : outcome Qc :=
  match a with
  | ANum q => Ret q
  | AEdge _ => Raise TypeError
  end.

(** [_get_edges(e_seqs, Gig)]: for every edge sequence its [orig_name]
    tags and the sum of its [length] attributes; an empty sequence gives
    no tags and the sum 0. *)
Fixpoint _get_edges (e_seqs : list (list nat)) (Gig : igraph)
    : outcome (list (list attr) * list Qc) :=
  match e_seqs with
  | [] => Ret ([], [])
  | seq :: rest =>
      rs ← (if (length seq <? 1)%nat then Ret ([], 0%Qc)
            else
              names ← mapM_outcome (λ i, es_attr Gig i "orig_name") seq;
              lens ← mapM_outcome
                       (λ i, a ← es_attr Gig i "length"; attr_number a) seq;
              Ret (names, np_sum lens));
      rest' ← _get_edges rest Gig;
      Ret (rs.1 :: rest'.1, rs.2 :: rest'.2)
  end.

(** [G.edges[e][attr] += weight], where the edge and its numeric attribute
    are there. *)
Definition add_to_edge (G : graph) (e : attr) (name : string) (weight : Qc)
    : option graph :=
  match e with
  | ANum _ => None
  | AEdge ek =>
      if bool_decide (ek ∈ g_edges G) then
        match g_edge_attrs G !! (ek, name) with
        | Some (ANum q) =>
            Some {| g_nodes := g_nodes G; g_edges := g_edges G;
                    g_node_attrs := g_node_attrs G;
                    g_edge_attrs :=
                      <[(ek, name) := ANum (q + weight)]> (g_edge_attrs G) |}
        | _ => None
        end
      else None
  end.

(** The body of the inner loop of [_update_edges]: the addition, and when
    it raises, every edge's attribute set to 0 and the addition again. *)
Definition update_edge (name : string) (G : graph) (e : attr) (weight : Qc)
    : outcome graph :=
  match add_to_edge G e name weight with
  | Some G' => Ret G'
  | None =>
      let G0 := set_all_edges name (λ _, ANum 0%Qc) G in
      match add_to_edge G0 e name weight with
      | Some G' => Ret G'
      | None => Raise (match e with ANum _ => TypeError | AEdge _ => KeyError end)
      end
  end.

(** [_update_edges(G, e_seq, attr, weights)]. *)
Definition _update_edges (G : graph) (e_seq : list (list attr))
    (name : string) (weights : option (list Qc)) : outcome graph :=
  let weights := default ((λ _, 1%Qc) <$> e_seq) weights in
  foldM_outcome
    (λ G sw, foldM_outcome (λ G e, update_edge name G e sw.2) sw.1 G)
    (zip e_seq weights) G.

(** [np.nansum(pops)]. *)
Definition np_nansum (pops : list (option Qc)) : Qc :=
  np_sum (omap id pops).

(** The state of the loop over the samples: the graph being annotated and
    the sources handed to [get_shortest_paths] so far. *)
Record load_state : Type := {
  ls_graph : graph;
  ls_queries : list nat
}.

(** The load on an edge, 0 where there is no number, and the total over
    the edges. *)
Definition edge_load (G : graph) (e : edge) : Qc :=
  match g_edge_attrs G !! (e, "load"%string) with
  | Some (ANum q) => q
  | _ => 0%Qc
  end.

Definition total_load (G : graph) : Qc := np_sum (edge_load G <$> g_edges G).

(** What one sample is to add in all: each way's value times the number of
    edges on the way. *)
Definition path_mass (c : list (list attr) * list Qc) : Qc :=
  np_sum (zip_with (λ (seq : list attr) (w : Qc),
                      (w * Qc_of_Z (Z.of_nat (length seq)))%Qc) c.1 c.2).

(** The samples the loop does not skip. *)
Definition live (l : list (nat * option Qc)) : list (nat * Qc) :=
  omap (λ sp : nat * option Qc,
          match sp.2 with
          | Some p => if bool_decide (p = 0%Qc) then None else Some (sp.1, p)
          | None => None
          end) l.

Definition live_samples (ig_nodes : list nat) (pops : list (option Qc))
    : list (nat * Qc) :=
  live (zip ig_nodes pops).

(** Every edge carries its own key as [orig_name] and a number as
    [load]: the state lines 299-300 and 319-320 establish. *)
Definition tagged (G : graph) : Prop :=
  ∀ e, e ∈ g_edges G →
    g_edge_attrs G !! (e, "orig_name"%string) = Some (AEdge e) ∧
    ∃ q, g_edge_attrs G !! (e, "load"%string) = Some (ANum q).

(** Attributes are kept on edges of the graph only. *)
Definition well_keyed (G : graph) : Prop :=
  map_Forall (λ (k : edge * string) (_ : attr), k.1 ∈ g_edges G)
    (g_edge_attrs G).

(** The graph with every load divided by [tot]. *)
Definition scale_attr (tot : Qc) (k : edge * string) (a : attr) : attr :=
  match a with
  | ANum q => if bool_decide (k.2 = "load"%string) then ANum (q / tot)%Qc else a
  | AEdge _ => a
  end.

Definition scale_loads (tot : Qc) (G : graph) : graph :=
  {| g_nodes := g_nodes G; g_edges := g_edges G;
     g_node_attrs := g_node_attrs G;
     g_edge_attrs :=
       map_imap (λ k a, Some (scale_attr tot k a)) (g_edge_attrs G) |}.

(** Lines 365-369 for one sample: the tags of the edges on the way to
    every node and the value [w] to add along each way. *)
Definition sample_contributions (O : Oracles) (Gig : igraph) (weight : string)
    (func : cost → Qc) (name : string) (norm : bool) (tot : Qc)
    (G : graph) (source : nat) (pop : Qc)
    : outcome (list (list attr) * list Qc) :=
  let e_seq := get_shortest_paths O Gig source weight in
  es ← _get_edges e_seq Gig;
  nd ← node_data G name;
  w ← np_mul (func <$> (Fin <$> es.2)) (nd.*2);
  let w : list Qc := (λ x, x * pop)%Qc <$> w in
  let w : list Qc := if norm then (λ x, x / tot)%Qc <$> w else w in
  Ret (es.1, w).

(** The body of the loop of lines 362-370. *)
Definition load_step (O : Oracles) (Gig : igraph) (weight : string)
    (func : cost → Qc) (name : string) (norm : bool) (tot : Qc)
    (st : load_state) (sp : nat * option Qc) : outcome load_state :=
  let '(source, pop) := sp in
  match pop with
  | None => Ret st                                  (* pop != pop *)
  | Some p =>
      if bool_decide (p = 0%Qc) then Ret st else
      let G := ls_graph st in
      c ← sample_contributions O Gig weight func name norm tot G source p;
      G' ← _update_edges G c.1 "load" (Some c.2);
      Ret {| ls_graph := G'; ls_queries := ls_queries st ++ [source] |}
  end.

(** The mass one sample puts on the network: over all nodes, its value
    for the node times the number of edges on the way to the node. *)
Definition sample_mass (O : Oracles) (Gig : igraph) (weight : string)
    (func : cost → Qc) (name : string) (norm : bool) (tot : Qc)
    (G : graph) (sp : nat * Qc) : Qc :=
  match sample_contributions O Gig weight func name norm tot G sp.1 sp.2 with
  | Ret c => path_mass c
  | _ => 0%Qc
  end.

Definition scale_state (tot : Qc) (st : load_state) : load_state :=
  {| ls_graph := scale_loads tot (ls_graph st);
     ls_queries := ls_queries st |}.

(** Lines 362-370. *)
Definition load_loop (O : Oracles) (Gig : igraph) (weight : string)
    (func : cost → Qc) (name : string) (norm : bool) (tot : Qc)
    (ig_nodes : list nat) (pops : list (option Qc)) (st : load_state)
    : outcome load_state :=
  foldM_outcome (load_step O Gig weight func name norm tot)
    (zip ig_nodes pops) st.

(** [tracts[tracts_weight_column] = 1], every row getting the cell. *)
Definition set_tract_column (c : option string) (v : option Qc)
    (tracts : list tract) : list tract :=
  (λ t, {| t_index := t_index t; t_geometry := t_geometry t;
           t_cols := <[c := v]> (t_cols t) |}) <$> tracts.

(** [tract[tracts_weight_column]/k]. *)
Definition sample_weight (t : tract) (c : option string) (k : Z)
    : outcome (option Qc) :=
  match t_cols t !! c with
  | None => Raise KeyError
  | Some v => Ret ((λ x, x / Qc_of_Z k)%Qc <$> v)
  end.

(** The score of tract number [i] computed from its own [k] sample
    vertices alone. *)
Definition tract_score_at (O : Oracles) (Gig : igraph) (weight : string)
    (func : cost → Qc) (vals : list Qc) (nig_targets : list nat) (k : Z)
    (ig_nodes : list nat) (i : nat) : outcome Qc :=
  tract_score func vals k
    (shortest_paths_dijkstra O Gig
       (take (Z.to_nat k) (drop (i * Z.to_nat k) ig_nodes)) nig_targets weight).

(** The score as the specification words it: the decay function applied
    elementwise to a sample's row of costs, multiplied by the destination
    weights and summed; the [k] row sums summed and divided by [k]. *)
Definition weighted_row_sum (func : cost → Qc) (vals : list Qc)
    (ds : list cost) : Qc :=
  np_sum (zip_with Qcmult vals (func <$> ds)).

Definition spec_tract_score (O : Oracles) (Gig : igraph) (weight : string)
    (func : cost → Qc) (vals : list Qc) (nig_targets : list nat) (k : Z)
    (ig_nodes : list nat) (i : nat) : Qc :=
  (np_sum ((λ s, weighted_row_sum func vals
                   (distance O Gig weight s <$> nig_targets))
           <$> take (Z.to_nat k) (drop (i * Z.to_nat k) ig_nodes))
   / Qc_of_Z k)%Qc.

Section Engine.

Context (R : Rng) (O : Oracles).

(** Graph objects live in a store; a variable holds a reference. *)
Definition loc : Type := nat.

Record world : Type := {
  heap : gmap loc graph;
  rng : rng_world R
}.

Definition set_heap (h : gmap loc graph) (w : world) : world :=
  {| heap := h; rng := rng w |}.
Definition set_rng (r : rng_world R) (w : world) : world :=
  {| heap := heap w; rng := r |}.

(** [G.copy()]: a new object with the same nodes, edges and attribute
    values. *)
Definition graph_copy (G : loc) (w : world) : outcome loc * world :=
  match heap w !! G with
  | None => (Raise AttributeError, w)
  | Some g =>
      let G' := fresh (dom (heap w)) in
      (Ret G', set_heap (<[G' := g]> (heap w)) w)
  end.

(** The sampling loop of lines 180-187 and 342-350, as written:
    [random_points_in_polygon(k,poly,seed=random_seed)]. *)
Fixpoint sample_tracts (fuel : nat) (tracts : list tract) (k : Z)
    (random_seed : option Z) (X Y : list Qc) (r : rng_world R)
    : outcome (list Qc * list Qc) * rng_world R :=
  match tracts with
  | [] => (Ret (X, Y), r)
  | tract :: rest =>
      let poly := t_geometry tract in
      match random_points_in_polygon R fuel (PyInt k) (PyPolygon poly)
              random_seed r with
      | (Ret (X_, Y_), r') =>
          sample_tracts fuel rest k random_seed (X ++ X_) (Y ++ Y_) r'
      | (Raise e, r') => (Raise e, r')
      | (OutOfFuel, r') => (OutOfFuel, r')
      end
  end.

(** Lines 154-176 without the write of line 165: the POI nodes and the
    summed weights. *)
Definition poi_attrs (g : graph) (pois : list poi)
    (pois_weight_column : option string) : outcome (gmap node Qc) :=
  let X := p_x <$> pois in
  let Y := p_y <$> pois in
  let nodes := get_nearest_nodes O g X Y in
  vals ← poi_weights pois pois_weight_column;
  sum_poi_weights g nodes vals.

(** Lines 173-176: the igraph vertices of the nodes of positive weight,
    in node order, and their weights. *)
Definition tract_targets (g : graph) (name : string)
    : outcome (list nat * list Qc) :=
  targets ← positive_targets g name;
  nig_targets ← lookup_all (node_dict (get_full_igraph g)) (targets.*1);
  Ret (nig_targets, targets.*2).

(** What [calc_tract_accessibility] computes once the sample coordinates
    are there (lines 189-224); [tv] holds [nig_targets] and [vals]. *)
Definition tract_accessibility_of_samples (g : graph) (tracts : list tract)
    (weight : string) (func : cost → Qc) (k : Z) (tv : list nat * list Qc)
    (iter_cap : Z) (X Y : list Qc) : outcome (gmap Z Qc) :=
  let Gig := get_full_igraph g in
  let trackt_ns := get_nearest_nodes O g X Y in
  ig_nodes ← lookup_all (node_dict Gig) trackt_ns;
  acc ← tract_scores O Gig weight func tv.2 tv.1 k iter_cap tracts ig_nodes;
  Ret (dict_of_zip (t_index <$> tracts) acc).

(** [calc_tract_accessibility(tracts, pois, G, weight, func, k,
    random_seed, func_kws, pois_weight_column, iter_cap)]; [func] stands
    for the decay function with its keyword arguments applied. *)
Definition calc_tract_accessibility (fuel : nat) (tracts : list tract)
    (pois : list poi) (G : loc) (weight : string) (func : cost → Qc)
    (k : Z) (random_seed : option Z) (pois_weight_column : option string)
    (iter_cap : Z) (w : world) : outcome (gmap Z Qc) * world :=
  if negb (0 <? k) then (Raise AssertionError, w) else
  match heap w !! G with
  | None => (Raise AttributeError, w)
  | Some g =>
      match poi_attrs g pois pois_weight_column with
      | Raise e => (Raise e, w)
      | OutOfFuel => (OutOfFuel, w)
      | Ret attrs =>
          let name := weight_column_name pois_weight_column in
          let g1 := set_node_attributes g attrs name in
          let w1 := set_heap (<[G := g1]> (heap w)) w in
          match tract_targets g1 name with
          | Raise e => (Raise e, w1)
          | OutOfFuel => (OutOfFuel, w1)
          | Ret tv =>
              match sample_tracts fuel tracts k random_seed [] [] (rng w1) with
              | (Raise e, r) => (Raise e, set_rng r w1)
              | (OutOfFuel, r) => (OutOfFuel, set_rng r w1)
              | (Ret (X, Y), r) =>
                  (tract_accessibility_of_samples g1 tracts weight func k tv
                     iter_cap X Y, set_rng r w1)
              end
          end
      end
  end.

(** The sampling loop of lines 342-350: the coordinates and
    [pops += [tract[tracts_weight_column]/k]*k]. *)
Fixpoint sample_tracts_pops (fuel : nat) (tracts : list tract) (k : Z)
    (random_seed : option Z) (c : option string) (X Y : list Qc)
    (pops : list (option Qc)) (r : rng_world R)
    : outcome (list Qc * list Qc * list (option Qc)) * rng_world R :=
  match tracts with
  | [] => (Ret (X, Y, pops), r)
  | tract :: rest =>
      let poly := t_geometry tract in
      match random_points_in_polygon R fuel (PyInt k) (PyPolygon poly)
              random_seed r with
      | (Ret (X_, Y_), r') =>
          match sample_weight tract c k with
          | Ret p =>
              sample_tracts_pops fuel rest k random_seed c (X ++ X_)
                (Y ++ Y_) (pops ++ replicate (Z.to_nat k) p) r'
          | Raise e => (Raise e, r')
          | OutOfFuel => (OutOfFuel, r')
          end
      | (Raise e, r') => (Raise e, r')
      | (OutOfFuel, r') => (OutOfFuel, r')
      end
  end.

(** Lines 295-337 on the copy: the identity tags, the zero loads and the
    POI weights written on it. (Lines 335-337 compute [n_targets],
    [nig_targets] and [vals], which this function does not use.) *)
Definition prepare_load_graph (g : graph) (pois : list poi)
    (pois_weight_column : option string) : outcome graph :=
  let g1 := set_all_edges "orig_name" AEdge g in
  let g2 := set_all_edges "load" (λ _, ANum 0%Qc) g1 in
  attrs ← poi_attrs g2 pois pois_weight_column;
  Ret (set_node_attributes g2 attrs (weight_column_name pois_weight_column)).

(** What [calc_accessibility_load] computes once the sample coordinates
    and weights are there (lines 351-371); [nd] is [node_dict]. *)
Definition accessibility_load_of_samples (g : graph) (nd : gmap node nat)
    (weight : string) (func : cost → Qc) (name : string) (norm : bool)
    (X Y : list Qc) (pops : list (option Qc)) : outcome load_state :=
  let Gig := get_full_igraph g in
  let tot := np_nansum pops in
  let trackt_ns := get_nearest_nodes O g X Y in
  ig_nodes ← lookup_all nd trackt_ns;
  load_loop O Gig weight func name norm tot ig_nodes pops
    {| ls_graph := g; ls_queries := [] |}.

(** [calc_accessibility_load(tracts, pois, G, weight, func, k, random_seed,
    func_kws, pois_weight_column, tracts_weight_column, track_progress,
    norm)]. The result is the reference to the annotated copy. *)
Definition calc_accessibility_load (fuel : nat) (tracts : list tract)
    (pois : list poi) (G : loc) (weight : string) (func : cost → Qc)
    (k : Z) (random_seed : option Z) (pois_weight_column : option string)
    (tracts_weight_column : option string) (norm : bool) (w : world)
    : outcome loc * world :=
  if negb (0 <? k) then (Raise AssertionError, w) else
  match graph_copy G w with
  | (Raise e, w0) => (Raise e, w0)
  | (OutOfFuel, w0) => (OutOfFuel, w0)
  | (Ret G', w0) =>
      match heap w0 !! G' with
      | None => (Raise AttributeError, w0)
      | Some g =>
          (* line 308 assigns a variable of another name: the column label
             stays [None], and line 310 writes the column labelled [None] *)
          let tracts :=
            match tracts_weight_column with
            | None => set_tract_column tracts_weight_column (Some 1%Qc) tracts
            | Some _ => tracts
            end in
          let nd := node_dict
                      (get_full_igraph (set_all_edges "orig_name" AEdge g)) in
          match prepare_load_graph g pois pois_weight_column with
          | Raise e => (Raise e, w0)
          | OutOfFuel => (OutOfFuel, w0)
          | Ret g1 =>
              let name := weight_column_name pois_weight_column in
              let w1 := set_heap (<[G' := g1]> (heap w0)) w0 in
              match sample_tracts_pops fuel tracts k random_seed
                      tracts_weight_column [] [] [] (rng w1) with
              | (Raise e, r) => (Raise e, set_rng r w1)
              | (OutOfFuel, r) => (OutOfFuel, set_rng r w1)
              | (Ret (X, Y, pops), r) =>
                  let w2 := set_rng r w1 in
                  match accessibility_load_of_samples g1 nd weight func
                          name norm X Y pops with
                  | Raise e => (Raise e, w2)
                  | OutOfFuel => (OutOfFuel, w2)
                  | Ret st =>
                      (Ret G',
                       set_heap (<[G' := ls_graph st]> (heap w2)) w2)
                  end
              end
          end
      end
  end.

End Engine.

Arguments heap {R} _.
Arguments rng {R} _.

(** ** A concrete instance

    A linear congruential generator, a square, a nearest-node search over
    the nodes' [x] and [y] attributes and Bellman-Ford shortest paths, to
    run the definitions on concrete inputs. *)

Definition lcg_next (s : Z) : Z := (1103515245 * s + 12345) mod 2147483648.

Definition lcg : Rng :=
  {| rng_state := Z;
     seed_state := λ s, s mod 2147483648;
     random_sample := λ s,
       let s' := lcg_next s in
       (Q2Qc (Qmake s' 2147483648), s');
     os_entropy := λ i, 977 + 31 * Z.of_nat i |}.

(** The open square with corners (0,0) and (side,side). *)
Definition square (side : Z) : Polygon :=
  let a := Qc_of_Z side in
  {| bounds := (0%Qc, 0%Qc, a, a);
     area := (a * a)%Qc;
     within := λ p, bool_decide (0 < p.1)%Qc && bool_decide (p.1 < a)%Qc
                    && bool_decide (0 < p.2)%Qc && bool_decide (p.2 < a)%Qc |}.

Definition sq_dist (G : graph) (x y : Qc) (n : node) : Qc :=
  let nx := default 0%Qc (g_node_attrs G !! (n, "x"%string)) in
  let ny := default 0%Qc (g_node_attrs G !! (n, "y"%string)) in
  ((x - nx) * (x - nx) + (y - ny) * (y - ny))%Qc.

Definition nearest_node (G : graph) (x y : Qc) : option node :=
  foldl (λ best n,
           match best with
           | None => Some n
           | Some b => if bool_decide (sq_dist G x y n < sq_dist G x y b)%Qc
                       then Some n else Some b
           end) None (g_nodes G).

Definition nearest_nodes (G : graph) (X Y : list Qc) : list node :=
  omap (λ xy, nearest_node G xy.1 xy.2) (zip X Y).

(** One relaxation of edge [i] on the table of best known costs and edge
    paths. *)
Definition bf_relax (Gig : igraph) (weights : string)
    (best : list (option (Qc * list nat))) (i : nat)
    : list (option (Qc * list nat)) :=
  match es Gig !! i with
  | Some (u, v, _) =>
      match node_dict Gig !! u, node_dict Gig !! v,
            es_attrs Gig !! ((es Gig !!! i), weights) with
      | Some iu, Some iv, Some (ANum c) =>
          match best !! iu with
          | Some (Some (du, pu)) =>
              match best !! iv with
              | Some (Some (dv, _)) =>
                  if bool_decide (du + c < dv)%Qc
                  then <[iv := Some ((du + c)%Qc, pu ++ [i])]> best
                  else best
              | Some None => <[iv := Some ((du + c)%Qc, pu ++ [i])]> best
              | None => best
              end
          | _ => best
          end
      | _, _, _ => best
      end
  | None => best
  end.

Definition bellman_ford (Gig : igraph) (weights : string) (source : nat)
    : list (option (Qc * list nat)) :=
  let init := <[source := Some (0%Qc, [])]> (replicate (length (vs Gig)) None) in
  foldl (λ best _, foldl (bf_relax Gig weights) best (seq 0 (length (es Gig))))
        init (vs Gig).

Definition bf_oracles : Oracles :=
  {| get_nearest_nodes := nearest_nodes;
     distance := λ Gig weights s t,
       match bellman_ford Gig weights s !! t with
       | Some (Some (d, _)) => Fin d
       | _ => Inf
       end;
     get_shortest_paths := λ Gig source weights,
       (λ o : option (Qc * list nat), match o with
              | Some (_, p) => p
              | None => []
              end) <$> bellman_ford Gig weights source |}.

(** ** A small network

    Three nodes on a line, 1 at x=0, 2 at x=10, 3 at x=20, joined by
    one-way edges 1->2, 2->3 and 1->3. By [length] the direct edge 1->3
    (15) is the shortest way from 1 to 3; by [time] the way through 2 is
    (2 against 5). Nothing leads back from 3. One POI of capacity 4 sits on
    node 3. *)

Definition e12 : edge := (1, 2, 0).
Definition e23 : edge := (2, 3, 0).
Definition e13 : edge := (1, 3, 0).

Definition ex_graph : graph :=
  {| g_nodes := [1; 2; 3];
     g_edges := [e12; e23; e13];
     g_node_attrs :=
       list_to_map
         [((1, "x"%string), Qc_of_Z 0); ((1, "y"%string), Qc_of_Z 0);
          ((2, "x"%string), Qc_of_Z 10); ((2, "y"%string), Qc_of_Z 0);
          ((3, "x"%string), Qc_of_Z 20); ((3, "y"%string), Qc_of_Z 0)];
     g_edge_attrs :=
       list_to_map
         [((e12, "length"%string), ANum (Qc_of_Z 10));
          ((e12, "time"%string), ANum (Qc_of_Z 1));
          ((e23, "length"%string), ANum (Qc_of_Z 10));
          ((e23, "time"%string), ANum (Qc_of_Z 1));
          ((e13, "length"%string), ANum (Qc_of_Z 15));
          ((e13, "time"%string), ANum (Qc_of_Z 5))] |}.

Definition ex_pois : list poi :=
  [ {| p_x := Qc_of_Z 20; p_y := Qc_of_Z 0;
       p_cols := {[ "cap"%string := Qc_of_Z 4 ]} |} ].

Definition ex_tracts : list tract :=
  [ {| t_index := 7; t_geometry := square 2; t_cols := ∅ |};
    {| t_index := 8; t_geometry := square 30; t_cols := ∅ |} ].

(** The graph with the POI weights on its nodes (line 165). *)
Definition ex_graph_poi : graph :=
  match poi_attrs bf_oracles ex_graph ex_pois (Some "cap"%string) with
  | Ret attrs => set_node_attributes ex_graph attrs "cap"
  | _ => ex_graph
  end.

(** Two samples per tract: both of tract 7 nearest to node 1, those of
    tract 8 nearest to nodes 2 and 3. *)
Definition ex_X : list Qc := Qc_of_Z <$> [0; 1; 9; 19].
Definition ex_Y : list Qc := Qc_of_Z <$> [0; 0; 0; 0].

Definition ex_targets : list nat * list Qc :=
  match tract_targets ex_graph_poi "cap" with
  | Ret tv => tv
  | _ => ([], [])
  end.

Definition ex_ig_nodes : list nat :=
  match lookup_all (node_dict (get_full_igraph ex_graph_poi))
          (nearest_nodes ex_graph_poi ex_X ex_Y) with
  | Ret l => l
  | _ => []
  end.

(** The copy as the edge-load accumulator prepares it. *)
Definition ex_load_graph : graph :=
  match prepare_load_graph bf_oracles ex_graph ex_pois (Some "cap"%string) with
  | Ret g => g
  | _ => ex_graph
  end.

(** The same network with the POI (capacity 5) on node 1, which no edge
    leads back to. *)
Definition ex_pois_back : list poi :=
  [ {| p_x := Qc_of_Z 0; p_y := Qc_of_Z 0;
       p_cols := {[ "cap"%string := Qc_of_Z 5 ]} |} ].

Definition ex_load_graph_back : graph :=
  match prepare_load_graph bf_oracles ex_graph ex_pois_back
          (Some "cap"%string) with
  | Ret g => g
  | _ => ex_graph
  end.

Definition run_load (g : graph) (weight : string) (func : cost → Qc)
    (norm : bool) (ig_nodes : list nat) (pops : list (option Qc))
    : outcome load_state :=
  load_loop bf_oracles (get_full_igraph g) weight func "cap" norm
    (np_nansum pops) ig_nodes pops {| ls_graph := g; ls_queries := [] |}.

Definition loads_of (r : outcome load_state) : list Qc :=
  match r with
  | Ret st => edge_load (ls_graph st) <$> g_edges (ls_graph st)
  | _ => []
  end.

(** A world holding the example network at reference 0. *)
Definition ex_world : world lcg :=
  {| heap := {[ 0%nat := ex_graph ]};
     rng := ((0 : rng_state lcg), 0%nat) |}.

(** * Further definitions

    The rest of tools/accessibility.py and what the further properties are
    stated with. *)

(** ** The decay functions with an exponential

    [acc_soft_threshold] and [acc_cumulative_gaussian] on one cost, with
    real numbers for floats. *)

Module DecayR.

Import Reals.
Local Open Scope R_scope.

(** [(d<=t)] and [(d>t)] as numbers. *)
Definition le_ind (d t : R) : R := if Rle_dec d t then 1 else 0.
Definition gt_ind (d t : R) : R := if Rlt_dec t d then 1 else 0.

(** [acc_soft_threshold(d, t, k)]: [(1+np.exp(k*(d-t)/t))**-1]. *)
Definition acc_soft_threshold (t k d : R) : R :=
  / (1 + exp (k * (d - t) / t)).

(** [acc_cumulative_gaussian(d, t, v)]:
    [(d<=t)*1 + np.exp(-(d-t)**2/v)*(d>t)]. *)
Definition acc_cumulative_gaussian (t v d : R) : R :=
  le_ind d t * 1 + exp (- (d - t) ^ 2 / v) * gt_ind d t.

End DecayR.

(** The order of costs: every finite cost is below the infinite one. *)
Definition cost_leq (d1 d2 : cost) : Prop :=
  match d1, d2 with
  | Fin q1, Fin q2 => (q1 ≤ q2)%Qc
  | _, Inf => True
  | Inf, Fin _ => False
  end.

(** The area of the bounding box, [(x_max-x_min)*(y_max-y_min)]. *)
Definition box_area (poly : Polygon) : Qc :=
  let '(x_min, y_min, x_max, y_max) := bounds poly in
  ((x_max - x_min) * (y_max - y_min))%Qc.

(** A segment: a polygon without area in a bounding box without height. *)
Definition flat_polygon : Polygon :=
  {| bounds := (0%Qc, 0%Qc, Qc_of_Z 3, 0%Qc);
     area := 0%Qc;
     within := λ _, false |}.

(** The summed weight of the POIs whose nearest node is [n]. *)
Definition snapped_weight (nodes : list node) (vals : list Qc) (n : node)
    : Qc :=
  np_sum (omap (λ nv : node * Qc,
                  if bool_decide (nv.1 = n) then Some nv.2 else None)
               (zip nodes vals)).

(** A POI table whose rows carry no column at all. *)
Definition ex_pois_bare : list poi :=
  [ {| p_x := Qc_of_Z 20; p_y := Qc_of_Z 0; p_cols := ∅ |} ].

(** The key and the [length] of the edge with igraph index [i]. *)
Definition edge_key (g : graph) (i : nat) : edge :=
  match g_edges g !! i with
  | Some e => e
  | None => (0, 0, 0)
  end.

Definition edge_length (g : graph) (i : nat) : Qc :=
  match g_edge_attrs g !! (edge_key g i, "length"%string) with
  | Some (ANum q) => q
  | _ => 0%Qc
  end.

(** How often edge [e] is on the way [seq]. *)
Definition occurrences (e : edge) (seq : list attr) : nat :=
  length (filter (λ a, a = AEdge e) seq).

(** What the ways [l], each with its value, add to the load of edge [e]. *)
Definition pair_gain (e : edge) (l : list (list attr * Qc)) : Qc :=
  np_sum ((λ sw : list attr * Qc,
             (sw.2 * Qc_of_Z (Z.of_nat (occurrences e sw.1)))%Qc) <$> l).

Definition edge_gain (e : edge) (seqs : list (list attr)) (ws : list Qc)
    : Qc :=
  pair_gain e (zip seqs ws).

(** [G'] is [G] with [delta e] added to the load of every edge [e], and
    nothing else changed. *)
Definition loads_shifted (delta : edge → Qc) (G G' : graph) : Prop :=
  g_nodes G' = g_nodes G ∧ g_edges G' = g_edges G ∧
  g_node_attrs G' = g_node_attrs G ∧
  ∀ k : edge * string,
    g_edge_attrs G' !! k =
    if bool_decide (k.2 = "load"%string ∧ k.1 ∈ g_edges G)
    then Some (ANum (edge_load G k.1 + delta k.1)%Qc)
    else g_edge_attrs G !! k.

(** A tag that names an edge of the list [E]. *)
Definition names_edge (E : list edge) (a : attr) : Prop :=
  ∃ e : edge, a = AEdge e ∧ e ∈ E.

(** [G'] differs from [G] in the edge attribute [name] at most. *)
Definition only_attr_changed (name : string) (G G' : graph) : Prop :=
  g_nodes G' = g_nodes G ∧ g_edges G' = g_edges G ∧
  g_node_attrs G' = g_node_attrs G ∧
  ∀ (e : edge) (n : string),
    n ≠ name → g_edge_attrs G' !! (e, n) = g_edge_attrs G !! (e, n).

(** What one sample adds to the load of edge [e]: the values of its ways
    through [e], once per traversal. *)
Definition sample_gain (O : Oracles) (Gig : igraph) (weight : string)
    (func : cost → Qc) (name : string) (norm : bool) (tot : Qc)
    (G : graph) (e : edge) (sp : nat * Qc) : Qc :=
  match sample_contributions O Gig weight func name norm tot G sp.1 sp.2 with
  | Ret c => edge_gain e c.1 c.2
  | _ => 0%Qc
  end.

(** * Properties *)

(** Closed equations on concrete inputs are settled by running the
    decision procedure of the equality. *)
Ltac by_compute :=
  match goal with
  | |- ?P => apply (bool_decide_unpack P); vm_compute; exact I
  end.

(** ** Python sequences *)

Lemma py_slice_prefix {A} (l : list A) (k : Z) :
  0 ≤ k → py_slice l 0 k = take (Z.to_nat k) l.
Proof.
  intros Hk. unfold py_slice, py_clip.
  replace (0 <? 0) with false by done.
  destruct (Z.ltb_spec k 0); [lia|].
  rewrite (Z.min_l 0) by lia. rewrite Z2Nat.inj_0, Nat.sub_0_r. simpl.
  destruct (decide (k ≤ Z.of_nat (length l))).
  - by rewrite Z.min_l, drop_0 by lia.
  - rewrite Z.min_r by lia. rewrite Nat2Z.id.
    rewrite drop_0, firstn_all, take_ge by lia. done.
Qed.

Lemma zip_take_fst_snd {A B} (l : list (A * B)) (n : nat) :
  zip (take n (l.*1)) (take n (l.*2)) = take n l.
Proof.
  revert n. induction l as [|[a b] l IH]; intros [|n]; simpl; try done.
  by rewrite IH.
Qed.

Lemma py_round_nonneg (q : Qc) : (0 ≤ q)%Qc → 0 ≤ py_round q.
Proof.
  intros Hq. unfold py_round.
  assert (Hn : 0 ≤ Qnum (this q)).
  { unfold Qcle, Qle in Hq. simpl in Hq. lia. }
  assert (Hf : 0 ≤ Qnum (this q) / Z.pos (Qden (this q))).
  { apply Z.div_pos; lia. }
  destruct (_ ?= _); [destruct (Z.even _)| |]; lia.
Qed.

(** ** Polygon sampler *)

Section SamplerFacts.

Context (R : Rng).

Lemma draw_batch_within poly n st :
  Forall (λ p, within poly p = true) (draw_batch R poly n st).1.
Proof.
  unfold draw_batch. destruct (bounds poly) as [[[x0 y0] x1] y1].
  destruct (np_random_uniform R x0 x1 n st) as [x st1].
  destruct (np_random_uniform R y0 y1 n st1) as [y st2]. simpl.
  apply List.Forall_forall. intros p Hp. apply list_elem_of_In in Hp.
  by apply list_elem_of_filter in Hp as [? _].
Qed.

(** The loop returns at the first pass with enough points within the
    polygon, and more fuel does not change what it returns. *)
Lemma sample_loop_returns poly (n_pts : Z) (n i : nat) :
  0 ≤ n_pts →
  ∀ st, n_pts ≤ Z.of_nat (length (batch_hits R i poly n st)) →
  ∃ fuel X Y st',
    (∀ fuel', (fuel ≤ fuel')%nat →
       sample_loop R fuel' poly n_pts n st = (Ret (X, Y), st')) ∧
    Z.of_nat (length X) = n_pts ∧ Z.of_nat (length Y) = n_pts ∧
    Forall (λ p, within poly p = true) (zip X Y).
Proof.
  intros Hk. induction i as [|i IH]; intros st Hhit.
  - unfold batch_hits in Hhit. simpl in Hhit.
    pose proof (draw_batch_within poly n st) as Hin.
    destruct (draw_batch R poly n st) as [pts st'] eqn:Hd. simpl in *.
    exists 1%nat, (take (Z.to_nat n_pts) (pts.*1)),
      (take (Z.to_nat n_pts) (pts.*2)), st'.
    split; [|split; [|split]].
    + intros [|fuel'] Hf; [lia|]. simpl. rewrite Hd.
      rewrite !py_slice_prefix by done.
      rewrite length_take, length_fmap.
      destruct (Z.ltb_spec (Z.of_nat (Z.to_nat n_pts `min` length pts)) n_pts);
        [lia|done].
    + rewrite length_take, length_fmap. lia.
    + rewrite length_take, length_fmap. lia.
    + rewrite zip_take_fst_snd. by apply Forall_take.
  - pose proof (draw_batch_within poly n st) as Hin.
    destruct (draw_batch R poly n st) as [pts st'] eqn:Hd. simpl in Hin.
    destruct (decide (n_pts ≤ Z.of_nat (length pts))) as [Hge|Hlt].
    + exists 1%nat, (take (Z.to_nat n_pts) (pts.*1)),
        (take (Z.to_nat n_pts) (pts.*2)), st'.
      split; [|split; [|split]].
      * intros [|fuel'] Hf; [lia|]. simpl. rewrite Hd.
        rewrite !py_slice_prefix by done.
        rewrite length_take, length_fmap.
        destruct (Z.ltb_spec (Z.of_nat (Z.to_nat n_pts `min` length pts)) n_pts);
          [lia|done].
      * rewrite length_take, length_fmap. lia.
      * rewrite length_take, length_fmap. lia.
      * rewrite zip_take_fst_snd. by apply Forall_take.
    + destruct (IH st') as (fuel & X & Y & st'' & Hrun & HX & HY & HW).
      { unfold batch_hits in *. simpl in Hhit. by rewrite Hd in Hhit. }
      exists (S fuel), X, Y, st''. split; [|done].
      intros [|fuel'] Hf; [lia|]. simpl. rewrite Hd.
      rewrite !py_slice_prefix by done.
      rewrite length_take, length_fmap.
      destruct (Z.ltb_spec (Z.of_nat (Z.to_nat n_pts `min` length pts)) n_pts);
        [|lia].
      apply Hrun. lia.
Qed.

End SamplerFacts.
Lemma Qc_of_Z_nonneg z : 0 ≤ z → (0 ≤ Qc_of_Z z)%Qc.
Proof. intros Hz. rewrite <-Z2Qc_inj_0. by apply (proj1 (Z2Qc_inj_le 0 z)). Qed.

Lemma Qc_sub_pos (a b : Qc) : (a < b)%Qc → (0 < b - a)%Qc.
Proof. intros H. by apply Qclt_minus_iff in H. Qed.

Section SamplerFacts2.

Context (R : Rng).

Lemma inflated_size_simple poly n_pts :
  simple_polygon poly → 0 < n_pts →
  ∃ n, inflated_size poly n_pts = Ret n ∧ 0 ≤ n.
Proof.
  unfold simple_polygon, inflated_size.
  destruct (bounds poly) as [[[x0 y0] x1] y1]. intros (Hx & Hy & Ha) Hn.
  assert (Hbox : (0 < (x1 - x0) * (y1 - y0))%Qc).
  { apply Qcmult_pos_pos; by apply Qc_sub_pos. }
  assert (Hsft : (0 < area poly / ((x1 - x0) * (y1 - y0)))%Qc).
  { apply Qcmult_pos_pos; [done|by apply Qcinv_pos]. }
  rewrite bool_decide_eq_false_2; [|by apply Qclt_not_eq in Hbox].
  rewrite bool_decide_eq_false_2; [|by apply Qclt_not_eq in Hsft].
  eexists. split; [done|]. apply py_round_nonneg.
  apply Qcmult_nonneg_nonneg; [apply Qc_of_Z_nonneg; lia|].
  apply Qcplus_nonneg_nonneg; [done|].
  apply Qcmult_nonneg_nonneg; [done|].
  apply Qclt_le_weak. by apply Qcinv_pos.
Qed.

(** C3. For a simple polygon and [n_pts > 0], [random_points_in_polygon]
    called with an integer seed returns exactly [n_pts] points, all of them
    within the polygon, and the same points at every call with that seed,
    whatever the state of the process-wide generator before the call. The
    loop has no iteration cap: it returns provided some pass of the seeded
    stream puts [n_pts] points within the polygon, and then any larger fuel
    gives the same result. *)
Theorem random_points_in_polygon_exact poly (n_pts s : Z) :
  simple_polygon poly → 0 < n_pts →
  (∃ i, n_pts ≤ Z.of_nat (length
          (batch_hits R i poly (batch_size poly n_pts) (seed_state R s)))) →
  ∃ fuel X Y,
    Z.of_nat (length X) = n_pts ∧ Z.of_nat (length Y) = n_pts ∧
    Forall (λ p, within poly p = true) (zip X Y) ∧
    ∀ fuel' w, (fuel ≤ fuel')%nat →
      (random_points_in_polygon R fuel' (PyPolygon poly) (PyInt n_pts)
         (Some s) w).1 = Ret (X, Y).
Proof.
  intros Hsimple Hn [i Hi].
  destruct (inflated_size_simple poly n_pts Hsimple Hn) as (n & Hsize & Hn0).
  unfold batch_size in Hi. rewrite Hsize in Hi.
  destruct (sample_loop_returns R poly n_pts (Z.to_nat n) i ltac:(lia) _ Hi)
    as (fuel & X & Y & st' & Hrun & HX & HY & HW).
  exists fuel, X, Y. repeat split; try done.
  intros fuel' w Hf. unfold random_points_in_polygon. rewrite Hsize.
  destruct (Z.ltb_spec n 0); [lia|]. simpl.
  by rewrite (Hrun fuel' Hf).
Qed.

End SamplerFacts2.

Lemma random_points_in_polygon_exact_witness :
  ∃ fuel X Y,
    Z.of_nat (length X) = 2 ∧ Z.of_nat (length Y) = 2 ∧
    Forall (λ p, within (square 1) p = true) (zip X Y) ∧
    ∀ fuel' w, (fuel ≤ fuel')%nat →
      (random_points_in_polygon lcg fuel' (PyPolygon (square 1)) (PyInt 2)
         (Some 42) w).1 = Ret (X, Y).
Proof.
  apply (random_points_in_polygon_exact lcg (square 1) 2 42).
  - vm_compute. done.
  - lia.
  - exists 0%nat. vm_compute. discriminate.
Defined.

(** ** Fallible loops *)

Lemma mapM_outcome_app {A B} (f : A → outcome B) (l1 l2 : list A) :
  mapM_outcome f (l1 ++ l2) =
  (bs1 ← mapM_outcome f l1; bs2 ← mapM_outcome f l2; Ret (bs1 ++ bs2)).
Proof.
  induction l1 as [|a l1 IH]; simpl.
  - by destruct (mapM_outcome f l2).
  - destruct (f a); simpl; [|done..]. rewrite IH.
    destruct (mapM_outcome f l1); simpl; [|done..].
    by destruct (mapM_outcome f l2).
Qed.

Lemma mapM_outcome_fmap {A B C} (g : A → B) (f : B → outcome C) (l : list A) :
  mapM_outcome f (g <$> l) = mapM_outcome (f ∘ g) l.
Proof.
  induction l as [|a l IH]; [done|].
  rewrite fmap_cons. cbn [mapM_outcome]. by rewrite IH.
Qed.

Lemma mapM_outcome_ext {A B} (f g : A → outcome B) (l : list A) :
  (∀ a, a ∈ l → f a = g a) → mapM_outcome f l = mapM_outcome g l.
Proof.
  induction l as [|a l IH]; intros Hfg; simpl; [done|].
  rewrite (Hfg a) by left. rewrite IH; [done|]. intros b Hb. apply Hfg. by right.
Qed.

Lemma mapM_outcome_pure {A B} (f : A → B) (l : list A) :
  mapM_outcome (λ a, Ret (f a)) l = Ret (f <$> l).
Proof.
  induction l as [|a l IH]; [done|].
  rewrite fmap_cons. cbn [mapM_outcome]. by rewrite IH.
Qed.

Lemma mapM_outcome_length {A B} (f : A → outcome B) (l : list A) bs :
  mapM_outcome f l = Ret bs → length bs = length l.
Proof.
  revert bs. induction l as [|a l IH]; simpl; intros bs.
  - by intros [= <-].
  - destruct (f a); simpl; [|done..].
    destruct (mapM_outcome f l) eqn:E; simpl; [|done..].
    intros [= <-]. simpl. f_equal. by apply IH.
Qed.

(** ** Slices *)

Lemma py_slice_nonneg {A} (l : list A) (a b : Z) :
  0 ≤ a → a ≤ b →
  py_slice l a b = take (Z.to_nat (b - a)) (drop (Z.to_nat a) l).
Proof.
  intros Ha Hab. unfold py_slice, py_clip.
  destruct (Z.ltb_spec a 0); [lia|]. destruct (Z.ltb_spec b 0); [lia|].
  destruct (decide (Z.of_nat (length l) ≤ a)) as [Hout|Hin].
  - rewrite (Z.min_r a) by lia. rewrite Nat2Z.id.
    rewrite !drop_ge by lia. by rewrite !take_nil.
  - rewrite (Z.min_l a) by lia.
    destruct (decide (b ≤ Z.of_nat (length l))).
    + rewrite Z.min_l by lia. f_equal. lia.
    + rewrite Z.min_r by lia. rewrite Nat2Z.id.
      rewrite !take_ge; [done|rewrite length_drop; lia..].
Qed.

Lemma take_drop_take {A} (l : list A) (k a c : nat) :
  (a + k ≤ c)%nat → take k (drop a (take c l)) = take k (drop a l).
Proof.
  intros H. rewrite skipn_firstn_comm. rewrite take_take.
  f_equal. lia.
Qed.

Lemma py_slice_fmap {A B} (f : A → B) (l : list A) (a b : Z) :
  py_slice (f <$> l) a b = f <$> py_slice l a b.
Proof. unfold py_slice. by rewrite length_fmap, fmap_take, fmap_drop. Qed.

Lemma zip_fmap_same {A B C} (f : A → B) (g : A → C) (l : list A) :
  zip (f <$> l) (g <$> l) = (λ x, (f x, g x)) <$> l.
Proof. induction l as [|a l IH]; [done|]. rewrite !fmap_cons. simpl. by f_equal. Qed.

Lemma foldM_outcome_fmap {A B S} (g : A → B) (f : S → B → outcome S)
    (l : list A) (s : S) :
  foldM_outcome f (g <$> l) s = foldM_outcome (λ s a, f s (g a)) l s.
Proof.
  revert s. induction l as [|a l IH]; intros s; [done|].
  rewrite fmap_cons. cbn [foldM_outcome]. destruct (f s (g a)); simpl; auto.
Qed.

Lemma foldM_outcome_ext {A S} (f g : S → A → outcome S) (l : list A) (s : S) :
  (∀ s a, a ∈ l → f s a = g s a) → foldM_outcome f l s = foldM_outcome g l s.
Proof.
  revert s. induction l as [|a l IH]; intros s Hfg; [done|].
  cbn [foldM_outcome]. rewrite (Hfg s a) by left.
  destruct (g s a); simpl; [|done..]. apply IH. intros ???. apply Hfg. by right.
Qed.

Lemma bind_ret_app_nil {A} (m : outcome (list A)) :
  (bs ← m; Ret ([] ++ bs)) = m.
Proof. by destruct m. Qed.

(** ** Accessibility aggregator *)

Section TractScores.

Context {T : Type} (O : Oracles) (Gig : igraph) (weight : string).
Context (func : cost → Qc) (vals : list Qc) (nig_targets : list nat).
Context (k : Z) (Hk : 0 < k).

Local Abbreviation M := (λ src, shortest_paths_dijkstra O Gig src nig_targets weight).
Local Abbreviation kn := (Z.to_nat k).

(** The loop over the tracts of one matrix scores each tract on its own
    slice of rows. *)
Lemma tract_loop_slices (D : list (list cost)) (l : list T) :
  ∀ n acc,
    tract_loop func vals k D l n acc =
    (bs ← mapM_outcome
            (λ i : nat, tract_score func vals k
               (py_slice D (n + Z.of_nat i * k) (n + Z.of_nat i * k + k)))
            (seq 0 (length l));
     Ret (acc ++ bs)).
Proof.
  induction l as [|x l IH]; intros n acc.
  - simpl. by rewrite app_nil_r.
  - cbn [tract_loop length]. rewrite <-cons_seq. cbn [mapM_outcome].
    replace (n + Z.of_nat 0 * k) with n by lia.
    destruct (tract_score func vals k (py_slice D n (n + k))) as [a| |];
      simpl; [|done..].
    rewrite IH. rewrite <-fmap_S_seq, mapM_outcome_fmap.
    rewrite (mapM_outcome_ext (_ ∘ S)
      (λ i : nat, tract_score func vals k
         (py_slice D (n + k + Z.of_nat i * k) (n + k + Z.of_nat i * k + k)))).
    2:{ intros i _. unfold compose. do 2 f_equal; lia. }
    destruct (mapM_outcome _ _); simpl; [|done..].
    by rewrite <-app_assoc.
Qed.

Lemma matrix_slice (src : list nat) (a : nat) :
  py_slice (M src) (Z.of_nat a * k) (Z.of_nat a * k + k) =
  M (take kn (drop (a * kn) src)).
Proof.
  unfold shortest_paths_dijkstra. rewrite py_slice_fmap. f_equal.
  rewrite py_slice_nonneg by lia. f_equal; [f_equal; lia|f_equal; lia].
Qed.

(** One distance matrix for all tracts. *)
Lemma tract_loop_whole (loop : list T) (ig_nodes : list nat) :
  tract_loop func vals k (M ig_nodes) loop 0 [] =
  mapM_outcome (tract_score_at O Gig weight func vals nig_targets k ig_nodes)
    (seq 0 (length loop)).
Proof.
  rewrite tract_loop_slices, bind_ret_app_nil.
  apply mapM_outcome_ext. intros i _. unfold tract_score_at.
  replace (0 + Z.of_nat i * k) with (Z.of_nat i * k) by lia.
  by rewrite matrix_slice.
Qed.

(** The matrix of one section of [cn = capn * kn] vertices scores the
    tracts of that section as the whole matrix would. *)
Lemma tract_loop_section (loop : list T) (ig_nodes : list nat)
    (capn j : nat) (acc : list Qc) :
  tract_loop func vals k
    (M (take (capn * kn) (drop (j * (capn * kn)) ig_nodes)))
    (take capn (drop (j * capn) loop)) 0 acc =
  (bs ← mapM_outcome
          (tract_score_at O Gig weight func vals nig_targets k ig_nodes)
          (seq (j * capn) (capn `min` (length loop - j * capn)));
   Ret (acc ++ bs)).
Proof.
  rewrite tract_loop_slices. rewrite length_take, length_drop.
  replace (seq (j * capn) (capn `min` (length loop - j * capn)))
    with (Nat.add (j * capn) <$> seq 0 (capn `min` (length loop - j * capn)))
    by (rewrite fmap_add_seq; f_equal; lia).
  rewrite mapM_outcome_fmap.
  f_equal. apply mapM_outcome_ext. intros i Hi. unfold compose, tract_score_at.
  apply list_elem_of_In, in_seq in Hi.
  replace (0 + Z.of_nat i * k) with (Z.of_nat i * k) by lia.
  rewrite matrix_slice. do 2 f_equal.
  rewrite take_drop_take by nia. rewrite drop_drop. do 2 f_equal. nia.
Qed.

(** Section after section, the scores come out in tract order. *)
Lemma sections_fold (loop : list T) (ig_nodes : list nat) (capn : nat) :
  ∀ m j0 acc,
    foldM_outcome
      (λ acc (j : nat),
         tract_loop func vals k
           (M (take (capn * kn) (drop (j * (capn * kn)) ig_nodes)))
           (take capn (drop (j * capn) loop)) 0 acc)
      (seq j0 m) acc =
    (bs ← mapM_outcome
            (tract_score_at O Gig weight func vals nig_targets k ig_nodes)
            (seq (j0 * capn) ((m * capn) `min` (length loop - j0 * capn)));
     Ret (acc ++ bs)).
Proof.
  induction m as [|m IH]; intros j0 acc.
  - simpl. by rewrite app_nil_r.
  - rewrite <-cons_seq. cbn [foldM_outcome]. rewrite tract_loop_section.
    set (a := (capn `min` (length loop - j0 * capn))%nat).
    set (b := ((m * capn) `min` (length loop - S j0 * capn))%nat).
    replace ((S m * capn) `min` (length loop - j0 * capn))%nat
      with (a + b)%nat by (unfold a, b; nia).
    rewrite seq_app, mapM_outcome_app.
    destruct (mapM_outcome _ (seq (j0 * capn) a)) as [bs1| |]; simpl; [|done..].
    rewrite IH. fold b.
    destruct (decide (b = 0%nat)) as [->|Hb].
    + simpl. by rewrite !app_nil_r.
    + replace (S j0 * capn)%nat with (j0 * capn + a)%nat by (unfold a, b in *; nia).
      destruct (mapM_outcome _ _); simpl; [|done..]. by rewrite <-app_assoc.
Qed.

(** Lines 196-223 score every tract on its own [k] rows, whether the
    distances come from one matrix or from sections of [iter_cap] tracts. *)
Lemma tract_scores_unfold (iter_cap : Z) (loop : list T) (ig_nodes : list nat) :
  0 < iter_cap →
  Z.of_nat (length ig_nodes) = k * Z.of_nat (length loop) →
  tract_scores O Gig weight func vals nig_targets k iter_cap loop ig_nodes =
  mapM_outcome (tract_score_at O Gig weight func vals nig_targets k ig_nodes)
    (seq 0 (length loop)).
Proof.
  intros Hcap Hlen. unfold tract_scores.
  destruct (Z.leb_spec (iter_cap * k) (Z.of_nat (length ig_nodes)));
    [|apply tract_loop_whole].
  unfold py_floordiv, py_range.
  destruct (Z.eqb_spec (iter_cap * k) 0); [nia|].
  destruct (Z.eqb_spec iter_cap 0); [lia|].
  cbn [mbind outcome_bind].
  destruct (Z.ltb_spec 0 (iter_cap * k)); [|nia].
  destruct (Z.ltb_spec 0 iter_cap); [|lia].
  set (q := Z.of_nat (length loop) / iter_cap).
  assert (Hq : Z.of_nat (length ig_nodes) / (iter_cap * k) = q).
  { rewrite Hlen, (Z.mul_comm k). apply Z.div_mul_cancel_r; lia. }
  rewrite Hq.
  assert (Hq0 : 0 ≤ q) by (apply Z.div_pos; lia).
  replace (((q + 1) * (iter_cap * k) + 1 - 0 + iter_cap * k - 1) / (iter_cap * k))
    with (q + 2).
  2:{ replace ((q + 1) * (iter_cap * k) + 1 - 0 + iter_cap * k - 1)
        with ((q + 2) * (iter_cap * k)) by lia.
      by rewrite Z.div_mul. }
  replace (((q + 1) * iter_cap + 1 - 0 + iter_cap - 1) / iter_cap) with (q + 2).
  2:{ replace ((q + 1) * iter_cap + 1 - 0 + iter_cap - 1)
        with ((q + 2) * iter_cap) by lia.
      by rewrite Z.div_mul. }
  rewrite <-!list_fmap_compose, zip_fmap_same, foldM_outcome_fmap.
  set (capn := Z.to_nat iter_cap).
  rewrite (foldM_outcome_ext _
    (λ acc (j : nat),
       tract_loop func vals k
         (M (take (capn * kn) (drop (j * (capn * kn)) ig_nodes)))
         (take capn (drop (j * capn) loop)) 0 acc)).
  2:{ intros acc j _. unfold compose. cbn [fst snd].
      rewrite !py_slice_nonneg by nia.
      replace (Z.to_nat (0 + Z.of_nat j * (iter_cap * k) + iter_cap * k -
                         (0 + Z.of_nat j * (iter_cap * k))))
        with (capn * kn)%nat by (unfold capn; nia).
      replace (Z.to_nat (0 + Z.of_nat j * (iter_cap * k)))
        with (j * (capn * kn))%nat by (unfold capn; nia).
      replace (Z.to_nat (0 + Z.of_nat j * iter_cap + iter_cap -
                         (0 + Z.of_nat j * iter_cap)))
        with capn by (unfold capn; nia).
      replace (Z.to_nat (0 + Z.of_nat j * iter_cap))
        with (j * capn)%nat by (unfold capn; nia).
      done. }
  rewrite sections_fold, bind_ret_app_nil. do 2 f_equal.
  assert (Z.of_nat (length loop) < (q + 1) * iter_cap).
  { unfold q. pose proof (Z.mul_succ_div_gt (Z.of_nat (length loop)) iter_cap).
    nia. }
  unfold capn. nia.
Qed.

End TractScores.

Lemma np_sum_cons (a : Qc) (l : list Qc) : np_sum (a :: l) = (a + np_sum l)%Qc.
Proof. done. Qed.

Lemma np_mul_same_length (a b : list Qc) :
  length a = length b → np_mul a b = Ret (zip_with Qcmult a b).
Proof. intros H. unfold np_mul. by rewrite H, Nat.eqb_refl. Qed.

Lemma dict_of_zip_notin (ks : list Z) (vs : list Qc) (m : gmap Z Qc) (k : Z) :
  k ∉ ks → foldl (λ m ia, <[ia.1 := ia.2]> m) m (zip ks vs) !! k = m !! k.
Proof.
  revert vs m. induction ks as [|k0 ks IH]; intros vs m Hk; [done|].
  destruct vs as [|v vs]; [done|]. simpl.
  apply not_elem_of_cons in Hk as [Hne Hk].
  rewrite IH by done. by rewrite lookup_insert_ne.
Qed.

Lemma dict_of_zip_lookup (ks : list Z) (vs : list Qc) (i : nat) (k : Z) (v : Qc) :
  NoDup ks → ks !! i = Some k → vs !! i = Some v →
  dict_of_zip ks vs !! k = Some v.
Proof.
  unfold dict_of_zip. generalize (∅ : gmap Z Qc).
  revert vs i. induction ks as [|k0 ks IH]; intros vs i m Hnd Hk Hv; [done|].
  destruct vs as [|v0 vs]; [done|].
  inversion Hnd as [|? ? Hk0 Hnd']; subst.
  destruct i as [|i]; simpl in *.
  - injection Hk as ->. injection Hv as ->.
    rewrite dict_of_zip_notin by done. by rewrite lookup_insert_eq.
  - by eapply IH.
Qed.

Section TractScoresSpec.

Context {T : Type} (O : Oracles) (Gig : igraph) (weight : string).
Context (func : cost → Qc) (vals : list Qc) (nig_targets : list nat).
Context (k : Z).

Lemma tract_score_rows (src : list nat) (acc : Qc) :
  length vals = length nig_targets →
  foldM_outcome
    (λ total ds, new ← np_mul vals (func <$> ds); Ret (total + np_sum new)%Qc)
    (shortest_paths_dijkstra O Gig src nig_targets weight) acc =
  Ret (acc + np_sum ((λ s, weighted_row_sum func vals
                             (distance O Gig weight s <$> nig_targets))
                     <$> src))%Qc.
Proof.
  intros Hlen. revert acc. induction src as [|s src IH]; intros acc.
  - simpl. by rewrite Qcplus_0_r.
  - unfold shortest_paths_dijkstra in *. rewrite !fmap_cons.
    cbn [foldM_outcome]. rewrite np_mul_same_length
      by (by rewrite !length_fmap).
    cbn [mbind outcome_bind]. rewrite IH. f_equal.
    rewrite np_sum_cons. unfold weighted_row_sum. ring.
Qed.

Lemma tract_score_at_spec (ig_nodes : list nat) (i : nat) :
  length vals = length nig_targets →
  tract_score_at O Gig weight func vals nig_targets k ig_nodes i =
  Ret (spec_tract_score O Gig weight func vals nig_targets k ig_nodes i).
Proof.
  intros Hlen. unfold tract_score_at, tract_score, spec_tract_score.
  rewrite tract_score_rows by done. cbn [mbind outcome_bind].
  by rewrite Qcplus_0_l.
Qed.

Lemma tract_scores_spec (iter_cap : Z) (loop : list T) (ig_nodes : list nat) :
  0 < k → 0 < iter_cap →
  Z.of_nat (length ig_nodes) = k * Z.of_nat (length loop) →
  length vals = length nig_targets →
  tract_scores O Gig weight func vals nig_targets k iter_cap loop ig_nodes =
  Ret (spec_tract_score O Gig weight func vals nig_targets k ig_nodes
         <$> seq 0 (length loop)).
Proof.
  intros Hk Hcap Hlen Hvals. rewrite tract_scores_unfold by done.
  rewrite <-mapM_outcome_pure. apply mapM_outcome_ext. intros i _.
  by apply tract_score_at_spec.
Qed.

End TractScoresSpec.

Lemma lookup_all_length {K V} `{Countable K} (m : gmap K V) ks vs :
  lookup_all m ks = Ret vs → length vs = length ks.
Proof. apply mapM_outcome_length. Qed.

Lemma tract_targets_length g name tv :
  tract_targets g name = Ret tv → length tv.2 = length tv.1.
Proof.
  unfold tract_targets.
  destruct (positive_targets g name) as [targets| |]; [|done..].
  cbn [mbind outcome_bind].
  destruct (lookup_all _ _) as [nig| |] eqn:Hnig; [|done..].
  cbn [mbind outcome_bind]. intros [= <-]. cbn [fst snd].
  apply lookup_all_length in Hnig. by rewrite !length_fmap in *.
Qed.

(** C2. Once the samples are there, the score [calc_tract_accessibility]
    returns for a tract is the average over the tract's [k] samples of the
    decay function applied elementwise to the sample's row of shortest-path
    costs, multiplied by the destination weights and summed. In particular
    a tract whose one sample sits on the one POI node gets, under the hard
    cutoff with [t=0], that POI's weight. *)
Theorem tract_score_is_average (O : Oracles) (g : graph) (tracts : list tract)
    (weight : string) (func : cost → Qc) (k : Z) (name : string)
    (iter_cap : Z) (X Y : list Qc) (tv : list nat * list Qc)
    (ig_nodes : list nat) :
  0 < k → 0 < iter_cap →
  tract_targets g name = Ret tv →
  lookup_all (node_dict (get_full_igraph g)) (get_nearest_nodes O g X Y)
    = Ret ig_nodes →
  Z.of_nat (length ig_nodes) = k * Z.of_nat (length tracts) →
  NoDup (t_index <$> tracts) →
  (∃ scores,
     tract_accessibility_of_samples O g tracts weight func k tv iter_cap X Y
       = Ret scores ∧
     ∀ i t, tracts !! i = Some t →
       scores !! t_index t =
       Some (spec_tract_score O (get_full_igraph g) weight func tv.2 tv.1 k
               ig_nodes i)) ∧
  (∀ (t : tract) (s : nat) (wt : Qc),
     distance O (get_full_igraph g) weight s s = Fin 0%Qc →
     tract_scores O (get_full_igraph g) weight (acc_comulative 0) [wt] [s] 1
       iter_cap [t] [s] = Ret [wt]).
Proof.
  intros Hk Hcap Htargets Hig Hlen Hnd. split.
  - unfold tract_accessibility_of_samples.
    rewrite Hig. cbn [mbind outcome_bind].
    rewrite tract_scores_spec; [|done..|by eapply tract_targets_length].
    cbn [mbind outcome_bind]. eexists. split; [done|].
    intros i t Hi. eapply (dict_of_zip_lookup _ _ i); [done|..].
    + by rewrite list_lookup_fmap, Hi.
    + rewrite list_lookup_fmap, lookup_seq_lt; [done|].
      by apply lookup_lt_Some in Hi.
  - intros t s wt Hd. rewrite tract_scores_spec; [|lia|done|done|done].
    f_equal. cbn [length seq fmap list_fmap]. f_equal.
    unfold spec_tract_score, weighted_row_sum.
    replace (take (Z.to_nat 1) (drop (0 * Z.to_nat 1) [s])) with [s] by done.
    rewrite !list_fmap_singleton, Hd. unfold acc_comulative, cost_le.
    rewrite bool_decide_eq_true_2 by done.
    cbn [zip_with np_sum foldr]. rewrite Z2Qc_inj_1.
    rewrite Qcmult_1_r, !Qcplus_0_r. apply (right_id 1%Qc Qcdiv).
Qed.

Lemma tract_score_is_average_witness :
  (∃ scores,
     tract_accessibility_of_samples bf_oracles ex_graph_poi ex_tracts "length"
       (acc_comulative (Qc_of_Z 12)) 2 ex_targets 1 ex_X ex_Y = Ret scores ∧
     ∀ i t, ex_tracts !! i = Some t →
       scores !! t_index t =
       Some (spec_tract_score bf_oracles (get_full_igraph ex_graph_poi)
               "length" (acc_comulative (Qc_of_Z 12)) ex_targets.2
               ex_targets.1 2 ex_ig_nodes i)) ∧
  (∀ (t : tract) (s : nat) (wt : Qc),
     distance bf_oracles (get_full_igraph ex_graph_poi) "length" s s
       = Fin 0%Qc →
     tract_scores bf_oracles (get_full_igraph ex_graph_poi) "length"
       (acc_comulative 0) [wt] [s] 1 1 [t] [s] = Ret [wt]).
Proof.
  apply (tract_score_is_average bf_oracles ex_graph_poi ex_tracts "length"
           (acc_comulative (Qc_of_Z 12)) 2 "cap" 1 ex_X ex_Y
           ex_targets ex_ig_nodes).
  - lia.
  - lia.
  - vm_compute. reflexivity.
  - vm_compute. reflexivity.
  - vm_compute. reflexivity.
  - by_compute.
Defined.

(** The scores on the example network: tract 7, both samples on node 1, 15 away
    from the POI and beyond the cutoff 12, scores 0; tract 8, samples on
    nodes 2 and 3, scores (4 + 4) / 2 = 4. *)
Example tract_score_example :
  (m ← tract_accessibility_of_samples bf_oracles ex_graph_poi ex_tracts
         "length" (acc_comulative (Qc_of_Z 12)) 2 ex_targets 1 ex_X ex_Y;
   Ret (m !! 7, m !! 8)) = Ret (Some (Qc_of_Z 0), Some (Qc_of_Z 4)).
Proof. by_compute. Qed.

Section WholeAggregator.

Context (R : Rng) (O : Oracles).

(** With no tract there is nothing to sample, and the batch cap does not
    matter; with at least one the sampling call raises under either cap. *)
Lemma calc_tract_accessibility_caps fuel tracts pois (G : loc) weight func
    (k : Z) seed pwc (cap1 cap2 : Z) (w : world R) :
  0 < cap1 → 0 < cap2 →
  (∀ g, get_nearest_nodes O g [] [] = []) →
  calc_tract_accessibility R O fuel tracts pois G weight func k seed pwc cap1 w
  = calc_tract_accessibility R O fuel tracts pois G weight func k seed pwc cap2 w.
Proof.
  intros H1 H2 Hres. unfold calc_tract_accessibility.
  destruct (Z.ltb_spec 0 k) as [Hk|]; [|done]. cbn [negb].
  destruct (heap w !! G) as [g|]; [|done].
  destruct (poi_attrs O g pois pwc) as [attrs| |]; [|done..].
  destruct (tract_targets _ _) as [tv| |]; [|done..].
  destruct tracts as [|t rest]; [|done].
  cbn [sample_tracts]. f_equal. unfold tract_accessibility_of_samples.
  rewrite Hres. cbn [lookup_all mapM_outcome mbind outcome_bind].
  by rewrite !tract_scores_unfold by (cbn [length]; lia).
Qed.

End WholeAggregator.

(** C4. [calc_tract_accessibility] maps the tracts to the same scores under
    any two batch caps. With the samples fixed, the path that cuts the
    sources into sections of [iter_cap] tracts and the path that computes
    one distance matrix score every tract on the same [k] rows; and a whole
    call ends the same way under either cap. *)
Theorem batching_invariance (R : Rng) (O : Oracles) (g : graph)
    (tracts : list tract) (weight : string) (func : cost → Qc) (k : Z)
    (tv : list nat * list Qc) (cap1 cap2 : Z) (X Y : list Qc) :
  0 < k → 0 < cap1 → 0 < cap2 →
  Z.of_nat (length (get_nearest_nodes O g X Y))
    = k * Z.of_nat (length tracts) →
  (∀ g', get_nearest_nodes O g' [] [] = []) →
  tract_accessibility_of_samples O g tracts weight func k tv cap1 X Y =
  tract_accessibility_of_samples O g tracts weight func k tv cap2 X Y ∧
  (∀ fuel pois G seed pwc (w : world R),
     calc_tract_accessibility R O fuel tracts pois G weight func k seed pwc
       cap1 w
     = calc_tract_accessibility R O fuel tracts pois G weight func k seed pwc
         cap2 w).
Proof.
  intros Hk H1 H2 Hlen Hres. split.
  - unfold tract_accessibility_of_samples.
    destruct (lookup_all _ (get_nearest_nodes O g X Y)) as [ig_nodes| |] eqn:Hig;
      [|done..].
    cbn [mbind outcome_bind].
    apply lookup_all_length in Hig.
    by rewrite !tract_scores_unfold by lia.
  - intros. by apply calc_tract_accessibility_caps.
Qed.

Lemma batching_invariance_witness :
  tract_accessibility_of_samples bf_oracles ex_graph_poi ex_tracts "length"
    (acc_comulative (Qc_of_Z 12)) 2 ex_targets 1 ex_X ex_Y =
  tract_accessibility_of_samples bf_oracles ex_graph_poi ex_tracts "length"
    (acc_comulative (Qc_of_Z 12)) 2 ex_targets 1000 ex_X ex_Y ∧
  (∀ fuel pois G seed pwc (w : world lcg),
     calc_tract_accessibility lcg bf_oracles fuel ex_tracts pois G "length"
       (acc_comulative (Qc_of_Z 12)) 2 seed pwc 1 w
     = calc_tract_accessibility lcg bf_oracles fuel ex_tracts pois G "length"
         (acc_comulative (Qc_of_Z 12)) 2 seed pwc 1000 w).
Proof.
  apply batching_invariance.
  - lia.
  - lia.
  - lia.
  - vm_compute. reflexivity.
  - intros g'. reflexivity.
Defined.

(** The cap is meant positive: with [iter_cap = 0] line 201 divides by
    zero, and a negative cap makes the ranges of lines 201-202 empty, so no
    tract is scored. *)
Example batching_needs_positive_cap :
  tract_accessibility_of_samples bf_oracles ex_graph_poi ex_tracts "length"
    (acc_comulative (Qc_of_Z 12)) 2 ex_targets 0 ex_X ex_Y
    = Raise ZeroDivisionError ∧
  tract_accessibility_of_samples bf_oracles ex_graph_poi ex_tracts "length"
    (acc_comulative (Qc_of_Z 12)) 2 ex_targets (-1) ex_X ex_Y = Ret ∅.
Proof. split; by_compute. Qed.

(** ** The two public operations *)

Section Operations.

Context (R : Rng) (O : Oracles).

Lemma sampler_rejects_count_first fuel (k : Z) poly seed r :
  (random_points_in_polygon R fuel (PyInt k) (PyPolygon poly) seed r).1
  = Raise AttributeError.
Proof. done. Qed.

(** C1. Both loops over the tracts call
    [random_points_in_polygon(k, poly, seed=random_seed)] while the function
    is [random_points_in_polygon(polygon, n_pts, seed)]: the count is taken
    for the polygon, [polygon.bounds] raises, and with at least one tract
    neither operation draws a sample, resolves a node or returns. *)
Theorem sampling_call_raises (fuel : nat) (t : tract) (rest : list tract)
    (pois : list poi) (G : loc) (weight : string) (func : cost → Qc) (k : Z)
    (seed : option Z) (pwc twc : option string) (iter_cap : Z) (norm : bool)
    (w : world R) (X Y : list Qc) (pops : list (option Qc)) :
  (sample_tracts R fuel (t :: rest) k seed X Y (rng w)).1
    = Raise AttributeError ∧
  (sample_tracts_pops R fuel (t :: rest) k seed twc X Y pops (rng w)).1
    = Raise AttributeError ∧
  (∀ scores,
     (calc_tract_accessibility R O fuel (t :: rest) pois G weight func k
        seed pwc iter_cap w).1 ≠ Ret scores) ∧
  (∀ G',
     (calc_accessibility_load R O fuel (t :: rest) pois G weight func k
        seed pwc twc norm w).1 ≠ Ret G').
Proof.
  split; [done|]. split; [done|]. split.
  - intros scores. unfold calc_tract_accessibility.
    destruct (negb (0 <? k)); [done|].
    destruct (heap w !! G); [|done].
    destruct (poi_attrs O g pois pwc); [|done..].
    by destruct (tract_targets _ _).
  - intros G'. unfold calc_accessibility_load.
    destruct (negb (0 <? k)); [done|].
    destruct (graph_copy R G w) as [[G0| |] w0]; [|done..].
    destruct (heap w0 !! G0); [|done].
    destruct (prepare_load_graph O g pois pwc); [|done..].
    by destruct twc.
Qed.

(** What [calc_tract_accessibility] leaves at the caller's reference once
    line 165 is reached: the graph with the POI weights written on its
    nodes, whatever happens afterwards. *)
Lemma calc_tract_accessibility_heap fuel tracts pois (G : loc) weight func
    (k : Z) seed pwc iter_cap (w : world R) g attrs :
  0 < k → heap w !! G = Some g → poi_attrs O g pois pwc = Ret attrs →
  heap (calc_tract_accessibility R O fuel tracts pois G weight func k seed pwc
          iter_cap w).2 !! G
  = Some (set_node_attributes g attrs (weight_column_name pwc)).
Proof.
  intros Hk Hg Hattrs. unfold calc_tract_accessibility.
  destruct (Z.ltb_spec 0 k); [|lia]. cbn [negb]. rewrite Hg, Hattrs.
  destruct (tract_targets _ _) as [tv| |];
    [|cbn [snd heap set_rng set_heap]; by rewrite lookup_insert_eq..].
  destruct (sample_tracts _ _ _ _ _ _ _ _) as [[[X Y]| |] r];
    cbn [snd heap set_rng set_heap]; by rewrite lookup_insert_eq.
Qed.

(** [calc_accessibility_load] works on [G.copy()]: whatever it returns or
    raises, the graph at the caller's reference is the one that was there. *)
Lemma calc_accessibility_load_keeps_graph fuel tracts pois (G : loc) weight
    func (k : Z) seed pwc twc norm (w : world R) :
  heap (calc_accessibility_load R O fuel tracts pois G weight func k seed pwc
          twc norm w).2 !! G
  = heap w !! G.
Proof.
  unfold calc_accessibility_load. destruct (negb (0 <? k)); [done|].
  unfold graph_copy. destruct (heap w !! G) as [g|] eqn:Hg; [|done].
  cbn [heap set_heap]. rewrite lookup_insert_eq.
  assert (Hfresh : fresh (dom (heap w)) ≠ G).
  { intros Heq. apply (is_fresh (dom (heap w))). rewrite Heq.
    apply elem_of_dom. by eexists. }
  destruct (prepare_load_graph O g pois pwc) as [g1| |];
    cbn [snd heap set_heap]; [|by rewrite lookup_insert_ne..].
  destruct (sample_tracts_pops _ _ _ _ _ _ _ _ _ _) as [[[[X Y] pops]| |] r];
    cbn [snd heap set_rng set_heap];
    [|by rewrite !lookup_insert_ne..].
  destruct (accessibility_load_of_samples _ _ _ _ _ _ _ _ _ _) as [st| |];
    cbn [snd heap set_rng set_heap]; by rewrite !lookup_insert_ne.
Qed.

End Operations.

(** C1 at a concrete call: two tracts, two samples each. *)
Example calc_tract_accessibility_example :
  (calc_tract_accessibility lcg bf_oracles 5 ex_tracts ex_pois 0%nat "length"
     (acc_comulative (Qc_of_Z 12)) 2 (Some 1) (Some "cap"%string) 1000
     ex_world).1 = Raise AttributeError.
Proof. vm_compute. reflexivity. Qed.

Example calc_accessibility_load_example :
  (calc_accessibility_load lcg bf_oracles 5 ex_tracts ex_pois 0%nat "length"
     (acc_comulative (Qc_of_Z 12)) 2 (Some 1) (Some "cap"%string) None false
     ex_world).1 = Raise AttributeError.
Proof. vm_compute. reflexivity. Qed.

(** C5. [calc_tract_accessibility] writes on the caller's graph: after the
    call the graph at the caller's reference carries the POI weights as a
    node attribute (4 on node 3) that was not there before, although the
    call itself raises. *)
Theorem aggregator_writes_caller_graph :
  let w' := (calc_tract_accessibility lcg bf_oracles 5 ex_tracts ex_pois 0%nat
               "length" (acc_comulative (Qc_of_Z 12)) 2 (Some 1)
               (Some "cap"%string) 1000 ex_world).2 in
  heap ex_world !! 0%nat = Some ex_graph ∧
  g_node_attrs ex_graph !! (3, "cap"%string) = None ∧
  heap w' !! 0%nat = Some ex_graph_poi ∧
  g_node_attrs ex_graph_poi !! (3, "cap"%string) = Some (Qc_of_Z 4) ∧
  heap w' !! 0%nat ≠ heap ex_world !! 0%nat.
Proof.
  assert (H3 : g_node_attrs ex_graph_poi !! (3, "cap"%string)
               = Some (Qc_of_Z 4)).
  { by_compute. }
  assert (H0 : g_node_attrs ex_graph !! (3, "cap"%string) = None)
    by (vm_compute; reflexivity).
  assert (Hw : heap (calc_tract_accessibility lcg bf_oracles 5 ex_tracts
                       ex_pois 0%nat "length" (acc_comulative (Qc_of_Z 12)) 2
                       (Some 1) (Some "cap"%string) 1000 ex_world).2 !! 0%nat
               = Some ex_graph_poi)
    by (vm_compute; reflexivity).
  cbv zeta. split; [done|]. split; [done|]. split; [done|]. split; [done|].
  rewrite Hw. change (heap ex_world !! 0%nat) with (Some ex_graph).
  intros Heq. assert (E : ex_graph_poi = ex_graph) by congruence.
  rewrite E in H3. congruence.
Qed.

(** ** Edge-load accumulator: skipped and unreachable *)

Lemma foldM_outcome_app {A S} (f : S → A → outcome S) (l1 l2 : list A) (s : S) :
  foldM_outcome f (l1 ++ l2) s = (s' ← foldM_outcome f l1 s; foldM_outcome f l2 s').
Proof.
  revert s. induction l1 as [|a l1 IH]; intros s; [done|].
  cbn [foldM_outcome app]. destruct (f s a); simpl; [|done..]. apply IH.
Qed.

(** C10. A sample whose weight is not-a-number or zero is passed over
    without an error: the step returns the state it was given, so no load
    is added and [get_shortest_paths] is not asked for that source; the
    loop over all samples is the loop over the samples without it. *)
Theorem skipped_sample_adds_nothing (O : Oracles) (Gig : igraph)
    (weight : string) (func : cost → Qc) (name : string) (norm : bool)
    (tot : Qc) (source : nat) (pop : option Qc) :
  pop = None ∨ pop = Some 0%Qc →
  (∀ st, load_step O Gig weight func name norm tot st (source, pop) = Ret st) ∧
  (∀ before after st,
     foldM_outcome (load_step O Gig weight func name norm tot)
       (before ++ (source, pop) :: after) st =
     foldM_outcome (load_step O Gig weight func name norm tot)
       (before ++ after) st).
Proof.
  intros Hpop.
  assert (Hstep : ∀ st,
    load_step O Gig weight func name norm tot st (source, pop) = Ret st).
  { intros st. unfold load_step. destruct Hpop as [->| ->]; [done|].
    by rewrite bool_decide_eq_true_2. }
  split; [done|]. intros before after st.
  rewrite !foldM_outcome_app.
  destruct (foldM_outcome _ before st) as [st'| |];
    cbn [mbind outcome_bind foldM_outcome]; [|done..].
  by rewrite Hstep.
Qed.

Lemma skipped_sample_adds_nothing_witness :
  (∀ st, load_step bf_oracles (get_full_igraph ex_load_graph) "length"
           (acc_comulative (Qc_of_Z 30)) "cap" false 1%Qc st (1%nat, None)
         = Ret st) ∧
  (∀ before after st,
     foldM_outcome
       (load_step bf_oracles (get_full_igraph ex_load_graph) "length"
          (acc_comulative (Qc_of_Z 30)) "cap" false 1%Qc)
       (before ++ (1%nat, None) :: after) st =
     foldM_outcome
       (load_step bf_oracles (get_full_igraph ex_load_graph) "length"
          (acc_comulative (Qc_of_Z 30)) "cap" false 1%Qc)
       (before ++ after) st).
Proof.
  apply (skipped_sample_adds_nothing bf_oracles (get_full_igraph ex_load_graph)
           "length" (acc_comulative (Qc_of_Z 30)) "cap" false 1%Qc 1%nat None).
  left. reflexivity.
Defined.

(** The skipped samples leave no trace in a whole run either: of three
    samples with weights 1, not-a-number and 0 only the first is routed. *)
Example skipped_samples_example :
  ls_queries <$> (match run_load ex_load_graph "time"
                          (acc_comulative (Qc_of_Z 30)) true
                          [0%nat; 1%nat; 2%nat]
                          [Some 1%Qc; None; Some 0%Qc] with
                  | Ret st => Some st
                  | _ => None
                  end) = Some [0%nat].
Proof. vm_compute. reflexivity. Qed.

Lemma weighted_row_sum_cons func v vals d ds :
  weighted_row_sum func (v :: vals) (d :: ds)
  = (v * func d + weighted_row_sum func vals ds)%Qc.
Proof. done. Qed.

Lemma weighted_row_sum_skip func (v : Qc) (v1 v2 : list Qc) (d1 d2 : list cost) :
  func Inf = 0%Qc → length v1 = length d1 →
  weighted_row_sum func (v1 ++ v :: v2) (d1 ++ Inf :: d2)
  = weighted_row_sum func (v1 ++ v2) (d1 ++ d2).
Proof.
  intros Hf. revert d1. induction v1 as [|x v1 IH]; intros [|d d1] Hlen;
    try done.
  - cbn [app]. rewrite weighted_row_sum_cons, Hf. ring.
  - cbn [app]. rewrite !weighted_row_sum_cons, IH; [done|]. by injection Hlen.
Qed.

Lemma update_edges_skip_empty (G : graph) (name : string)
    (l1 l2 : list (list attr * Qc)) (w : Qc) :
  foldM_outcome
    (λ G sw, foldM_outcome (λ G e, update_edge name G e sw.2) sw.1 G)
    (l1 ++ ([], w) :: l2) G =
  foldM_outcome
    (λ G sw, foldM_outcome (λ G e, update_edge name G e sw.2) sw.1 G)
    (l1 ++ l2) G.
Proof.
  rewrite !foldM_outcome_app.
  by destruct (foldM_outcome _ l1 G).
Qed.

(** C9, as the code has it. In the aggregator a target out of reach has
    infinite cost, the hard cutoff maps it to 0 and, under any decay
    function that does so, it adds nothing to the weighted row sum. In the
    edge-load accumulator a node out of reach has an empty edge sequence,
    for which [_get_edges] reports the cost 0, not an infinite one; the
    value computed for it may be non-zero, but [_update_edges] adds it to
    no edge. Neither raises for such a node. *)
Theorem unreachable_adds_nothing (func : cost → Qc) :
  func Inf = 0%Qc →
  (∀ t, acc_comulative t Inf = 0%Qc) ∧
  (∀ (v : Qc) v1 v2 d1 d2, length v1 = length d1 →
     weighted_row_sum func (v1 ++ v :: v2) (d1 ++ Inf :: d2)
     = weighted_row_sum func (v1 ++ v2) (d1 ++ d2)) ∧
  (∀ Gig rest r, _get_edges rest Gig = Ret r →
     _get_edges ([] :: rest) Gig = Ret ([] :: r.1, 0%Qc :: r.2)) ∧
  (∀ G name seqs1 seqs2 ws1 ws2 w, length seqs1 = length ws1 →
     _update_edges G (seqs1 ++ [] :: seqs2) name (Some (ws1 ++ w :: ws2))
     = _update_edges G (seqs1 ++ seqs2) name (Some (ws1 ++ ws2))).
Proof.
  intros Hf. split; [done|]. split; [|split].
  - intros. by apply weighted_row_sum_skip.
  - intros Gig rest r Hr. cbn [_get_edges length Nat.ltb Nat.leb].
    cbn [mbind outcome_bind]. rewrite Hr. done.
  - intros G name seqs1 seqs2 ws1 ws2 w Hlen. unfold _update_edges.
    simpl default.
    rewrite (zip_with_app pair seqs1 ([] :: seqs2) ws1 (w :: ws2) Hlen).
    rewrite (zip_with_app pair seqs1 seqs2 ws1 ws2 Hlen).
    apply update_edges_skip_empty.
Qed.

Lemma unreachable_adds_nothing_witness :
  (∀ t, acc_comulative t Inf = 0%Qc) ∧
  (∀ (v : Qc) v1 v2 d1 d2, length v1 = length d1 →
     weighted_row_sum (acc_comulative (Qc_of_Z 30)) (v1 ++ v :: v2)
       (d1 ++ Inf :: d2)
     = weighted_row_sum (acc_comulative (Qc_of_Z 30)) (v1 ++ v2) (d1 ++ d2)) ∧
  (∀ Gig rest r, _get_edges rest Gig = Ret r →
     _get_edges ([] :: rest) Gig = Ret ([] :: r.1, 0%Qc :: r.2)) ∧
  (∀ G name seqs1 seqs2 ws1 ws2 w, length seqs1 = length ws1 →
     _update_edges G (seqs1 ++ [] :: seqs2) name (Some (ws1 ++ w :: ws2))
     = _update_edges G (seqs1 ++ seqs2) name (Some (ws1 ++ ws2))).
Proof.
  apply (unreachable_adds_nothing (acc_comulative (Qc_of_Z 30))).
  reflexivity.
Defined.

(** C9 as stated fails in the edge-load accumulator: node 1 cannot be
    reached from node 3, yet the cost handed to the decay function for it
    is 0 and the value computed for it is the POI weight 5, not 0. *)
Lemma unreachable_cost_is_zero_in_load :
  distance bf_oracles (get_full_igraph ex_load_graph_back) "length" 2 0 = Inf ∧
  (_get_edges
     (get_shortest_paths bf_oracles (get_full_igraph ex_load_graph_back)
        2 "length")
     (get_full_igraph ex_load_graph_back)
   ≫= λ es, Ret (es.2 !! 0%nat)) = Ret (Some 0%Qc) ∧
  (sample_contributions bf_oracles (get_full_igraph ex_load_graph_back)
     "length" (acc_comulative (Qc_of_Z 30)) "cap" false 1%Qc
     ex_load_graph_back 2 1%Qc
   ≫= λ c, Ret (c.2 !! 0%nat)) ≠ Ret (Some 0%Qc).
Proof.
  split; [by vm_compute|]. split.
  - vm_compute. reflexivity.
  - vm_compute. intros [= H].
Qed.

(** ** Edge-load accumulator: the cost behind a contribution *)

(** C6 at a concrete call. One sample of weight 1 sits on node 1, the POI of
    capacity 4 on node 3, routing is by [time] and the decay function is
    the hard cutoff at 3. The shortest way from 1 to 3 by [time] runs over
    the edges 1->2 and 2->3 and costs 2, within the cutoff, so the
    specification puts 1 * 4 * 1 = 4 on both edges. [_get_edges] adds up
    the [length] of that way instead, 20, beyond the cutoff: the value for
    node 3 is 0 and no edge receives any load. *)
Theorem load_cost_is_length_whatever_the_weight :
  let Gig := get_full_igraph ex_load_graph in
  let func := acc_comulative (Qc_of_Z 3) in
  distance bf_oracles Gig "time" 0 2 = Fin (Qc_of_Z 2) ∧
  func (Fin (Qc_of_Z 2)) = 1%Qc ∧
  get_shortest_paths bf_oracles Gig 0 "time" !! 2%nat = Some [0%nat; 1%nat] ∧
  (_get_edges (get_shortest_paths bf_oracles Gig 0 "time") Gig
   ≫= λ es, Ret (es.1 !! 2%nat, es.2 !! 2%nat))
    = Ret (Some [AEdge e12; AEdge e23], Some (Qc_of_Z 20)) ∧
  (sample_contributions bf_oracles Gig "time" func "cap" false 1%Qc
     ex_load_graph 0 1%Qc ≫= λ c, Ret (c.2 !! 2%nat)) = Ret (Some 0%Qc) ∧
  loads_of (run_load ex_load_graph "time" func false [0%nat] [Some 1%Qc])
    = [0%Qc; 0%Qc; 0%Qc].
Proof.
  cbv zeta. repeat split; by_compute.
Qed.

(** What the code does put on a way: the decay function of the summed
    [length] of its edges, whatever attribute the routing used. *)
Lemma get_edges_ignores_weight (O : Oracles) (Gig : igraph) (w1 w2 : string)
    (source : nat) :
  get_shortest_paths O Gig source w1 = get_shortest_paths O Gig source w2 →
  _get_edges (get_shortest_paths O Gig source w1) Gig
  = _get_edges (get_shortest_paths O Gig source w2) Gig.
Proof. by intros ->. Qed.

(** ** Edge-load accumulator: conservation of load *)

Lemma lookup_set_all (name : string) (f : edge → attr) (l : list edge)
    (m : gmap (edge * string) attr) (e : edge) (n : string) :
  foldl (λ m e, <[(e, name) := f e]> m) m l !! (e, n)
  = if bool_decide (e ∈ l ∧ n = name) then Some (f e) else m !! (e, n).
Proof.
  revert m. induction l as [|x l IH]; intros m.
  - cbn [foldl]. rewrite bool_decide_eq_false_2; [done|].
    intros [H _]. by apply not_elem_of_nil in H.
  - cbn [foldl]. rewrite IH. destruct (decide (e ∈ l ∧ n = name)) as [[Hl Hn]|Hno].
    + rewrite !bool_decide_eq_true_2; [done|..]; split; try done. by right.
    + rewrite (bool_decide_eq_false_2 _ Hno).
      destruct (decide (e = x ∧ n = name)) as [[-> ->]|Hne].
      * rewrite lookup_insert_eq. rewrite bool_decide_eq_true_2; [done|].
        split; [left|done].
      * rewrite lookup_insert_ne by naive_solver.
        rewrite bool_decide_eq_false_2; [done|].
        intros [[->|Hin]%elem_of_cons ->]; naive_solver.
Qed.

Lemma np_sum_zero {A} (f : A → Qc) (l : list A) :
  (∀ a, a ∈ l → f a = 0%Qc) → np_sum (f <$> l) = 0%Qc.
Proof.
  induction l as [|a l IH]; intros H; [done|].
  rewrite fmap_cons, np_sum_cons, (H a), IH; [ring| |left].
  intros b Hb. apply H. by right.
Qed.

Lemma np_sum_app (l1 l2 : list Qc) :
  np_sum (l1 ++ l2) = (np_sum l1 + np_sum l2)%Qc.
Proof.
  induction l1 as [|a l1 IH]; cbn [app]; [by rewrite Qcplus_0_l|].
  rewrite !np_sum_cons, IH. ring.
Qed.

Lemma prepare_load_graph_tagged (O : Oracles) g pois pwc g1 :
  prepare_load_graph O g pois pwc = Ret g1 →
  g_edges g1 = g_edges g ∧ tagged g1 ∧ total_load g1 = 0%Qc.
Proof.
  unfold prepare_load_graph.
  destruct (poi_attrs O _ pois pwc) as [attrs| |]; [|done..].
  intros [= <-]. cbn [mbind outcome_bind g_edges g_nodes set_node_attributes
    set_all_edges]. split; [done|]. split.
  - intros e He. cbn [g_edge_attrs set_node_attributes set_all_edges g_edges] in *.
    rewrite !lookup_set_all. split.
    + rewrite bool_decide_eq_false_2 by (intros [_ [=]]).
      by rewrite bool_decide_eq_true_2.
    + exists 0%Qc. by rewrite bool_decide_eq_true_2.
  - unfold total_load. apply np_sum_zero. intros e He. unfold edge_load.
    cbn [g_edge_attrs set_node_attributes set_all_edges g_edges] in *.
    rewrite !lookup_set_all. by rewrite bool_decide_eq_true_2.
Qed.

(** An edge tag that names an edge of the list [E]. *)
Local Abbreviation valid E := (λ a : attr, ∃ e : edge, a = AEdge e ∧ e ∈ E).

(** [G'] differs from [G] in loads only and is still tagged. *)
Local Abbreviation frame G G' :=
  (g_edges G' = g_edges G ∧ g_nodes G' = g_nodes G ∧
   g_node_attrs G' = g_node_attrs G ∧ tagged G').

Lemma np_sum_bump (f f' : edge → Qc) (l : list edge) (e : edge) (w : Qc) :
  NoDup l → e ∈ l →
  (∀ e', f' e' = if decide (e' = e) then (f e' + w)%Qc else f e') →
  np_sum (f' <$> l) = (np_sum (f <$> l) + w)%Qc.
Proof.
  intros Hnd He Hf. induction l as [|x l IH]; [by apply not_elem_of_nil in He|].
  rewrite !fmap_cons, !np_sum_cons, Hf.
  inversion Hnd as [|? ? Hx Hnd']; subst.
  destruct (decide (x = e)) as [->|Hne].
  - assert (Hrest : f' <$> l = f <$> l).
    { apply list_fmap_ext. intros i y Hy. rewrite Hf.
      destruct (decide (y = e)) as [->|]; [|done].
      exfalso. apply Hx. by eapply list_elem_of_lookup_2. }
    rewrite Hrest. ring.
  - apply elem_of_cons in He as [->|He]; [done|].
    rewrite IH by done. ring.
Qed.

Lemma update_edge_tagged (G : graph) (e : edge) (w : Qc) :
  tagged G → NoDup (g_edges G) → e ∈ g_edges G →
  ∃ G', update_edge "load" G (AEdge e) w = Ret G' ∧ frame G G' ∧
        total_load G' = (total_load G + w)%Qc.
Proof.
  intros Htag Hnd He. destruct (Htag e He) as [Hname [q Hq]].
  unfold update_edge, add_to_edge. rewrite bool_decide_eq_true_2 by done.
  rewrite Hq. eexists. split; [done|]. cbn [g_edges g_nodes g_node_attrs].
  split; [split; [done|split; [done|split; [done|]]]|].
  - intros e0 H0. destruct (Htag e0 H0) as [Hn0 [q0 Hq0]]. cbn [g_edge_attrs].
    split.
    + by rewrite lookup_insert_ne by (intros [=]).
    + destruct (decide (e0 = e)) as [->|Hne].
      * rewrite lookup_insert_eq. by eexists.
      * rewrite lookup_insert_ne by congruence. by eexists.
  - unfold total_load. cbn [g_edges]. apply (np_sum_bump _ _ _ e); [done..|].
    intros e'. unfold edge_load. cbn [g_edge_attrs].
    destruct (decide (e' = e)) as [->|Hne].
    + by rewrite lookup_insert_eq, Hq.
    + by rewrite lookup_insert_ne by congruence.
Qed.

Lemma update_seq_tagged (seq : list attr) (w : Qc) :
  ∀ G, tagged G → NoDup (g_edges G) → Forall (valid (g_edges G)) seq →
  ∃ G', foldM_outcome (λ G e, update_edge "load" G e w) seq G = Ret G' ∧
        frame G G' ∧
        total_load G' = (total_load G + w * Qc_of_Z (Z.of_nat (length seq)))%Qc.
Proof.
  induction seq as [|a seq IH]; intros G Htag Hnd Hval.
  - exists G. cbn [foldM_outcome length]. split; [done|]. split; [done|].
    change (Z.of_nat 0) with 0. rewrite Z2Qc_inj_0. ring.
  - apply Forall_cons_1 in Hval as [(e & -> & He) Hval].
    destruct (update_edge_tagged G e w Htag Hnd He)
      as (G1 & Hup & (HE & HN & HA & Htag1) & Htot1).
    destruct (IH G1 Htag1) as (G2 & Hfold & (HE2 & HN2 & HA2 & Htag2) & Htot2).
    { by rewrite HE. } { by rewrite HE. }
    exists G2. cbn [foldM_outcome]. rewrite Hup. cbn [mbind outcome_bind].
    split; [done|]. split; [split; [congruence|split; [congruence|split; [congruence|done]]]|].
    rewrite Htot2, Htot1. cbn [length].
    rewrite Nat2Z.inj_succ, <-Z.add_1_r, Z2Qc_inj_add, Z2Qc_inj_1. ring.
Qed.

Lemma update_edges_tagged (seqs : list (list attr)) :
  ∀ (ws : list Qc) G, tagged G → NoDup (g_edges G) →
  Forall (Forall (valid (g_edges G))) seqs →
  ∃ G', _update_edges G seqs "load" (Some ws) = Ret G' ∧ frame G G' ∧
        total_load G' = (total_load G + path_mass (seqs, ws))%Qc.
Proof.
  unfold _update_edges, path_mass. cbn [default from_option id fst snd].
  induction seqs as [|seq seqs IH]; intros ws G Htag Hnd Hval.
  - exists G. cbn. split; [done|]. split; [done|]. ring.
  - destruct ws as [|w ws].
    { exists G. cbn. split; [done|]. split; [done|]. ring. }
    apply Forall_cons_1 in Hval as [Hseq Hval].
    destruct (update_seq_tagged seq w G Htag Hnd Hseq)
      as (G1 & Hup & (HE & HN & HA & Htag1) & Htot1).
    destruct (IH ws G1 Htag1) as (G2 & Hfold & (HE2 & HN2 & HA2 & Htag2) & Htot2).
    { by rewrite HE. } { by rewrite HE. }
    exists G2. cbn [zip_with foldM_outcome fst snd]. rewrite Hup.
    cbn [mbind outcome_bind]. split; [done|].
    split; [split; [congruence|split; [congruence|split; [congruence|done]]]|].
    rewrite Htot2, Htot1, np_sum_cons. ring.
Qed.

Lemma es_attr_orig_name (g : graph) (i : nat) (a : attr) :
  tagged g → es_attr (get_full_igraph g) i "orig_name" = Ret a →
  valid (g_edges g) a.
Proof.
  intros Htag. unfold es_attr. cbn [es get_full_igraph es_attrs].
  destruct (g_edges g !! i) as [e|] eqn:Hi; [|done].
  destruct (g_edge_attrs g !! (e, "orig_name"%string)) as [b|] eqn:Hb; [|done].
  intros [= <-]. assert (He : e ∈ g_edges g) by by eapply list_elem_of_lookup_2.
  exists e. split; [|done]. destruct (Htag e He) as [Hn _]. congruence.
Qed.

Lemma mapM_outcome_Forall {A B} (f : A → outcome B) (P : B → Prop) l bs :
  (∀ a b, f a = Ret b → P b) → mapM_outcome f l = Ret bs → Forall P bs.
Proof.
  intros Hf. revert bs. induction l as [|a l IH]; intros bs.
  - intros [= <-]. constructor.
  - cbn [mapM_outcome]. destruct (f a) as [b| |] eqn:Hb; [|done..].
    cbn [mbind outcome_bind].
    destruct (mapM_outcome f l) as [bs'| |]; [|done..].
    cbn [mbind outcome_bind]. intros [= <-]. constructor; eauto.
Qed.

Lemma get_edges_valid (g : graph) (e_seqs : list (list nat)) r :
  tagged g → _get_edges e_seqs (get_full_igraph g) = Ret r →
  Forall (Forall (valid (g_edges g))) r.1.
Proof.
  intros Htag. revert r. induction e_seqs as [|seq rest IH]; intros r.
  - intros [= <-]. constructor.
  - cbn [_get_edges].
    destruct (_get_edges rest _) as [r'| |] eqn:Hrest.
    2,3: by destruct (if (length seq <? 1)%nat then _ else _).
    specialize (IH r' eq_refl).
    destruct (length seq <? 1)%nat.
    + cbn [mbind outcome_bind]. intros [= <-]. cbn [fst]. by constructor.
    + destruct (mapM_outcome (λ i, es_attr _ i "orig_name") seq)
        as [names| |] eqn:Hnames; [|done..]. cbn [mbind outcome_bind].
      destruct (mapM_outcome (λ i, es_attr _ i "length" ≫= _) seq)
        as [lens| |]; [|done..].
      cbn [mbind outcome_bind]. intros [= <-]. cbn [fst].
      constructor; [|done].
      eapply mapM_outcome_Forall; [|exact Hnames].
      intros i a. by apply es_attr_orig_name.
Qed.

Lemma load_step_zero O Gig weight func name norm tot st source (p : Qc) :
  bool_decide (p = 0%Qc) = true →
  load_step O Gig weight func name norm tot st (source, Some p) = Ret st.
Proof. intros Hb. unfold load_step. by rewrite Hb. Qed.

Section LoadLoop.

Context (O : Oracles) (g0 : graph) (weight : string) (func : cost → Qc).
Context (name : string) (norm : bool) (tot : Qc).
Context (Hnd : NoDup (g_edges g0)) (Htag : tagged g0).

Local Abbreviation Gig := (get_full_igraph g0).
Local Abbreviation contributions G :=
  (sample_contributions O Gig weight func name norm tot G).

Lemma sample_contributions_frame G source p :
  frame g0 G → contributions G source p = contributions g0 source p.
Proof.
  intros (HE & HN & HA & _). unfold sample_contributions, node_data.
  by rewrite HN, HA.
Qed.

Lemma sample_contributions_valid source p c :
  contributions g0 source p = Ret c →
  Forall (Forall (valid (g_edges g0))) c.1.
Proof.
  unfold sample_contributions.
  destruct (_get_edges _ _) as [es| |] eqn:Hes; [|done..].
  cbn [mbind outcome_bind].
  destruct (node_data g0 name) as [nd| |]; [|done..]. cbn [mbind outcome_bind].
  destruct (np_mul _ _) as [w| |]; [|done..]. cbn [mbind outcome_bind].
  intros [= <-]. cbn [fst]. by eapply get_edges_valid.
Qed.

Lemma load_step_live st source p c :
  frame g0 (ls_graph st) → p ≠ 0%Qc →
  contributions g0 source p = Ret c →
  ∃ st', load_step O Gig weight func name norm tot st (source, Some p) = Ret st' ∧
         frame g0 (ls_graph st') ∧
         total_load (ls_graph st') = (total_load (ls_graph st) + path_mass c)%Qc.
Proof.
  intros Hfr Hp Hc. pose proof Hfr as (HE & HN & HA & Htag').
  unfold load_step. cbv beta iota. rewrite bool_decide_eq_false_2 by done.
  rewrite sample_contributions_frame by done. rewrite Hc.
  cbn [mbind outcome_bind].
  destruct (update_edges_tagged c.1 c.2 (ls_graph st) Htag')
    as (G' & Hup & (HE' & HN' & HA' & Htag'') & Htot).
  { by rewrite HE. }
  { rewrite HE. by eapply sample_contributions_valid. }
  rewrite Hup. cbn [mbind outcome_bind]. eexists. split; [done|].
  cbn [ls_graph]. split; [split; [congruence|split; [congruence|split; [congruence|done]]]|].
  rewrite Htot. by destruct c.
Qed.

Lemma load_fold_conserves (l : list (nat * option Qc)) :
  ∀ st, frame g0 (ls_graph st) →
  Forall (λ sp : nat * Qc, returns (contributions g0 sp.1 sp.2) = true) (live l) →
  ∃ st', foldM_outcome (load_step O Gig weight func name norm tot) l st = Ret st' ∧
         frame g0 (ls_graph st') ∧
         total_load (ls_graph st')
         = (total_load (ls_graph st)
            + np_sum (sample_mass O Gig weight func name norm tot g0 <$> live l))%Qc.
Proof.
  induction l as [|[source pop] l IH]; intros st Hfr Hret.
  - exists st. cbn. split; [done|]. split; [done|]. ring.
  - cbn [foldM_outcome]. unfold live in Hret |- *.
    destruct pop as [p|]; cbn [omap list_omap snd fst] in Hret |- *.
    2:{ destruct (IH st Hfr Hret) as (st' & Hrun & Hfr' & Htot).
        exists st'. by cbn [load_step mbind outcome_bind]. }
    revert Hret. destruct (bool_decide (p = 0%Qc)) eqn:Hb; intros Hret.
    { destruct (IH st Hfr Hret) as (st' & Hrun & Hfr' & Htot).
      exists st'. rewrite load_step_zero by done.
      by cbn [mbind outcome_bind]. }
    assert (Hp : p ≠ 0%Qc) by by apply bool_decide_eq_false in Hb.
    apply Forall_cons_1 in Hret as [Hc Hret]. cbn [fst snd] in Hc.
    destruct (contributions g0 source p) as [c| |] eqn:Hceq; [|done..].
    destruct (load_step_live st source p c Hfr Hp Hceq)
      as (st1 & Hstep & Hfr1 & Htot1).
    destruct (IH st1 Hfr1 Hret) as (st' & Hrun & Hfr' & Htot).
    exists st'. rewrite Hstep. cbn [mbind outcome_bind]. split; [done|].
    split; [done|]. rewrite Htot, Htot1, fmap_cons, np_sum_cons.
    replace (sample_mass O Gig weight func name norm tot g0 (source, p))
      with (path_mass c) by (unfold sample_mass; cbn [fst snd]; by rewrite Hceq).
    unfold live. ring.
Qed.

End LoadLoop.

Lemma mapM_outcome_returns {A B} (f : A → outcome B) (l : list A) :
  Forall (λ a, ∃ b, f a = Ret b) l →
  ∃ bs, mapM_outcome f l = Ret bs ∧ length bs = length l.
Proof.
  induction 1 as [|a l [b Hb] _ (bs & Hbs & Hlen)].
  - by exists [].
  - exists (b :: bs). cbn [mapM_outcome]. rewrite Hb, Hbs.
    cbn [mbind outcome_bind length]. by rewrite Hlen.
Qed.

Lemma get_edges_returns (g : graph) (e_seqs : list (list nat)) :
  tagged g →
  (∀ e, e ∈ g_edges g →
     ∃ q, g_edge_attrs g !! (e, "length"%string) = Some (ANum q)) →
  Forall (Forall (λ i, (i < length (g_edges g))%nat)) e_seqs →
  ∃ r, _get_edges e_seqs (get_full_igraph g) = Ret r ∧
       length r.2 = length e_seqs.
Proof.
  intros Htag Hlen. induction 1 as [|seq rest Hseq _ (r & Hr & Hl)].
  - by exists ([], []).
  - cbn [_get_edges]. rewrite Hr.
    destruct (length seq <? 1)%nat.
    { eexists. cbn [mbind outcome_bind]. split; [done|].
      cbn [snd length]. by rewrite Hl. }
    destruct (mapM_outcome_returns
                (λ i, es_attr (get_full_igraph g) i "orig_name") seq)
      as (names & Hnames & _).
    { eapply List.Forall_impl; [|exact Hseq]. intros i Hi.
      unfold es_attr. cbn [es es_attrs get_full_igraph].
      destruct (lookup_lt_is_Some_2 _ _ Hi) as [e He]. rewrite He.
      destruct (Htag e) as [Hn _]; [by eapply list_elem_of_lookup_2|].
      rewrite Hn. by eexists. }
    destruct (mapM_outcome_returns
                (λ i, a ← es_attr (get_full_igraph g) i "length"; attr_number a)
                seq) as (lens & Hlens & _).
    { eapply List.Forall_impl; [|exact Hseq]. intros i Hi.
      unfold es_attr. cbn [es es_attrs get_full_igraph].
      destruct (lookup_lt_is_Some_2 _ _ Hi) as [e He]. rewrite He.
      destruct (Hlen e) as [q Hq]; [by eapply list_elem_of_lookup_2|].
      rewrite Hq. by eexists. }
    rewrite Hnames. cbn [mbind outcome_bind]. rewrite Hlens.
    cbn [mbind outcome_bind]. eexists. split; [done|].
    cbn [snd length]. by rewrite Hl.
Qed.

(** The loop body returns for every source for which the oracle keeps its
    contract: one edge sequence per node, made of edge indices of the
    graph. *)
Lemma sample_contributions_returns (O : Oracles) (g : graph) (weight : string)
    (func : cost → Qc) (name : string) (norm : bool) (tot : Qc)
    (source : nat) (p : Qc) :
  tagged g →
  (∀ e, e ∈ g_edges g →
     ∃ q, g_edge_attrs g !! (e, "length"%string) = Some (ANum q)) →
  Forall (λ n, is_Some (g_node_attrs g !! (n, name))) (g_nodes g) →
  length (get_shortest_paths O (get_full_igraph g) source weight)
    = length (g_nodes g) →
  Forall (Forall (λ i, (i < length (g_edges g))%nat))
    (get_shortest_paths O (get_full_igraph g) source weight) →
  returns (sample_contributions O (get_full_igraph g) weight func name norm
             tot g source p) = true.
Proof.
  intros Htag Hlen Hnodes Hcount Hidx. unfold sample_contributions.
  destruct (get_edges_returns g _ Htag Hlen Hidx) as (r & Hr & Hrl).
  rewrite Hr. cbn [mbind outcome_bind].
  destruct (mapM_outcome_returns
              (λ n, match g_node_attrs g !! (n, name) with
                    | Some v => Ret (n, v)
                    | None => Raise KeyError
                    end) (g_nodes g)) as (nd & Hnd & Hndl).
  { eapply List.Forall_impl; [|exact Hnodes]. intros n [v Hv]. rewrite Hv.
    by eexists. }
  unfold node_data. rewrite Hnd. cbn [mbind outcome_bind].
  rewrite np_mul_same_length by (rewrite !length_fmap; congruence).
  done.
Qed.

(** C7. On the prepared copy, whose loads are all 0, the loop over the
    samples returns whenever the oracle's edge sequences can be read off
    the graph, and the loads it leaves add up to the sum, over the samples
    not skipped and over all nodes, of the value computed for the node
    times the number of edges on the way to it. *)
Theorem load_is_conserved (O : Oracles) (g g1 : graph) (pois : list poi)
    (pwc : option string) (weight : string) (func : cost → Qc)
    (name : string) (norm : bool) (tot : Qc) (ig_nodes : list nat)
    (pops : list (option Qc)) :
  NoDup (g_edges g) →
  prepare_load_graph O g pois pwc = Ret g1 →
  Forall (λ sp : nat * Qc,
            returns (sample_contributions O (get_full_igraph g1) weight func
                       name norm tot g1 sp.1 sp.2) = true)
         (live_samples ig_nodes pops) →
  ∃ st,
    load_loop O (get_full_igraph g1) weight func name norm tot ig_nodes pops
      {| ls_graph := g1; ls_queries := [] |} = Ret st ∧
    g_edges (ls_graph st) = g_edges g ∧
    total_load (ls_graph st)
    = np_sum (sample_mass O (get_full_igraph g1) weight func name norm tot g1
              <$> live_samples ig_nodes pops).
Proof.
  intros Hnd Hprep Hret.
  destruct (prepare_load_graph_tagged O g pois pwc g1 Hprep)
    as (HE & Htag & Hzero).
  destruct (load_fold_conserves O g1 weight func name norm tot
              ltac:(by rewrite HE) Htag (zip ig_nodes pops)
              {| ls_graph := g1; ls_queries := [] |})
    as (st & Hrun & (HE' & _) & Htot); [done|done|].
  exists st. split; [done|]. split; [congruence|].
  rewrite Htot. cbn [ls_graph]. rewrite Hzero. unfold live_samples. ring.
Qed.

Lemma load_is_conserved_witness :
  ∃ st,
    load_loop bf_oracles (get_full_igraph ex_load_graph) "time"
      (acc_comulative (Qc_of_Z 30)) "cap" false (Qc_of_Z 4)
      [0%nat; 1%nat] [Some 1%Qc; Some (Qc_of_Z 3)]
      {| ls_graph := ex_load_graph; ls_queries := [] |} = Ret st ∧
    g_edges (ls_graph st) = g_edges ex_graph ∧
    total_load (ls_graph st)
    = np_sum (sample_mass bf_oracles (get_full_igraph ex_load_graph) "time"
                (acc_comulative (Qc_of_Z 30)) "cap" false (Qc_of_Z 4)
                ex_load_graph
              <$> live_samples [0%nat; 1%nat] [Some 1%Qc; Some (Qc_of_Z 3)]).
Proof.
  apply (load_is_conserved bf_oracles ex_graph ex_load_graph ex_pois
           (Some "cap"%string)).
  - by_compute.
  - vm_compute. reflexivity.
  - by_compute.
Defined.

(** The run on the example network: the sample on node 1 puts 4 on the two edges
    of its way to the POI, the sample of weight 3 on node 2 puts 12 on the
    one edge of its own; 4 * 2 + 12 * 1 = 20 is what the edges carry. *)
Example load_is_conserved_example :
  loads_of (run_load ex_load_graph "time" (acc_comulative (Qc_of_Z 30)) false
              [0%nat; 1%nat] [Some 1%Qc; Some (Qc_of_Z 3)])
  = Qc_of_Z <$> [4; 16; 0].
Proof. by_compute. Qed.

(** ** Edge-load accumulator: normalisation *)

Lemma Qcdiv_plus_distr (a b t : Qc) : ((a + b) / t = a / t + b / t)%Qc.
Proof. unfold Qcdiv. ring. Qed.

Lemma Qcdiv_0_l (t : Qc) : (0 / t = 0)%Qc.
Proof. unfold Qcdiv. ring. Qed.

Section Scaling.

Context (tot : Qc).

Lemma lookup_scale (G : graph) (k : edge * string) :
  g_edge_attrs (scale_loads tot G) !! k = scale_attr tot k <$> g_edge_attrs G !! k.
Proof.
  cbn [scale_loads g_edge_attrs]. rewrite map_lookup_imap.
  by destruct (g_edge_attrs G !! k).
Qed.

Lemma edge_load_scale (G : graph) (e : edge) :
  edge_load (scale_loads tot G) e = (edge_load G e / tot)%Qc.
Proof.
  unfold edge_load. rewrite lookup_scale.
  destruct (g_edge_attrs G !! (e, "load"%string)) as [[q|x]|]; cbn;
    by rewrite ?Qcdiv_0_l.
Qed.

Lemma scale_insert_load (G : graph) (e : edge) (q : Qc) :
  scale_loads tot
    {| g_nodes := g_nodes G; g_edges := g_edges G;
       g_node_attrs := g_node_attrs G;
       g_edge_attrs := <[(e, "load"%string) := ANum q]> (g_edge_attrs G) |}
  = {| g_nodes := g_nodes G; g_edges := g_edges G;
       g_node_attrs := g_node_attrs G;
       g_edge_attrs := <[(e, "load"%string) := ANum (q / tot)%Qc]>
                         (g_edge_attrs (scale_loads tot G)) |}.
Proof.
  unfold scale_loads. cbn [g_nodes g_edges g_node_attrs g_edge_attrs]. f_equal.
  by rewrite (map_imap_insert_Some _ _ _ _ (ANum (q / tot)%Qc)).
Qed.

Lemma add_to_edge_scale (G : graph) (e : attr) (w : Qc) :
  add_to_edge (scale_loads tot G) e "load" (w / tot)
  = scale_loads tot <$> add_to_edge G e "load" w.
Proof.
  destruct e as [x|e]; [done|]. unfold add_to_edge.
  change (g_edges (scale_loads tot G)) with (g_edges G).
  destruct (bool_decide (e ∈ g_edges G)); [|done].
  rewrite lookup_scale.
  destruct (g_edge_attrs G !! (e, "load"%string)) as [[q|x]|]; [|done..].
  cbn [fmap option_fmap option_map scale_attr snd].
  rewrite bool_decide_eq_true_2 by done. f_equal.
  rewrite scale_insert_load. by rewrite Qcdiv_plus_distr.
Qed.

Lemma set_all_edges_scale (G : graph) :
  set_all_edges "load" (λ _, ANum 0%Qc) (scale_loads tot G)
  = scale_loads tot (set_all_edges "load" (λ _, ANum 0%Qc) G).
Proof.
  unfold set_all_edges, scale_loads.
  cbn [g_nodes g_edges g_node_attrs g_edge_attrs]. f_equal.
  generalize (g_edge_attrs G). induction (g_edges G) as [|e l IH]; intros m.
  - done.
  - cbn [foldl]. rewrite <-IH. f_equal.
    rewrite (map_imap_insert_Some _ _ _ _ (ANum 0%Qc)); [done|].
    cbn. by rewrite Qcdiv_0_l.
Qed.

Lemma update_edge_scale (G : graph) (e : attr) (w : Qc) :
  update_edge "load" (scale_loads tot G) e (w / tot)
  = (G' ← update_edge "load" G e w; Ret (scale_loads tot G')).
Proof.
  unfold update_edge. rewrite add_to_edge_scale.
  destruct (add_to_edge G e "load" w) as [G'|]; [done|].
  cbn [fmap option_fmap option_map].
  rewrite set_all_edges_scale, add_to_edge_scale.
  by destruct (add_to_edge _ e "load" w).
Qed.

Lemma update_seq_scale (seq : list attr) (w : Qc) :
  ∀ G,
    foldM_outcome (λ G e, update_edge "load" G e (w / tot)) seq
      (scale_loads tot G)
    = (G' ← foldM_outcome (λ G e, update_edge "load" G e w) seq G;
       Ret (scale_loads tot G')).
Proof.
  induction seq as [|e seq IH]; intros G; [done|].
  cbn [foldM_outcome]. rewrite update_edge_scale.
  destruct (update_edge "load" G e w) as [G1| |]; cbn [mbind outcome_bind];
    [|done..].
  apply IH.
Qed.

Lemma update_edges_scale (seqs : list (list attr)) :
  ∀ (ws : list Qc) G,
    _update_edges (scale_loads tot G) seqs "load"
      (Some ((λ x, x / tot)%Qc <$> ws))
    = (G' ← _update_edges G seqs "load" (Some ws); Ret (scale_loads tot G')).
Proof.
  unfold _update_edges. cbn [default from_option id].
  induction seqs as [|seq seqs IH]; intros ws G; [done|].
  destruct ws as [|w ws]; [done|].
  rewrite fmap_cons. cbn [zip_with foldM_outcome fst snd].
  rewrite update_seq_scale.
  destruct (foldM_outcome _ seq G) as [G1| |]; cbn [mbind outcome_bind];
    [|done..].
  apply IH.
Qed.

End Scaling.

Lemma set_all_edges_well_keyed name f G :
  well_keyed G → well_keyed (set_all_edges name f G).
Proof.
  unfold well_keyed, set_all_edges. cbn [g_edges g_edge_attrs].
  intros H [e n] a. rewrite lookup_set_all. cbn [fst].
  destruct (bool_decide (e ∈ g_edges G ∧ n = name)) eqn:Hd.
  - apply bool_decide_eq_true in Hd as [He _]. by intros _.
  - apply (H (e, n)).
Qed.

Lemma prepared_scale_fixed (O : Oracles) tot g pois pwc g1 :
  well_keyed g → prepare_load_graph O g pois pwc = Ret g1 →
  scale_loads tot g1 = g1.
Proof.
  intros Hwk Hprep.
  assert (Hload : ∀ e a, g_edge_attrs g1 !! (e, "load"%string) = Some a →
                         a = ANum 0%Qc).
  { revert Hprep. unfold prepare_load_graph.
    destruct (poi_attrs O _ pois pwc) as [attrs| |]; [|done..].
    intros [= <-] e a.
    cbn [g_edge_attrs set_node_attributes set_all_edges g_edges].
    rewrite lookup_set_all. case_bool_decide as Hd; [congruence|].
    rewrite lookup_set_all. rewrite bool_decide_eq_false_2 by (intros [_ [=]]).
    intros Ha. exfalso. apply Hd. split; [|done].
    apply (Hwk (e, "load"%string) a Ha). }
  destruct g1 as [ns es na ea]. unfold scale_loads.
  cbn [g_nodes g_edges g_node_attrs g_edge_attrs] in *. f_equal.
  apply map_eq. intros [e n]. rewrite map_lookup_imap.
  destruct (ea !! (e, n)) as [a|] eqn:Ha; [|done]. cbn. f_equal.
  destruct a as [q|x]; [|done]. cbn. case_bool_decide as Hn; [|done].
  subst n. apply Hload in Ha as [= ->]. by rewrite Qcdiv_0_l.
Qed.

Section Normalisation.

Context (O : Oracles) (Gig : igraph) (weight : string) (func : cost → Qc).
Context (name : string) (tot : Qc).

Lemma contributions_norm (G : graph) (source : nat) (p : Qc) :
  sample_contributions O Gig weight func name true tot (scale_loads tot G)
    source p
  = (c ← sample_contributions O Gig weight func name false tot G source p;
     Ret (c.1, (λ x, x / tot)%Qc <$> (c.2 : list Qc))).
Proof.
  unfold sample_contributions.
  destruct (_get_edges _ Gig) as [es| |]; [|done..]. cbn [mbind outcome_bind].
  change (node_data (scale_loads tot G) name) with (node_data G name).
  destruct (node_data G name) as [nd| |]; [|done..]. cbn [mbind outcome_bind].
  by destruct (np_mul _ _).
Qed.

Lemma load_step_scale (st : load_state) (sp : nat * option Qc) :
  load_step O Gig weight func name true tot (scale_state tot st) sp
  = (st' ← load_step O Gig weight func name false tot st sp;
     Ret (scale_state tot st')).
Proof.
  destruct sp as [source [p|]]; [|done]. unfold load_step.
  destruct (bool_decide (p = 0%Qc)); [done|].
  cbn [ls_graph scale_state]. rewrite contributions_norm.
  destruct (sample_contributions _ _ _ _ _ false _ _ _ _) as [c| |];
    [|done..]. cbn [mbind outcome_bind fst snd].
  rewrite update_edges_scale.
  by destruct (_update_edges _ _ _ _).
Qed.

Lemma load_fold_scale (l : list (nat * option Qc)) :
  ∀ st,
    foldM_outcome (load_step O Gig weight func name true tot) l
      (scale_state tot st)
    = (st' ← foldM_outcome (load_step O Gig weight func name false tot) l st;
       Ret (scale_state tot st')).
Proof.
  induction l as [|sp l IH]; intros st; [done|].
  cbn [foldM_outcome]. rewrite load_step_scale.
  destruct (load_step _ _ _ _ _ false _ st sp) as [st1| |];
    cbn [mbind outcome_bind]; [|done..].
  apply IH.
Qed.

End Normalisation.

(** C8. On the prepared copy and with a total sample weight other than 0,
    when the run with [norm=False] returns, the run with [norm=True]
    returns too and leaves on every edge the load of the first run divided
    by the total sample weight [np.nansum(pops)]. Division is exact here;
    the rounding of floats is not modelled. *)
Theorem normalised_load_is_scaled (O : Oracles) (g g1 : graph)
    (pois : list poi) (pwc : option string) (nd : gmap node nat)
    (weight : string) (func : cost → Qc) (name : string) (X Y : list Qc)
    (pops : list (option Qc)) (st1 : load_state) :
  well_keyed g →
  prepare_load_graph O g pois pwc = Ret g1 →
  np_nansum pops ≠ 0%Qc →
  accessibility_load_of_samples O g1 nd weight func name false X Y pops
    = Ret st1 →
  ∃ st2,
    accessibility_load_of_samples O g1 nd weight func name true X Y pops
      = Ret st2 ∧
    g_edges (ls_graph st2) = g_edges (ls_graph st1) ∧
    ∀ e, edge_load (ls_graph st2) e
         = (edge_load (ls_graph st1) e / np_nansum pops)%Qc.
Proof.
  intros Hwk Hprep _. unfold accessibility_load_of_samples.
  destruct (lookup_all nd _) as [ig_nodes| |]; [|done..].
  cbn [mbind outcome_bind]. unfold load_loop. intros Hrun.
  exists (scale_state (np_nansum pops) st1).
  pose proof (load_fold_scale O (get_full_igraph g1) weight func name
                (np_nansum pops) (zip ig_nodes pops)
                {| ls_graph := g1; ls_queries := [] |}) as Hscale.
  rewrite Hrun in Hscale. unfold scale_state at 1 in Hscale.
  cbn [ls_graph ls_queries] in Hscale.
  rewrite (prepared_scale_fixed O _ g pois pwc g1) in Hscale by done.
  split; [done|]. split; [done|]. intros e. apply edge_load_scale.
Qed.

Lemma normalised_load_is_scaled_witness :
  ∃ st2,
    accessibility_load_of_samples bf_oracles ex_load_graph
      (node_dict (get_full_igraph ex_load_graph)) "time"
      (acc_comulative (Qc_of_Z 30)) "cap" true
      (Qc_of_Z <$> [0; 9]) (Qc_of_Z <$> [0; 0])
      [Some 1%Qc; Some (Qc_of_Z 3)] = Ret st2 ∧
    g_edges (ls_graph st2)
    = g_edges (ls_graph (match run_load ex_load_graph "time"
                                 (acc_comulative (Qc_of_Z 30)) false
                                 [0%nat; 1%nat] [Some 1%Qc; Some (Qc_of_Z 3)]
                         with Ret st => st
                         | _ => {| ls_graph := ex_graph; ls_queries := [] |}
                         end)) ∧
    ∀ e, edge_load (ls_graph st2) e
         = (edge_load
              (ls_graph (match run_load ex_load_graph "time"
                                 (acc_comulative (Qc_of_Z 30)) false
                                 [0%nat; 1%nat] [Some 1%Qc; Some (Qc_of_Z 3)]
                         with Ret st => st
                         | _ => {| ls_graph := ex_graph; ls_queries := [] |}
                         end)) e
            / np_nansum [Some 1%Qc; Some (Qc_of_Z 3)])%Qc.
Proof.
  apply (normalised_load_is_scaled bf_oracles ex_graph ex_load_graph ex_pois
           (Some "cap"%string)).
  - by_compute.
  - vm_compute. reflexivity.
  - by_compute.
  - vm_compute. reflexivity.
Defined.

(** The two runs on the example network, edge by edge: 4, 16, 0 without
    normalisation, and those divided by the total weight 4 with it. *)
Example normalised_load_example :
  loads_of (run_load ex_load_graph "time" (acc_comulative (Qc_of_Z 30)) true
              [0%nat; 1%nat] [Some 1%Qc; Some (Qc_of_Z 3)])
  = Qc_of_Z <$> [1; 4; 0].
Proof. by_compute. Qed.

(** * Further properties *)

(** ** Decay functions *)

(** X1. The hard cutoff returns 0 or 1, 1 exactly for a finite cost within
    the cap; it never grows when the cost grows and never shrinks when the
    cap grows. *)
Theorem acc_comulative_monotone (t t' : Qc) (d d' : cost) :
  cost_leq d d' → (t ≤ t')%Qc →
  (acc_comulative t d = 0%Qc ∨ acc_comulative t d = 1%Qc) ∧
  (acc_comulative t d = 1%Qc ↔ ∃ q, d = Fin q ∧ (q ≤ t)%Qc) ∧
  (acc_comulative t d' ≤ acc_comulative t d)%Qc ∧
  (acc_comulative t d ≤ acc_comulative t' d)%Qc.
Proof.
  intros Hd Ht.
  assert (H01 : (0 ≤ 1)%Qc) by done.
  assert (H10 : (1:Qc) ≠ 0%Qc) by done.
  assert (Hin : ∀ q u, (q ≤ u)%Qc → acc_comulative u (Fin q) = 1%Qc).
  { intros q u Hq. unfold acc_comulative, cost_le.
    by rewrite bool_decide_eq_true_2. }
  assert (Hout : ∀ q u, ¬ (q ≤ u)%Qc → acc_comulative u (Fin q) = 0%Qc).
  { intros q u Hq. unfold acc_comulative, cost_le.
    by rewrite bool_decide_eq_false_2. }
  assert (Hinf : ∀ u, acc_comulative u Inf = 0%Qc) by done.
  split; [|split; [|split]].
  - destruct d as [q|]; [|by left].
    destruct (decide (q ≤ t)%Qc); [right; by apply Hin|left; by apply Hout].
  - destruct d as [q|].
    + destruct (decide (q ≤ t)%Qc) as [Hq|Hq].
      * rewrite Hin by done. split; [eauto|done].
      * rewrite Hout by done. split; [done|].
        intros (q' & [= <-] & Hq'). done.
    + rewrite Hinf. split; [done|]. by intros (q & [=] & _).
  - destruct d as [q|], d' as [q'|]; cbn in Hd; try done.
    + destruct (decide (q' ≤ t)%Qc) as [Hq'|Hq'].
      * rewrite !Hin; [done|by etrans|done].
      * rewrite (Hout q') by done.
        destruct (decide (q ≤ t)%Qc); [by rewrite Hin|by rewrite Hout].
    + rewrite Hinf.
      destruct (decide (q ≤ t)%Qc); [by rewrite Hin|by rewrite Hout].
  - destruct d as [q|]; [|by rewrite !Hinf].
    destruct (decide (q ≤ t)%Qc) as [Hq|Hq].
    + rewrite !Hin; [done|by etrans|done].
    + rewrite (Hout q t) by done.
      destruct (decide (q ≤ t')%Qc); [by rewrite Hin|by rewrite Hout].
Qed.

Lemma acc_comulative_monotone_witness :
  (acc_comulative (Qc_of_Z 3) (Fin (Qc_of_Z 2)) = 0%Qc
   ∨ acc_comulative (Qc_of_Z 3) (Fin (Qc_of_Z 2)) = 1%Qc) ∧
  (acc_comulative (Qc_of_Z 3) (Fin (Qc_of_Z 2)) = 1%Qc
   ↔ ∃ q, Fin (Qc_of_Z 2) = Fin q ∧ (q ≤ Qc_of_Z 3)%Qc) ∧
  (acc_comulative (Qc_of_Z 3) Inf
   ≤ acc_comulative (Qc_of_Z 3) (Fin (Qc_of_Z 2)))%Qc ∧
  (acc_comulative (Qc_of_Z 3) (Fin (Qc_of_Z 2))
   ≤ acc_comulative (Qc_of_Z 5) (Fin (Qc_of_Z 2)))%Qc.
Proof.
  apply (acc_comulative_monotone (Qc_of_Z 3) (Qc_of_Z 5) (Fin (Qc_of_Z 2)) Inf).
  - exact I.
  - by_compute.
Defined.

Module DecayRFacts.

Import Reals Lra DecayR.
Local Open Scope R_scope.

Lemma soft_exponent_zero (t k : R) : t <> 0 -> k * (t - t) / t = 0.
Proof. intros Ht. field. exact Ht. Qed.

(** X2. At a cost equal to [t] the soft threshold scores exactly one half,
    whatever [k]; every score lies strictly between 0 and 1. *)
Theorem acc_soft_threshold_half (t k d : R) :
  t <> 0 ->
  acc_soft_threshold t k t = 1 / 2 /\
  0 < acc_soft_threshold t k d < 1.
Proof.
  intros Ht. unfold acc_soft_threshold. split.
  - rewrite soft_exponent_zero by exact Ht. rewrite exp_0. lra.
  - pose proof (exp_pos (k * (d - t) / t)) as He.
    split.
    + apply Rinv_0_lt_compat. lra.
    + rewrite <- Rinv_1 at 2. apply Rinv_lt_contravar; lra.
Qed.

Lemma acc_soft_threshold_half_witness :
  acc_soft_threshold 500 5 500 = 1 / 2 /\
  0 < acc_soft_threshold 500 5 120 < 1.
Proof. apply (acc_soft_threshold_half 500 5 120). lra. Defined.

(** X3. For positive [t] and [k] the soft threshold is strictly decreasing
    in the cost. *)
Theorem acc_soft_threshold_decreasing (t k d1 d2 : R) :
  0 < t -> 0 < k -> d1 < d2 ->
  acc_soft_threshold t k d2 < acc_soft_threshold t k d1.
Proof.
  intros Ht Hk Hd. unfold acc_soft_threshold.
  pose proof (exp_pos (k * (d1 - t) / t)) as H1.
  assert (Hlt : k * (d1 - t) / t < k * (d2 - t) / t).
  { unfold Rdiv. apply Rmult_lt_compat_r; [by apply Rinv_0_lt_compat|].
    apply Rmult_lt_compat_l; lra. }
  apply exp_increasing in Hlt.
  apply Rinv_lt_contravar; [|lra].
  apply Rmult_lt_0_compat; lra.
Qed.

Lemma acc_soft_threshold_decreasing_witness :
  acc_soft_threshold 500 5 700 < acc_soft_threshold 500 5 120.
Proof. apply (acc_soft_threshold_decreasing 500 5 120 700); lra. Defined.

Lemma gaussian_plateau (t v d : R) :
  d <= t -> acc_cumulative_gaussian t v d = 1.
Proof.
  intros Hd. unfold acc_cumulative_gaussian, le_ind, gt_ind.
  destruct (Rle_dec d t); [|lra]. destruct (Rlt_dec t d); lra.
Qed.

Lemma gaussian_tail (t v d : R) :
  t < d -> acc_cumulative_gaussian t v d = exp (- (d - t) ^ 2 / v).
Proof.
  intros Hd. unfold acc_cumulative_gaussian, le_ind, gt_ind.
  destruct (Rle_dec d t); [lra|]. destruct (Rlt_dec t d); lra.
Qed.

Lemma gaussian_exponent_neg (t v d : R) :
  0 < v -> t < d -> - (d - t) ^ 2 / v < 0.
Proof.
  intros Hv Hd. unfold Rdiv.
  assert (0 < (d - t) ^ 2) by (apply pow_lt; lra).
  assert (0 < / v) by (by apply Rinv_0_lt_compat).
  assert (0 < (d - t) ^ 2 * / v) by (by apply Rmult_lt_0_compat).
  lra.
Qed.

(** X4. The cutoff with a Gaussian tail scores 1 up to the cap [t];
    beyond it, for positive [v], the score is [exp(-(d-t)^2/v)], strictly
    between 0 and 1. *)
Theorem acc_cumulative_gaussian_range (t v d : R) :
  0 < v ->
  (d <= t -> acc_cumulative_gaussian t v d = 1) /\
  (t < d -> acc_cumulative_gaussian t v d = exp (- (d - t) ^ 2 / v) /\
            0 < acc_cumulative_gaussian t v d < 1).
Proof.
  intros Hv. split; [apply gaussian_plateau|].
  intros Hd. rewrite gaussian_tail by exact Hd. split; [reflexivity|].
  split; [apply exp_pos|].
  rewrite <- exp_0. apply exp_increasing. by apply gaussian_exponent_neg.
Qed.

Lemma acc_cumulative_gaussian_range_witness :
  (300 <= 500 -> acc_cumulative_gaussian 500 129842 300 = 1) /\
  (500 < 300 ->
   acc_cumulative_gaussian 500 129842 300 = exp (- (300 - 500) ^ 2 / 129842) /\
   0 < acc_cumulative_gaussian 500 129842 300 < 1).
Proof. apply (acc_cumulative_gaussian_range 500 129842 300). lra. Defined.

(** X5. For positive [v] the cutoff with a Gaussian tail never grows with
    the cost, and beyond the cap it strictly decreases. *)
Theorem acc_cumulative_gaussian_decreasing (t v d1 d2 : R) :
  0 < v -> d1 < d2 ->
  acc_cumulative_gaussian t v d2 <= acc_cumulative_gaussian t v d1 /\
  (t < d2 -> acc_cumulative_gaussian t v d2 < acc_cumulative_gaussian t v d1).
Proof.
  intros Hv Hd.
  assert (Hstrict : t < d2 ->
    acc_cumulative_gaussian t v d2 < acc_cumulative_gaussian t v d1).
  { intros H2. rewrite (gaussian_tail t v d2) by exact H2.
    destruct (Rle_dec d1 t) as [H1|H1].
    - rewrite gaussian_plateau by exact H1. rewrite <- exp_0.
      apply exp_increasing. by apply gaussian_exponent_neg.
    - rewrite gaussian_tail by lra. apply exp_increasing.
      unfold Rdiv. apply Rmult_lt_compat_r; [by apply Rinv_0_lt_compat|].
      assert ((d1 - t) ^ 2 < (d2 - t) ^ 2); [|lra].
      simpl. rewrite !Rmult_1_r. apply Rmult_le_0_lt_compat; lra. }
  split; [|exact Hstrict].
  destruct (Rle_dec d2 t) as [H2|H2].
  - rewrite !gaussian_plateau by lra. lra.
  - apply Rlt_le, Hstrict. lra.
Qed.

Lemma acc_cumulative_gaussian_decreasing_witness :
  acc_cumulative_gaussian 500 129842 700
    <= acc_cumulative_gaussian 500 129842 600 /\
  (500 < 700 ->
   acc_cumulative_gaussian 500 129842 700
     < acc_cumulative_gaussian 500 129842 600).
Proof. apply (acc_cumulative_gaussian_decreasing 500 129842 600 700); lra. Defined.

End DecayRFacts.

(** ** Polygon sampler: edge cases *)

Lemma py_round_lower (z : Z) (q : Qc) : (Qc_of_Z z ≤ q)%Qc → z ≤ py_round q.
Proof.
  intros Hq. unfold py_round.
  assert (Hf : z ≤ Qnum (this q) / Z.pos (Qden (this q))).
  { apply Z.div_le_lower_bound; [lia|].
    unfold Qcle, Qle in Hq. cbn in Hq. lia. }
  destruct (_ ?= _); [destruct (Z.even _)| |]; lia.
Qed.

Lemma py_round_upper (z : Z) (q : Qc) : (q ≤ Qc_of_Z z)%Qc → py_round q ≤ z.
Proof.
  intros Hq. unfold py_round.
  set (n := Qnum (this q)). set (d := Z.pos (Qden (this q))).
  assert (Hn : n ≤ z * d).
  { unfold Qcle, Qle in Hq. cbn in Hq. unfold n, d. lia. }
  assert (Hd : 0 < d) by (unfold d; lia).
  pose proof (Z.div_mod n d ltac:(lia)) as Hdm.
  pose proof (Z.mod_pos_bound n d Hd) as Hm.
  destruct (Z.compare_spec (2 * (n mod d)) d) as [He|Hl|Hg].
  - assert (n / d < z) by nia. destruct (Z.even _); lia.
  - assert (n / d ≤ z) by nia. lia.
  - assert (n / d < z) by nia. lia.
Qed.

Section SamplerEdges.

Context (R : Rng).

Lemma inflated_size_box poly :
  inflated_size poly = λ n_pts,
    if bool_decide (box_area poly = 0%Qc) then Raise ZeroDivisionError else
    if bool_decide (area poly / box_area poly = 0)%Qc
    then Raise ZeroDivisionError
    else Ret (py_round (Qc_of_Z n_pts * (1 + 2 / (area poly / box_area poly)))%Qc).
Proof.
  unfold inflated_size, box_area. by destruct (bounds poly) as [[[x0 y0] x1] y1].
Qed.

(** X6. A polygon without area, or whose bounding box has none, makes the
    sampler raise [ZeroDivisionError], whatever count, seed and fuel. *)
Theorem sampler_zero_division (fuel : nat) (poly : Polygon) (n_pts : Z)
    (seed : option Z) (w : rng_world R) :
  box_area poly = 0%Qc ∨ area poly = 0%Qc →
  (random_points_in_polygon R fuel (PyPolygon poly) (PyInt n_pts) seed w).1
  = Raise ZeroDivisionError.
Proof.
  intros Hz. unfold random_points_in_polygon. rewrite inflated_size_box.
  destruct (decide (box_area poly = 0%Qc)) as [Hb|Hb].
  - by rewrite (bool_decide_eq_true_2 _ Hb).
  - rewrite (bool_decide_eq_false_2 _ Hb). destruct Hz as [Hz|Hz]; [done|].
    rewrite bool_decide_eq_true_2; [done|]. rewrite Hz. unfold Qcdiv. ring.
Qed.

Lemma simple_sft_pos poly :
  simple_polygon poly →
  (0 < box_area poly)%Qc ∧ (0 < area poly / box_area poly)%Qc.
Proof.
  unfold simple_polygon, box_area.
  destruct (bounds poly) as [[[x0 y0] x1] y1]. intros (Hx & Hy & Ha).
  assert (Hbox : (0 < (x1 - x0) * (y1 - y0))%Qc).
  { apply Qcmult_pos_pos; by apply Qc_sub_pos. }
  split; [done|]. apply Qcmult_pos_pos; [done|by apply Qcinv_pos].
Qed.

Lemma inflated_size_simple_eq poly n_pts :
  simple_polygon poly →
  inflated_size poly n_pts
  = Ret (py_round (Qc_of_Z n_pts * (1 + 2 / (area poly / box_area poly)))%Qc).
Proof.
  intros [Hb Hs]%simple_sft_pos. rewrite inflated_size_box.
  rewrite bool_decide_eq_false_2 by (by apply Qclt_not_eq in Hb).
  by rewrite bool_decide_eq_false_2 by (by apply Qclt_not_eq in Hs).
Qed.

Lemma inflation_factor_ge_1 poly :
  simple_polygon poly → (1 ≤ 1 + 2 / (area poly / box_area poly))%Qc.
Proof.
  intros [_ Hs]%simple_sft_pos.
  rewrite <-(Qcplus_0_r 1) at 1. apply Qcplus_le_mono_l.
  apply Qcmult_nonneg_nonneg; [done|]. apply Qclt_le_weak. by apply Qcinv_pos.
Qed.

(** X7. A negative count makes the sampler raise [ValueError] on any
    simple polygon: the inflated batch size is negative too, and
    [np.random.uniform] refuses it. *)
Theorem sampler_negative_count (fuel : nat) (poly : Polygon) (n_pts : Z)
    (seed : option Z) (w : rng_world R) :
  simple_polygon poly → n_pts < 0 →
  (random_points_in_polygon R fuel (PyPolygon poly) (PyInt n_pts) seed w).1
  = Raise ValueError.
Proof.
  intros Hsimple Hn. unfold random_points_in_polygon.
  rewrite inflated_size_simple_eq by done.
  set (f := (1 + 2 / (area poly / box_area poly))%Qc).
  assert (Hq : (Qc_of_Z n_pts * f ≤ Qc_of_Z n_pts)%Qc).
  { assert (Hneg : (0 ≤ Qc_of_Z (- n_pts))%Qc) by (apply Qc_of_Z_nonneg; lia).
    pose proof (Qcmult_le_mono_nonneg_l 1 f _ Hneg
                  (inflation_factor_ge_1 poly Hsimple)) as Hm.
    rewrite Z2Qc_inj_opp in Hm. apply Qcopp_le_compat in Hm.
    by ring_simplify in Hm. }
  apply py_round_upper in Hq.
  destruct (Z.ltb_spec (py_round (Qc_of_Z n_pts * f)) 0); [done|lia].
Qed.

(** X8. Asked for no point, the sampler returns two empty arrays at its
    first pass, on any simple polygon. *)
Theorem sampler_zero_count (fuel : nat) (poly : Polygon)
    (seed : option Z) (w : rng_world R) :
  simple_polygon poly →
  (random_points_in_polygon R (S fuel) (PyPolygon poly) (PyInt 0) seed w).1
  = Ret ([], []).
Proof.
  intros Hsimple. unfold random_points_in_polygon.
  rewrite inflated_size_simple_eq by done.
  rewrite Z2Qc_inj_0, Qcmult_0_l.
  change (py_round 0%Qc) with 0. cbn [Z.ltb Z.compare Z.to_nat].
  cbn [sample_loop]. unfold draw_batch.
  destruct (bounds poly) as [[[x0 y0] x1] y1]. done.
Qed.

(** X9. For a simple polygon no larger than its bounding box, each pass
    draws at least three times as many candidate points as were asked
    for. *)
Theorem sampler_batch_is_inflated (poly : Polygon) (n_pts : Z) :
  simple_polygon poly → (area poly ≤ box_area poly)%Qc → 0 ≤ n_pts →
  ∃ n, inflated_size poly n_pts = Ret n ∧ 3 * n_pts ≤ n.
Proof.
  intros Hsimple Har Hn. rewrite inflated_size_simple_eq by done.
  eexists. split; [done|]. apply py_round_lower.
  destruct (simple_sft_pos poly Hsimple) as [Hb Hs].
  set (sft := (area poly / box_area poly)%Qc) in *.
  assert (Hs1 : (sft ≤ 1)%Qc).
  { unfold sft, Qcdiv. apply (Qcmult_le_mono_pos_r _ _ (box_area poly)); [done|].
    rewrite <-Qcmult_assoc, Qcmult_inv_l, Qcmult_1_r, Qcmult_1_l;
      [done|by apply Qclt_not_eq in Hb]. }
  assert (Hinv : (1 ≤ / sft)%Qc).
  { rewrite <-(Qcmult_inv_r sft) at 1 by (by apply Qclt_not_eq in Hs).
    rewrite <-(Qcmult_1_l (/ sft)) at 2.
    apply Qcmult_le_mono_nonneg_r; [|done].
    apply Qclt_le_weak. by apply Qcinv_pos. }
  assert (Hf : (Qc_of_Z 3 ≤ 1 + 2 / sft)%Qc).
  { replace (Qc_of_Z 3) with (1 + 2 * 1)%Qc by by_compute.
    apply Qcplus_le_mono_l. unfold Qcdiv.
    by apply Qcmult_le_mono_nonneg_l. }
  rewrite Z.mul_comm, Z2Qc_inj_mul.
  apply Qcmult_le_mono_nonneg_l; [by apply Qc_of_Z_nonneg|done].
Qed.

(** X10. Every call reseeds the process-wide generator: neither what the
    sampler returns nor the state it leaves the generator in depends on the
    state the generator was in before the call. *)
Theorem sampler_discards_generator_state (fuel : nat) (polygon n_pts : pyobj)
    (seed : option Z) (st st' : rng_state R) (reads : nat) :
  random_points_in_polygon R fuel polygon n_pts seed (st, reads)
  = random_points_in_polygon R fuel polygon n_pts seed (st', reads).
Proof.
  unfold random_points_in_polygon.
  by replace (np_random_seed R seed (st', reads))
    with (np_random_seed R seed (st, reads)) by (by destruct seed).
Qed.

End SamplerEdges.

Lemma sampler_zero_division_witness :
  (random_points_in_polygon lcg 7 (PyPolygon flat_polygon) (PyInt 4)
     (Some 11) ((0 : rng_state lcg), 0%nat)).1
  = Raise ZeroDivisionError.
Proof.
  apply (sampler_zero_division lcg 7 flat_polygon 4 (Some 11)).
  left. by_compute.
Defined.


Lemma sampler_negative_count_witness :
  (random_points_in_polygon lcg 7 (PyPolygon (square 2)) (PyInt (-3))
     (Some 11) ((0 : rng_state lcg), 0%nat)).1
  = Raise ValueError.
Proof.
  apply (sampler_negative_count lcg 7 (square 2) (-3) (Some 11)).
  - vm_compute. done.
  - lia.
Defined.

Lemma sampler_zero_count_witness :
  (random_points_in_polygon lcg 1 (PyPolygon (square 2)) (PyInt 0)
     None ((0 : rng_state lcg), 0%nat)).1
  = Ret ([], []).
Proof.
  apply (sampler_zero_count lcg 0 (square 2) None).
  vm_compute. done.
Defined.

Lemma sampler_batch_is_inflated_witness :
  ∃ n, inflated_size (square 2) 5 = Ret n ∧ 3 * 5 ≤ n.
Proof.
  apply (sampler_batch_is_inflated (square 2) 5).
  - vm_compute. done.
  - by_compute.
  - lia.
Defined.

(** ** Destination weights *)

Lemma lookup_fromkeys (l : list node) (n : node) :
  (list_to_map ((λ n, (n, 0%Qc)) <$> l) : gmap node Qc) !! n
  = if bool_decide (n ∈ l) then Some 0%Qc else None.
Proof.
  induction l as [|x l IH].
  - by rewrite bool_decide_eq_false_2 by apply not_elem_of_nil.
  - rewrite fmap_cons. cbn [list_to_map foldr]. destruct (decide (n = x)) as [->|Hne].
    + rewrite lookup_insert_eq. by rewrite bool_decide_eq_true_2 by left.
    + rewrite lookup_insert_ne by done. rewrite IH.
      destruct (decide (n ∈ l)) as [Hl|Hl].
      * by rewrite !bool_decide_eq_true_2 by (try right; done).
      * rewrite !bool_decide_eq_false_2; [done|by intros [?|?]%elem_of_cons|done].
Qed.

Lemma snapped_weight_cons (n0 : node) (v0 : Qc) nodes vals (n : node) :
  snapped_weight (n0 :: nodes) (v0 :: vals) n
  = ((if bool_decide (n0 = n) then v0 else 0) + snapped_weight nodes vals n)%Qc.
Proof.
  unfold snapped_weight. cbn [zip_with omap list_omap fst snd].
  destruct (bool_decide (n0 = n)); [done|]. by rewrite Qcplus_0_l.
Qed.

Lemma sum_poi_fold (E : list node) (nodes : list node) :
  ∀ (vals : list Qc) (a : gmap node Qc),
    (∀ n, n ∈ E → is_Some (a !! n)) →
    Forall (λ n, n ∈ E) nodes →
    ∃ a',
      foldM_outcome
        (λ (a : gmap node Qc) (nv : node * Qc),
           match a !! nv.1 with
           | Some x => Ret (<[nv.1 := (x + nv.2)%Qc]> a)
           | None => Raise KeyError
           end) (zip nodes vals) a = Ret a' ∧
      ∀ n, a' !! n = (λ x, x + snapped_weight nodes vals n)%Qc <$> a !! n.
Proof.
  induction nodes as [|n0 nodes IH]; intros vals a Hdom Hin.
  - exists a. split; [done|]. intros n. unfold snapped_weight. cbn.
    destruct (a !! n); cbn; [|done]. by rewrite Qcplus_0_r.
  - destruct vals as [|v0 vals].
    { exists a. split; [done|]. intros n. unfold snapped_weight. cbn.
      destruct (a !! n); cbn; [|done]. by rewrite Qcplus_0_r. }
    apply Forall_cons_1 in Hin as [Hn0 Hin].
    destruct (Hdom n0 Hn0) as [x Hx].
    cbn [zip_with foldM_outcome fst snd]. rewrite Hx. cbn [mbind outcome_bind].
    destruct (IH vals (<[n0 := (x + v0)%Qc]> a)) as (a' & Hrun & Hlook); [|done|].
    { intros n Hn. destruct (decide (n = n0)) as [->|Hne].
      - rewrite lookup_insert_eq. by eexists.
      - rewrite lookup_insert_ne by done. by apply Hdom. }
    exists a'. split; [done|]. intros n. rewrite Hlook, snapped_weight_cons.
    destruct (decide (n0 = n)) as [->|Hne].
    + rewrite lookup_insert_eq, Hx, bool_decide_eq_true_2 by done. cbn.
      f_equal. ring.
    + rewrite lookup_insert_ne by done.
      rewrite bool_decide_eq_false_2 by done.
      destruct (a !! n); cbn; [|done]. f_equal. ring.
Qed.

Lemma lookup_set_node_attributes (g : graph) (values : gmap node Qc)
    (name : string) (n : node) (nm : string) :
  g_node_attrs (set_node_attributes g values name) !! (n, nm)
  = if bool_decide (nm = name ∧ n ∈ g_nodes g ∧ is_Some (values !! n))
    then values !! n else g_node_attrs g !! (n, nm).
Proof.
  unfold set_node_attributes. cbn [g_node_attrs].
  generalize (g_node_attrs g). induction (g_nodes g) as [|x l IH]; intros m.
  - cbn [foldl]. rewrite bool_decide_eq_false_2; [done|].
    intros (_ & H & _). by apply not_elem_of_nil in H.
  - cbn [foldl]. rewrite IH.
    destruct (decide (nm = name ∧ n ∈ l ∧ is_Some (values !! n)))
      as [(-> & Hl & Hv)|Hno].
    + rewrite !bool_decide_eq_true_2; [done|..]; repeat split; try done.
      by right.
    + rewrite (bool_decide_eq_false_2 _ Hno).
      destruct (decide (nm = name ∧ n = x ∧ is_Some (values !! n)))
        as [(-> & -> & [v Hv])|Hne].
      * rewrite Hv, lookup_insert_eq. rewrite bool_decide_eq_true_2; [done|].
        repeat split; [left|by eexists].
      * assert (Hlook :
          match values !! x with
          | Some v => <[(x, name) := v]> m
          | None => m
          end !! (n, nm) = m !! (n, nm)).
        { destruct (values !! x) as [v|] eqn:Hx; [|done].
          apply lookup_insert_ne. intros [= -> ->]. apply Hne.
          repeat split. by eexists. }
        rewrite Hlook. rewrite bool_decide_eq_false_2; [done|].
        intros (-> & [->|Hin]%elem_of_cons & Hv); naive_solver.
Qed.

(** X11. When every POI is snapped to a node of the graph, lines 158-165
    give every node the sum of the weights of the POIs snapped to it (0
    where there is none), and that is what is read back as the node's
    attribute afterwards. *)
Theorem poi_weights_are_summed (G : graph) (nodes : list node)
    (vals : list Qc) (name : string) :
  Forall (λ n, n ∈ g_nodes G) nodes →
  ∃ attrs,
    sum_poi_weights G nodes vals = Ret attrs ∧
    (∀ n, attrs !! n = if bool_decide (n ∈ g_nodes G)
                       then Some (snapped_weight nodes vals n) else None) ∧
    node_data (set_node_attributes G attrs name) name
    = Ret ((λ n, (n, snapped_weight nodes vals n)) <$> g_nodes G).
Proof.
  intros Hin. unfold sum_poi_weights.
  destruct (sum_poi_fold (g_nodes G) nodes vals
              (list_to_map ((λ n, (n, 0%Qc)) <$> g_nodes G)))
    as (attrs & Hrun & Hlook); [|done|].
  { intros n Hn. rewrite lookup_fromkeys, bool_decide_eq_true_2 by done.
    by eexists. }
  assert (Hattrs : ∀ n, attrs !! n
                        = if bool_decide (n ∈ g_nodes G)
                          then Some (snapped_weight nodes vals n) else None).
  { intros n. rewrite Hlook, lookup_fromkeys.
    destruct (bool_decide (n ∈ g_nodes G)); cbn; [|done].
    by rewrite Qcplus_0_l. }
  exists attrs. split; [done|]. split; [done|].
  unfold node_data. cbn [g_nodes set_node_attributes].
  rewrite <-mapM_outcome_pure. apply mapM_outcome_ext. intros n Hn.
  rewrite lookup_set_node_attributes, Hattrs.
  rewrite (bool_decide_eq_true_2 (n ∈ g_nodes G)) by done.
  rewrite bool_decide_eq_true_2; [done|]. split; [done|]. split; [done|].
  by eexists.
Qed.

Lemma poi_weights_are_summed_witness :
  ∃ attrs,
    sum_poi_weights ex_graph [3; 1; 3] (Qc_of_Z <$> [4; 5; 6]) = Ret attrs ∧
    (∀ n, attrs !! n
          = if bool_decide (n ∈ g_nodes ex_graph)
            then Some (snapped_weight [3; 1; 3] (Qc_of_Z <$> [4; 5; 6]) n)
            else None) ∧
    node_data (set_node_attributes ex_graph attrs "cap") "cap"
    = Ret ((λ n, (n, snapped_weight [3; 1; 3] (Qc_of_Z <$> [4; 5; 6]) n))
           <$> g_nodes ex_graph).
Proof.
  apply (poi_weights_are_summed ex_graph [3; 1; 3] (Qc_of_Z <$> [4; 5; 6])).
  by_compute.
Defined.

(** ** The two operations: errors and what they leave alone *)

Lemma mapM_outcome_raises {A B} (f : A → outcome B) (e : exn) (l : list A) :
  (∀ a, f a = Raise e ∨ ∃ b, f a = Ret b) →
  Exists (λ a, f a = Raise e) l → mapM_outcome f l = Raise e.
Proof.
  intros Hf. induction l as [|a l IH]; intros Hex.
  - by apply Exists_nil in Hex.
  - cbn [mapM_outcome]. destruct (Hf a) as [Ha|[b Hb]]; [by rewrite Ha|].
    rewrite Hb. cbn [mbind outcome_bind].
    apply Exists_cons in Hex as [Hex|Hex]; [congruence|].
    by rewrite IH.
Qed.

Lemma poi_weights_missing_column (pois : list poi) (c : string) (p : poi) :
  p ∈ pois → p_cols p !! c = None → poi_weights pois (Some c) = Raise KeyError.
Proof.
  intros Hp Hc. unfold poi_weights. apply mapM_outcome_raises.
  - intros a. destruct (p_cols a !! c); eauto.
  - apply List.Exists_exists. exists p. split; [by apply list_elem_of_In|].
    by rewrite Hc.
Qed.

Section OperationErrors.

Context (R : Rng) (O : Oracles).

(** X12. Naming a POI weight column that a row of the POI table does not
    have makes both operations raise [KeyError]; [calc_tract_accessibility]
    has by then written nothing on the graph and not touched the
    generator. *)
Theorem missing_poi_column_raises (fuel : nat) (tracts : list tract)
    (pois : list poi) (G : loc) (weight : string) (func : cost → Qc) (k : Z)
    (seed : option Z) (c : string) (twc : option string) (iter_cap : Z)
    (norm : bool) (w : world R) (g : graph) (p : poi) :
  0 < k → heap w !! G = Some g → p ∈ pois → p_cols p !! c = None →
  calc_tract_accessibility R O fuel tracts pois G weight func k seed (Some c)
    iter_cap w = (Raise KeyError, w) ∧
  (calc_accessibility_load R O fuel tracts pois G weight func k seed (Some c)
     twc norm w).1 = Raise KeyError.
Proof.
  intros Hk Hg Hp Hc.
  pose proof (poi_weights_missing_column pois c p Hp Hc) as Hw.
  destruct (Z.ltb_spec 0 k); [|lia]. split.
  - unfold calc_tract_accessibility. destruct (Z.ltb_spec 0 k); [|lia].
    cbn [negb]. rewrite Hg. unfold poi_attrs. by rewrite Hw.
  - unfold calc_accessibility_load. destruct (Z.ltb_spec 0 k); [|lia].
    cbn [negb]. unfold graph_copy. rewrite Hg. cbn [heap set_heap].
    rewrite lookup_insert_eq. unfold prepare_load_graph, poi_attrs.
    by rewrite Hw.
Qed.

(** X13. A sample count that is not positive stops both operations at
    their assertion: [AssertionError], and nothing has happened - no
    attribute written, no copy made, the generator not reseeded. *)
Theorem nonpositive_k_is_refused (fuel : nat) (tracts : list tract)
    (pois : list poi) (G : loc) (weight : string) (func : cost → Qc) (k : Z)
    (seed : option Z) (pwc twc : option string) (iter_cap : Z) (norm : bool)
    (w : world R) :
  k ≤ 0 →
  calc_tract_accessibility R O fuel tracts pois G weight func k seed pwc
    iter_cap w = (Raise AssertionError, w) ∧
  calc_accessibility_load R O fuel tracts pois G weight func k seed pwc twc
    norm w = (Raise AssertionError, w).
Proof.
  intros Hk. unfold calc_tract_accessibility, calc_accessibility_load.
  by destruct (Z.ltb_spec 0 k); [lia|].
Qed.

(** X14. Whatever [calc_tract_accessibility] returns or raises, the
    caller's graph keeps its nodes, its edges, every edge attribute and
    every node attribute under another name than the POI weight column;
    all other graphs of the process are left as they were. *)
Theorem aggregator_frame (fuel : nat) (tracts : list tract)
    (pois : list poi) (G : loc) (weight : string) (func : cost → Qc) (k : Z)
    (seed : option Z) (pwc : option string) (iter_cap : Z) (w : world R)
    (g : graph) :
  heap w !! G = Some g →
  ∃ g',
    heap (calc_tract_accessibility R O fuel tracts pois G weight func k seed
            pwc iter_cap w).2 !! G = Some g' ∧
    g_nodes g' = g_nodes g ∧ g_edges g' = g_edges g ∧
    g_edge_attrs g' = g_edge_attrs g ∧
    (∀ n nm, nm ≠ weight_column_name pwc →
       g_node_attrs g' !! (n, nm) = g_node_attrs g !! (n, nm)) ∧
    (∀ G', G' ≠ G →
       heap (calc_tract_accessibility R O fuel tracts pois G weight func k
               seed pwc iter_cap w).2 !! G' = heap w !! G').
Proof.
  intros Hg. unfold calc_tract_accessibility.
  destruct (negb (0 <? k)); [by exists g|]. rewrite Hg.
  destruct (poi_attrs O g pois pwc) as [attrs| |]; [|by exists g..].
  exists (set_node_attributes g attrs (weight_column_name pwc)).
  assert (Hframe :
    ∀ n nm, nm ≠ weight_column_name pwc →
      g_node_attrs (set_node_attributes g attrs (weight_column_name pwc))
        !! (n, nm) = g_node_attrs g !! (n, nm)).
  { intros n nm Hnm. rewrite lookup_set_node_attributes.
    rewrite bool_decide_eq_false_2; [done|]. by intros [? _]. }
  destruct (tract_targets _ _) as [tv| |];
    [|cbn [snd heap set_heap]; rewrite lookup_insert_eq;
      (repeat split; [done|]); intros; by rewrite lookup_insert_ne..].
  destruct (sample_tracts _ _ _ _ _ _ _ _) as [[[X Y]| |] r];
    cbn [snd heap set_rng set_heap]; rewrite lookup_insert_eq;
    (repeat split; [done|]); intros; by rewrite lookup_insert_ne.
Qed.

End OperationErrors.

Lemma missing_poi_column_raises_witness :
  calc_tract_accessibility lcg bf_oracles 5 ex_tracts ex_pois_bare 0%nat
    "length" (acc_comulative (Qc_of_Z 12)) 2 (Some 1) (Some "cap"%string)
    1000 ex_world = (Raise KeyError, ex_world) ∧
  (calc_accessibility_load lcg bf_oracles 5 ex_tracts ex_pois_bare 0%nat
     "length" (acc_comulative (Qc_of_Z 12)) 2 (Some 1) (Some "cap"%string)
     None false ex_world).1 = Raise KeyError.
Proof.
  apply (missing_poi_column_raises lcg bf_oracles 5 ex_tracts ex_pois_bare
           0%nat "length" (acc_comulative (Qc_of_Z 12)) 2 (Some 1) "cap" None
           1000 false ex_world ex_graph
           {| p_x := Qc_of_Z 20; p_y := Qc_of_Z 0; p_cols := ∅ |}).
  - lia.
  - reflexivity.
  - apply list_elem_of_singleton. reflexivity.
  - reflexivity.
Defined.

Lemma nonpositive_k_is_refused_witness :
  calc_tract_accessibility lcg bf_oracles 5 ex_tracts ex_pois 0%nat "length"
    (acc_comulative (Qc_of_Z 12)) 0 (Some 1) None 1000 ex_world
    = (Raise AssertionError, ex_world) ∧
  calc_accessibility_load lcg bf_oracles 5 ex_tracts ex_pois 0%nat "length"
    (acc_comulative (Qc_of_Z 12)) 0 (Some 1) None None false ex_world
    = (Raise AssertionError, ex_world).
Proof.
  apply (nonpositive_k_is_refused lcg bf_oracles 5 ex_tracts ex_pois 0%nat
           "length" (acc_comulative (Qc_of_Z 12)) 0 (Some 1) None None 1000
           false ex_world).
  lia.
Defined.

Lemma aggregator_frame_witness :
  ∃ g',
    heap (calc_tract_accessibility lcg bf_oracles 5 ex_tracts ex_pois 0%nat
            "length" (acc_comulative (Qc_of_Z 12)) 2 (Some 1)
            (Some "cap"%string) 1000 ex_world).2 !! 0%nat = Some g' ∧
    g_nodes g' = g_nodes ex_graph ∧ g_edges g' = g_edges ex_graph ∧
    g_edge_attrs g' = g_edge_attrs ex_graph ∧
    (∀ n nm, nm ≠ weight_column_name (Some "cap"%string) →
       g_node_attrs g' !! (n, nm) = g_node_attrs ex_graph !! (n, nm)) ∧
    (∀ G', G' ≠ 0%nat →
       heap (calc_tract_accessibility lcg bf_oracles 5 ex_tracts ex_pois
               0%nat "length" (acc_comulative (Qc_of_Z 12)) 2 (Some 1)
               (Some "cap"%string) 1000 ex_world).2 !! G'
       = heap ex_world !! G').
Proof.
  apply (aggregator_frame lcg bf_oracles 5 ex_tracts ex_pois 0%nat "length"
           (acc_comulative (Qc_of_Z 12)) 2 (Some 1) (Some "cap"%string) 1000
           ex_world ex_graph).
  reflexivity.
Defined.

(** ** Accessibility aggregator: the batch cap and the scores *)

Lemma py_slice_nil {A} (a b : Z) : py_slice (@nil A) a b = [].
Proof. unfold py_slice. by rewrite drop_nil, take_nil. Qed.

Lemma foldM_tract_loop_empty {T} (O : Oracles) (Gig : igraph) weight func
    vals (targets : list nat) (k : Z)
    (l : list (list nat * list T)) (acc : list Qc) :
  Forall (λ sl, sl.2 = []) l →
  foldM_outcome
    (λ acc sl,
       tract_loop func vals k
         (shortest_paths_dijkstra O Gig sl.1 targets weight) sl.2 0 acc)
    l acc = Ret acc.
Proof.
  revert acc. induction l as [|[s c] l IH]; intros acc Hl; [done|].
  apply Forall_cons_1 in Hl as [Hc Hl]. cbn [snd] in Hc. subst c.
  cbn [foldM_outcome tract_loop fst snd mbind outcome_bind]. by apply IH.
Qed.

Section BatchCap.

Context {T : Type} (O : Oracles) (Gig : igraph) (weight : string).
Context (func : cost → Qc) (vals : list Qc) (nig_targets : list nat).

(** X15. With [iter_cap = 0] the scoring always takes the batched path and
    divides by zero at line 201: [ZeroDivisionError], whatever the other
    arguments. *)
Theorem zero_cap_divides_by_zero (k : Z) (loop : list T)
    (ig_nodes : list nat) :
  tract_scores O Gig weight func vals nig_targets k 0 loop ig_nodes
  = Raise ZeroDivisionError.
Proof.
  unfold tract_scores. change (0 * k) with 0.
  destruct (Z.leb_spec 0 (Z.of_nat (length ig_nodes))); [|lia].
  unfold py_floordiv. by cbn [Z.eqb mbind outcome_bind].
Qed.

(** X16. With a negative [iter_cap] the scoring takes the batched path,
    whose ranges then hold no section with a tract in it: it returns no
    score at all, without an error. *)
Theorem negative_cap_scores_nothing (k iter_cap : Z) (loop : list T)
    (ig_nodes : list nat) :
  0 < k → iter_cap < 0 →
  Z.of_nat (length ig_nodes) = k * Z.of_nat (length loop) →
  tract_scores O Gig weight func vals nig_targets k iter_cap loop ig_nodes
  = Ret [].
Proof.
  intros Hk Hcap Hlen. unfold tract_scores.
  destruct (Z.leb_spec (iter_cap * k) (Z.of_nat (length ig_nodes))); [|nia].
  unfold py_floordiv, py_range.
  destruct (Z.eqb_spec (iter_cap * k) 0); [nia|].
  destruct (Z.eqb_spec iter_cap 0); [lia|].
  cbn [mbind outcome_bind].
  destruct (Z.ltb_spec 0 (iter_cap * k)); [nia|].
  destruct (Z.ltb_spec 0 iter_cap); [lia|].
  destruct loop as [|t loop].
  - apply foldM_tract_loop_empty.
    apply List.Forall_forall. intros [s c] Hin. apply list_elem_of_In in Hin.
    apply elem_of_zip_r in Hin. cbn [snd] in *.
    apply list_elem_of_fmap in Hin as (y & -> & _). apply py_slice_nil.
  - set (c := iter_cap * k) in *.
    set (q := Z.of_nat (length ig_nodes) / c).
    assert (Hq : q ≤ -1).
    { pose proof (Z.div_mod (Z.of_nat (length ig_nodes)) c ltac:(lia)) as Hdm.
      pose proof (Z.mod_neg_bound (Z.of_nat (length ig_nodes)) c ltac:(lia)).
      fold q in Hdm. cbn [length] in Hlen. nia. }
    assert (Hcnt : (0 - ((q + 1) * c + 1) - c - 1) / - c ≤ 0).
    { assert ((0 - ((q + 1) * c + 1) - c - 1) / - c < 1); [|lia].
      apply Z.div_lt_upper_bound; nia. }
    replace (Z.to_nat ((0 - ((q + 1) * c + 1) - c - 1) / - c)) with 0%nat
      by lia.
    done.
Qed.

End BatchCap.

Lemma negative_cap_scores_nothing_witness :
  tract_scores bf_oracles (get_full_igraph ex_graph_poi) "length"
    (acc_comulative (Qc_of_Z 12)) ex_targets.2 ex_targets.1 2 (-3) ex_tracts
    ex_ig_nodes = Ret [].
Proof.
  apply negative_cap_scores_nothing.
  - lia.
  - lia.
  - vm_compute. reflexivity.
Defined.

Lemma acc_comulative_unit (t : Qc) (d : cost) :
  (0 ≤ acc_comulative t d ≤ 1)%Qc.
Proof. unfold acc_comulative. by destruct (cost_le d t). Qed.

Lemma np_sum_nonneg (l : list Qc) : Forall (λ x, 0 ≤ x)%Qc l → (0 ≤ np_sum l)%Qc.
Proof.
  induction 1 as [|x l Hx _ IH]; [done|].
  rewrite np_sum_cons. by apply Qcplus_nonneg_nonneg.
Qed.

Lemma weighted_row_sum_bounds (func : cost → Qc) (vals : list Qc) :
  (∀ d, 0 ≤ func d ≤ 1)%Qc → Forall (λ x, 0 ≤ x)%Qc vals →
  ∀ ds, (0 ≤ weighted_row_sum func vals ds ≤ np_sum vals)%Qc.
Proof.
  intros Hf. induction 1 as [|v vals Hv Hvals IH]; intros ds.
  - by destruct ds.
  - destruct ds as [|d ds].
    + split; [done|]. rewrite np_sum_cons.
      apply Qcplus_nonneg_nonneg; [done|]. by apply np_sum_nonneg.
    + rewrite weighted_row_sum_cons, np_sum_cons.
      destruct (IH ds) as [IH0 IH1]. destruct (Hf d) as [Hd0 Hd1]. split.
      * apply Qcplus_nonneg_nonneg; [|done]. by apply Qcmult_nonneg_nonneg.
      * apply Qcplus_le_compat; [|done].
        rewrite <-(Qcmult_1_r v) at 2. by apply Qcmult_le_mono_nonneg_l.
Qed.

Lemma np_sum_rows_bound (V : Qc) (rows : list Qc) :
  Forall (λ x, 0 ≤ x ≤ V)%Qc rows →
  (0 ≤ np_sum rows ≤ Qc_of_Z (Z.of_nat (length rows)) * V)%Qc.
Proof.
  induction 1 as [|x rows [Hx0 HxV] _ [IH0 IH1]].
  - change (Z.of_nat (length (@nil Qc))) with 0.
    by rewrite Z2Qc_inj_0, Qcmult_0_l.
  - rewrite np_sum_cons. cbn [length].
    rewrite Nat2Z.inj_succ, <-Z.add_1_l, Z2Qc_inj_add, Z2Qc_inj_1.
    rewrite Qcmult_plus_distr_l, Qcmult_1_l. split.
    + by apply Qcplus_nonneg_nonneg.
    + by apply Qcplus_le_compat.
Qed.

Lemma spec_tract_score_bounds (O : Oracles) (Gig : igraph) (weight : string)
    (func : cost → Qc) (vals : list Qc) (targets : list nat) (k : Z)
    (ig_nodes : list nat) (i : nat) :
  (∀ d, 0 ≤ func d ≤ 1)%Qc → Forall (λ x, 0 ≤ x)%Qc vals → 0 < k →
  (0 ≤ spec_tract_score O Gig weight func vals targets k ig_nodes i
     ≤ np_sum vals)%Qc.
Proof.
  intros Hf Hvals Hk. unfold spec_tract_score.
  set (rows := (_ <$> take (Z.to_nat k) _)).
  assert (Hrows : Forall (λ x, 0 ≤ x ≤ np_sum vals)%Qc rows).
  { unfold rows. apply Forall_fmap, Forall_forall. intros s _.
    by apply weighted_row_sum_bounds. }
  destruct (np_sum_rows_bound _ _ Hrows) as [H0 H1].
  assert (Hlen : (length rows ≤ Z.to_nat k)%nat).
  { unfold rows. rewrite length_fmap, length_take. lia. }
  assert (HV : (0 ≤ np_sum vals)%Qc) by by apply np_sum_nonneg.
  assert (Hkq : (0 < Qc_of_Z k)%Qc).
  { rewrite <-Z2Qc_inj_0. by apply (proj1 (Z2Qc_inj_lt 0 k)). }
  assert (Hinv : (0 < / Qc_of_Z k)%Qc) by by apply Qcinv_pos.
  assert (H2 : (np_sum rows ≤ Qc_of_Z k * np_sum vals)%Qc).
  { etrans; [exact H1|]. apply Qcmult_le_mono_nonneg_r; [done|].
    apply (proj1 (Z2Qc_inj_le _ _)). lia. }
  unfold Qcdiv. split.
  - apply Qcmult_nonneg_nonneg; [done|by apply Qclt_le_weak].
  - replace (np_sum vals) with (Qc_of_Z k * np_sum vals * / Qc_of_Z k)%Qc.
    + apply Qcmult_le_mono_nonneg_r; [by apply Qclt_le_weak|done].
    + field. by apply Qclt_not_eq in Hkq.
Qed.

(** X17. With a decay function between 0 and 1 and destination weights
    that are not negative, every tract gets a score, and each score lies
    between 0 and the total destination weight. *)
Theorem tract_scores_bounded {T} (O : Oracles) (Gig : igraph)
    (weight : string) (func : cost → Qc) (vals : list Qc)
    (nig_targets : list nat) (k iter_cap : Z) (loop : list T)
    (ig_nodes : list nat) :
  (∀ d, 0 ≤ func d ≤ 1)%Qc → Forall (λ x, 0 ≤ x)%Qc vals →
  0 < k → 0 < iter_cap →
  Z.of_nat (length ig_nodes) = k * Z.of_nat (length loop) →
  length vals = length nig_targets →
  ∃ acc,
    tract_scores O Gig weight func vals nig_targets k iter_cap loop ig_nodes
      = Ret acc ∧
    length acc = length loop ∧
    Forall (λ a, 0 ≤ a ≤ np_sum vals)%Qc acc.
Proof.
  intros Hf Hvals Hk Hcap Hlen Hvl. eexists.
  split; [by apply tract_scores_spec|].
  split; [by rewrite length_fmap, length_seq|].
  apply Forall_fmap, Forall_forall. intros i _.
  by apply spec_tract_score_bounds.
Qed.

Lemma tract_scores_bounded_witness :
  ∃ acc,
    tract_scores bf_oracles (get_full_igraph ex_graph_poi) "length"
      (acc_comulative (Qc_of_Z 12)) ex_targets.2 ex_targets.1 2 1 ex_tracts
      ex_ig_nodes = Ret acc ∧
    length acc = length ex_tracts ∧
    Forall (λ a, 0 ≤ a ≤ np_sum ex_targets.2)%Qc acc.
Proof.
  apply tract_scores_bounded.
  - intros d. apply acc_comulative_unit.
  - by_compute.
  - lia.
  - lia.
  - vm_compute. reflexivity.
  - vm_compute. reflexivity.
Defined.

(** ** The result mapping and the cross-reference dictionary *)

(** X18. The result dict has the tract indices as its keys, and where two
    tracts share an index the score of the later one is the one kept. *)
Theorem dict_of_zip_last_wins (ks : list Z) (vs : list Qc) (i : nat)
    (k : Z) (v : Qc) :
  length ks = length vs →
  ks !! i = Some k → vs !! i = Some v →
  (∀ j, (i < j)%nat → ks !! j ≠ Some k) →
  dict_of_zip ks vs !! k = Some v ∧
  (∀ k', is_Some (dict_of_zip ks vs !! k') ↔ k' ∈ ks).
Proof.
  intros Hlen Hk Hv Hlast. split.
  - unfold dict_of_zip.
    rewrite <-(take_drop_middle ks i k Hk), <-(take_drop_middle vs i v Hv).
    rewrite zip_with_app
      by (rewrite !length_take; apply lookup_lt_Some in Hk; lia).
    rewrite foldl_app. cbn [zip_with foldl fst snd].
    rewrite dict_of_zip_notin; [by rewrite lookup_insert_eq|].
    intros Hin. apply list_elem_of_lookup in Hin as [j Hj].
    rewrite lookup_drop in Hj. apply (Hlast (S i + j)%nat); [lia|done].
  - clear i k v Hk Hv Hlast. intros k'. unfold dict_of_zip.
    assert (Hgen : ∀ m : gmap Z Qc,
      is_Some (foldl (λ m ia, <[ia.1 := ia.2]> m) m (zip ks vs) !! k')
      ↔ k' ∈ ks ∨ is_Some (m !! k')).
    { revert vs Hlen. induction ks as [|k0 ks IH]; intros vs Hlen m.
      - cbn. split; [by right|]. intros [H|H]; [|done].
        by apply not_elem_of_nil in H.
      - destruct vs as [|v0 vs]; [done|]. cbn [zip_with foldl fst snd].
        rewrite IH by (cbn in Hlen; lia).
        destruct (decide (k' = k0)) as [->|Hne].
        + rewrite lookup_insert_eq. split; intros _; [left; left|].
          right. by eexists.
        + rewrite lookup_insert_ne by done. rewrite elem_of_cons.
          naive_solver. }
    rewrite Hgen, lookup_empty. split; [intros [H|[? [=]]]; done|by left].
Qed.

Lemma dict_of_zip_last_wins_witness :
  dict_of_zip [7; 8; 7] (Qc_of_Z <$> [1; 2; 3]) !! 7 = Some (Qc_of_Z 3) ∧
  (∀ k', is_Some (dict_of_zip [7; 8; 7] (Qc_of_Z <$> [1; 2; 3]) !! k')
         ↔ k' ∈ [7; 8; 7]).
Proof.
  apply (dict_of_zip_last_wins [7; 8; 7] (Qc_of_Z <$> [1; 2; 3]) 2).
  - reflexivity.
  - reflexivity.
  - reflexivity.
  - intros [|[|[|j]]] Hj; try lia. done.
Defined.

Lemma node_dict_fold (l : list (nat * node)) (n : node) :
  ∀ m : gmap node nat,
    (∀ i, foldl (λ m iv, <[iv.2 := iv.1]> m) m l !! n = Some i →
          (i, n) ∈ l ∨ m !! n = Some i) ∧
    (is_Some (foldl (λ m iv, <[iv.2 := iv.1]> m) m l !! n)
     ↔ n ∈ l.*2 ∨ is_Some (m !! n)).
Proof.
  induction l as [|[i0 n0] l IH]; intros m.
  - cbn. split; [by right|]. split; [by right|].
    intros [H|H]; [by apply not_elem_of_nil in H|done].
  - cbn [foldl fst snd]. destruct (IH (<[n0 := i0]> m)) as [IH1 IH2]. split.
    + intros i Hi. destruct (IH1 i Hi) as [Hl|Hm]; [left; by right|].
      destruct (decide (n = n0)) as [->|Hne].
      * rewrite lookup_insert_eq in Hm. injection Hm as ->. left. by left.
      * rewrite lookup_insert_ne in Hm by done. by right.
    + rewrite IH2, fmap_cons, elem_of_cons. cbn [snd].
      destruct (decide (n = n0)) as [->|Hne].
      * rewrite lookup_insert_eq. split; intros _; [left; by left|].
        right. by eexists.
      * rewrite lookup_insert_ne by done. naive_solver.
Qed.

Lemma node_dict_lookup (Gig : igraph) (n : node) :
  (∀ i, node_dict Gig !! n = Some i → vs Gig !! i = Some n) ∧
  (is_Some (node_dict Gig !! n) ↔ n ∈ vs Gig).
Proof.
  unfold node_dict.
  destruct (node_dict_fold (imap (λ i v, (i, v)) (vs Gig)) n ∅) as [H1 H2].
  split.
  - intros i Hi. destruct (H1 i Hi) as [Hin|Hm]; [|by rewrite lookup_empty in Hm].
    apply elem_of_lookup_imap in Hin as (j & y & [= -> ->] & Hj). done.
  - rewrite H2, lookup_empty. split.
    + intros [Hin|[? [=]]].
      apply list_elem_of_fmap in Hin as ([i y] & -> & Hin).
      apply elem_of_lookup_imap in Hin as (j & z & [= -> ->] & Hj).
      by eapply list_elem_of_lookup_2.
    + intros Hin. left. apply list_elem_of_lookup in Hin as [i Hi].
      apply list_elem_of_fmap. exists (i, n). split; [done|].
      apply elem_of_lookup_imap. by exists i, n.
Qed.

(** X19. The cross-reference dictionary resolves every node of the graph
    to a vertex that carries that node's id; asking it for a node the graph
    does not have raises [KeyError]. *)
Theorem node_dict_round_trip (Gig : igraph) (ns : list node) :
  (Forall (λ n, n ∈ vs Gig) ns →
   ∃ idxs, lookup_all (node_dict Gig) ns = Ret idxs ∧
           Forall2 (λ n i, vs Gig !! i = Some n) ns idxs) ∧
  (Exists (λ n, n ∉ vs Gig) ns →
   lookup_all (node_dict Gig) ns = Raise KeyError).
Proof.
  split.
  - induction 1 as [|n ns Hn _ (idxs & Hrun & Hall)].
    + exists []. split; [done|constructor].
    + destruct (proj2 (proj2 (node_dict_lookup Gig n)) Hn) as [i Hi].
      exists (i :: idxs). unfold lookup_all in *. cbn [mapM_outcome].
      rewrite Hi, Hrun. split; [done|]. constructor; [|done].
      by apply (proj1 (node_dict_lookup Gig n)).
  - intros Hex. unfold lookup_all. apply mapM_outcome_raises.
    + intros n. destruct (node_dict Gig !! n); eauto.
    + eapply List.Exists_impl; [|exact Hex]. intros n Hn. cbn beta.
      destruct (node_dict Gig !! n) as [i|] eqn:Hi; [|done].
      exfalso. apply Hn, (proj2 (node_dict_lookup Gig n)). by eexists.
Qed.

Lemma node_dict_round_trip_witness :
  (∃ idxs,
     lookup_all (node_dict (get_full_igraph ex_graph)) [3; 1] = Ret idxs ∧
     Forall2 (λ n i, vs (get_full_igraph ex_graph) !! i = Some n) [3; 1] idxs) ∧
  lookup_all (node_dict (get_full_igraph ex_graph)) [2; 9] = Raise KeyError.
Proof.
  split.
  - apply (proj1 (node_dict_round_trip (get_full_igraph ex_graph) [3; 1])).
    by_compute.
  - apply (proj2 (node_dict_round_trip (get_full_igraph ex_graph) [2; 9])).
    apply Exists_cons_tl, Exists_cons_hd. by_compute.
Defined.

(** ** [_get_edges] *)

Lemma mapM_outcome_fails {A B} (f : A → outcome B) (l : list A) :
  Exists (λ a, returns (f a) = false) l → returns (mapM_outcome f l) = false.
Proof.
  induction 1 as [a l Ha|a l _ IH]; cbn [mapM_outcome].
  - by destruct (f a).
  - destruct (f a); [|done..]. cbn [mbind outcome_bind].
    by destruct (mapM_outcome f l).
Qed.

Lemma edge_key_lookup (g : graph) (i : nat) (e : edge) :
  g_edges g !! i = Some e → edge_key g i = e.
Proof. unfold edge_key. by intros ->. Qed.

Lemma es_attr_tag (g : graph) (i : nat) :
  tagged g → (i < length (g_edges g))%nat →
  es_attr (get_full_igraph g) i "orig_name" = Ret (AEdge (edge_key g i)).
Proof.
  intros Htag Hi. destruct (lookup_lt_is_Some_2 _ _ Hi) as [e He].
  rewrite (edge_key_lookup g i e He).
  unfold es_attr. cbn [es es_attrs get_full_igraph]. rewrite He.
  destruct (Htag e) as [Hn _]; [by eapply list_elem_of_lookup_2|].
  by rewrite Hn.
Qed.

Lemma es_attr_length (g : graph) (i : nat) :
  (∀ e, e ∈ g_edges g →
     ∃ q, g_edge_attrs g !! (e, "length"%string) = Some (ANum q)) →
  (i < length (g_edges g))%nat →
  (a ← es_attr (get_full_igraph g) i "length"; attr_number a)
  = Ret (edge_length g i).
Proof.
  intros Hlen Hi. destruct (lookup_lt_is_Some_2 _ _ Hi) as [e He].
  unfold edge_length. rewrite (edge_key_lookup g i e He).
  unfold es_attr. cbn [es es_attrs get_full_igraph]. rewrite He.
  destruct (Hlen e) as [q Hq]; [by eapply list_elem_of_lookup_2|].
  by rewrite Hq.
Qed.

(** X20. On a graph whose edges carry their identity tags and a numeric
    [length], and for edge sequences made of edge indices of the graph,
    [_get_edges] returns for every sequence the keys of its edges, in
    order, and the sum of their lengths - for an empty sequence no key and
    the sum 0. *)
Theorem get_edges_result (g : graph) (e_seqs : list (list nat)) :
  tagged g →
  (∀ e, e ∈ g_edges g →
     ∃ q, g_edge_attrs g !! (e, "length"%string) = Some (ANum q)) →
  Forall (Forall (λ i, (i < length (g_edges g))%nat)) e_seqs →
  _get_edges e_seqs (get_full_igraph g)
  = Ret ((λ seq : list nat, (λ i, AEdge (edge_key g i)) <$> seq) <$> e_seqs,
         (λ seq : list nat, np_sum (edge_length g <$> seq)) <$> e_seqs).
Proof.
  intros Htag Hlen. induction 1 as [|seq rest Hseq _ IH]; [done|].
  cbn [_get_edges]. rewrite IH. rewrite !fmap_cons.
  destruct seq as [|i seq]; [done|].
  replace (length (i :: seq) <? 1)%nat with false by done.
  rewrite (mapM_outcome_ext _ (λ i, Ret (AEdge (edge_key g i)))).
  2:{ intros j Hj. apply es_attr_tag; [done|].
      apply (proj1 (List.Forall_forall _ _) Hseq). by apply list_elem_of_In. }
  rewrite mapM_outcome_pure. cbn [mbind outcome_bind].
  rewrite (mapM_outcome_ext _ (λ i, Ret (edge_length g i))).
  2:{ intros j Hj. apply es_attr_length; [done|].
      apply (proj1 (List.Forall_forall _ _) Hseq). by apply list_elem_of_In. }
  rewrite mapM_outcome_pure. done.
Qed.

Lemma ex_load_graph_tagged : tagged ex_load_graph.
Proof.
  apply (prepare_load_graph_tagged bf_oracles ex_graph ex_pois
           (Some "cap"%string)). vm_compute. reflexivity.
Qed.

Lemma get_edges_result_witness :
  _get_edges [[]; [0%nat]; [0%nat; 1%nat]] (get_full_igraph ex_load_graph)
  = Ret ((λ seq : list nat, (λ i, AEdge (edge_key ex_load_graph i)) <$> seq)
           <$> [[]; [0%nat]; [0%nat; 1%nat]],
         (λ seq : list nat, np_sum (edge_length ex_load_graph <$> seq))
           <$> [[]; [0%nat]; [0%nat; 1%nat]]).
Proof.
  apply get_edges_result.
  - exact ex_load_graph_tagged.
  - intros e He.
    assert (Hall : Forall (λ e, ∃ q, g_edge_attrs ex_load_graph
                                       !! (e, "length"%string) = Some (ANum q))
                     (g_edges ex_load_graph)).
    { repeat constructor; eexists; vm_compute; reflexivity. }
    apply (proj1 (List.Forall_forall _ _) Hall). by apply list_elem_of_In.
  - by_compute.
Defined.

(** X21. An edge sequence naming an index beyond the edges of the graph
    makes [_get_edges] raise, wherever in the list the sequence stands. *)
Theorem get_edges_bad_index (Gig : igraph) (e_seqs : list (list nat)) :
  Exists (Exists (λ i, (length (es Gig) ≤ i)%nat)) e_seqs →
  returns (_get_edges e_seqs Gig) = false.
Proof.
  induction 1 as [seq rest Hseq|seq rest _ IH]; cbn [_get_edges].
  - destruct seq as [|i seq]; [by apply Exists_nil in Hseq|].
    replace (length (i :: seq) <? 1)%nat with false by done.
    assert (Hfail :
      returns (mapM_outcome (λ i, es_attr Gig i "orig_name") (i :: seq))
      = false).
    { apply mapM_outcome_fails. eapply List.Exists_impl; [|exact Hseq].
      intros j Hj. cbn beta. unfold es_attr.
      by rewrite (lookup_ge_None_2 _ _ Hj). }
    by destruct (mapM_outcome _ (i :: seq)).
  - destruct (if (length seq <? 1)%nat then _ else _); [|done..].
    cbn [mbind outcome_bind]. by destruct (_get_edges rest Gig).
Qed.

Lemma get_edges_bad_index_witness :
  returns (_get_edges [[]; [0%nat; 5%nat]] (get_full_igraph ex_load_graph))
  = false.
Proof.
  apply get_edges_bad_index. by_compute.
Defined.

(** ** [_update_edges] *)

Lemma loads_shifted_refl (G : graph) :
  tagged G → loads_shifted (λ _, 0%Qc) G G.
Proof.
  intros Htag. split; [done|split; [done|split; [done|]]].
  intros [e n]. cbn [fst snd]. case_bool_decide as Hk; [|done].
  destruct Hk as [-> He]. destruct (Htag e He) as [_ [q Hq]].
  unfold edge_load. rewrite Hq. by rewrite Qcplus_0_r.
Qed.

Lemma edge_load_shifted (delta : edge → Qc) (G G' : graph) (e : edge) :
  loads_shifted delta G G' → e ∈ g_edges G →
  edge_load G' e = (edge_load G e + delta e)%Qc.
Proof.
  intros (_ & _ & _ & Hk) He. unfold edge_load at 1.
  rewrite (Hk (e, "load"%string)). cbn [fst snd].
  by rewrite bool_decide_eq_true_2.
Qed.

Lemma loads_shifted_tagged (delta : edge → Qc) (G G' : graph) :
  tagged G → loads_shifted delta G G' → tagged G'.
Proof.
  intros Htag (HN & HE & HA & Hk) e He. rewrite HE in He. split.
  - rewrite (Hk (e, "orig_name"%string)). cbn [fst snd].
    rewrite bool_decide_eq_false_2; [by apply Htag|]. by intros [[=] _].
  - eexists. rewrite (Hk (e, "load"%string)). cbn [fst snd].
    by rewrite bool_decide_eq_true_2.
Qed.

Lemma loads_shifted_trans (d1 d2 : edge → Qc) (G G1 G2 : graph) :
  loads_shifted d1 G G1 → loads_shifted d2 G1 G2 →
  loads_shifted (λ e, (d1 e + d2 e)%Qc) G G2.
Proof.
  intros H1 H2. pose proof (λ e, edge_load_shifted d1 G G1 e H1) as Hload.
  destruct H1 as (HN1 & HE1 & HA1 & Hk1), H2 as (HN2 & HE2 & HA2 & Hk2).
  split; [congruence|split; [congruence|split; [congruence|]]].
  intros k. rewrite Hk2, HE1. case_bool_decide as Hc.
  - destruct Hc as [_ He]. rewrite (Hload k.1 He).
    by rewrite Qcplus_assoc.
  - rewrite Hk1. by rewrite bool_decide_eq_false_2.
Qed.

Lemma loads_shifted_ext (d d' : edge → Qc) (G G' : graph) :
  (∀ e, e ∈ g_edges G → d e = d' e) →
  loads_shifted d G G' → loads_shifted d' G G'.
Proof.
  intros Hd (HN & HE & HA & Hk).
  split; [done|split; [done|split; [done|]]].
  intros k. rewrite Hk. case_bool_decide as Hc; [|done].
  destruct Hc as [_ He]. by rewrite (Hd k.1 He).
Qed.

Lemma loads_shifted_inj (d : edge → Qc) (G G1 G2 : graph) :
  loads_shifted d G G1 → loads_shifted d G G2 → G1 = G2.
Proof.
  destruct G1 as [n1 e1 a1 m1], G2 as [n2 e2 a2 m2]. unfold loads_shifted.
  simpl. intros (-> & -> & -> & Hk1) (-> & -> & -> & Hk2).
  f_equal. apply map_eq. intros k. by rewrite Hk1, Hk2.
Qed.

Lemma update_edge_shift (G : graph) (e : edge) (w : Qc) :
  tagged G → e ∈ g_edges G →
  ∃ G', update_edge "load" G (AEdge e) w = Ret G' ∧
        loads_shifted (λ e', if bool_decide (e' = e) then w else 0%Qc) G G'.
Proof.
  intros Htag He. destruct (Htag e He) as [_ [q Hq]].
  unfold update_edge, add_to_edge. rewrite bool_decide_eq_true_2 by done.
  rewrite Hq. eexists. split; [done|].
  split; [done|split; [done|split; [done|]]].
  cbn [g_edge_attrs g_edges]. intros [e' n]. cbn [fst snd].
  destruct (decide ((e', n) = (e, "load"%string))) as [[= -> ->]|Hne].
  - rewrite lookup_insert_eq. rewrite !bool_decide_eq_true_2 by done.
    unfold edge_load. by rewrite Hq.
  - rewrite lookup_insert_ne by congruence.
    case_bool_decide as Hc; [|done]. destruct Hc as [-> He'].
    rewrite bool_decide_eq_false_2 by congruence.
    destruct (Htag e' He') as [_ [q' Hq']]. unfold edge_load. rewrite Hq'.
    by rewrite Qcplus_0_r.
Qed.

Lemma occurrences_cons (e : edge) (a : attr) (seq : list attr) :
  occurrences e (a :: seq)
  = ((if bool_decide (a = AEdge e) then 1 else 0) + occurrences e seq)%nat.
Proof.
  unfold occurrences. rewrite filter_cons.
  destruct (decide (a = AEdge e)) as [Ha|Ha].
  - by rewrite bool_decide_eq_true_2.
  - by rewrite bool_decide_eq_false_2.
Qed.

Lemma update_seq_shift (seq : list attr) (w : Qc) :
  ∀ G, tagged G → Forall (names_edge (g_edges G)) seq →
  ∃ G', foldM_outcome (λ G e, update_edge "load" G e w) seq G = Ret G' ∧
        loads_shifted
          (λ e, (w * Qc_of_Z (Z.of_nat (occurrences e seq)))%Qc) G G'.
Proof.
  induction seq as [|a seq IH]; intros G Htag Hval.
  - exists G. split; [done|].
    eapply loads_shifted_ext; [|by apply loads_shifted_refl].
    intros e _. cbn beta. change (Z.of_nat (occurrences e [])) with 0.
    by rewrite Z2Qc_inj_0, Qcmult_0_r.
  - apply Forall_cons_1 in Hval as [(e & -> & He) Hval].
    destruct (update_edge_shift G e w Htag He) as (G1 & Hup & Hs1).
    pose proof (loads_shifted_tagged _ _ _ Htag Hs1) as Htag1.
    destruct (IH G1 Htag1) as (G2 & Hfold & Hs2).
    { destruct Hs1 as (_ & -> & _). done. }
    exists G2. split. { cbn [foldM_outcome]. by rewrite Hup. }
    eapply loads_shifted_ext; [|exact (loads_shifted_trans _ _ _ _ _ Hs1 Hs2)].
    intros e' _. cbn beta. rewrite occurrences_cons.
    rewrite Nat2Z.inj_add, Z2Qc_inj_add.
    destruct (decide (e' = e)) as [->|Hne].
    + rewrite !bool_decide_eq_true_2 by done.
      change (Z.of_nat 1) with 1. rewrite Z2Qc_inj_1. ring.
    + rewrite !bool_decide_eq_false_2 by congruence.
      change (Z.of_nat 0) with 0. rewrite Z2Qc_inj_0. ring.
Qed.

Lemma pair_gain_cons (e : edge) (sw : list attr * Qc)
    (l : list (list attr * Qc)) :
  pair_gain e (sw :: l)
  = (sw.2 * Qc_of_Z (Z.of_nat (occurrences e sw.1)) + pair_gain e l)%Qc.
Proof. unfold pair_gain. by rewrite fmap_cons, np_sum_cons. Qed.

Lemma update_pairs_shift (l : list (list attr * Qc)) :
  ∀ G, tagged G →
  Forall (λ sw, Forall (names_edge (g_edges G)) sw.1) l →
  ∃ G', foldM_outcome
          (λ G sw, foldM_outcome (λ G e, update_edge "load" G e sw.2) sw.1 G)
          l G = Ret G' ∧
        loads_shifted (λ e, pair_gain e l) G G'.
Proof.
  induction l as [|sw l IH]; intros G Htag Hval.
  - exists G. split; [done|]. by apply loads_shifted_refl.
  - apply Forall_cons_1 in Hval as [Hseq Hval].
    destruct (update_seq_shift sw.1 sw.2 G Htag Hseq) as (G1 & Hup & Hs1).
    pose proof (loads_shifted_tagged _ _ _ Htag Hs1) as Htag1.
    destruct (IH G1 Htag1) as (G2 & Hfold & Hs2).
    { destruct Hs1 as (_ & -> & _). done. }
    exists G2. split. { cbn [foldM_outcome]. by rewrite Hup. }
    eapply loads_shifted_ext; [|exact (loads_shifted_trans _ _ _ _ _ Hs1 Hs2)].
    intros e _. cbn beta. by rewrite pair_gain_cons.
Qed.

(** X22. On a graph whose edges carry their identity tags and a numeric
    load, and for ways made of edges of the graph, [_update_edges] returns,
    and the load of every edge has grown by the values of the ways through
    it, each value counted once per traversal. *)
Theorem update_edges_adds_gain (G : graph) (seqs : list (list attr))
    (ws : list Qc) :
  tagged G →
  Forall (λ sw, Forall (names_edge (g_edges G)) sw.1) (zip seqs ws) →
  ∃ G', _update_edges G seqs "load" (Some ws) = Ret G' ∧
        ∀ e, e ∈ g_edges G →
          edge_load G' e = (edge_load G e + edge_gain e seqs ws)%Qc.
Proof.
  intros Htag Hval.
  destruct (update_pairs_shift (zip seqs ws) G Htag Hval) as (G' & Hup & Hs).
  exists G'. split; [exact Hup|]. intros e He.
  by rewrite (edge_load_shifted _ _ _ _ Hs He).
Qed.

Lemma update_edges_adds_gain_witness :
  ∃ G', _update_edges ex_load_graph
          [[AEdge e12; AEdge e23]; []; [AEdge e12; AEdge e12]] "load"
          (Some [Qc_of_Z 2; Qc_of_Z 7; Qc_of_Z 3]) = Ret G' ∧
        ∀ e, e ∈ g_edges ex_load_graph →
          edge_load G' e
          = (edge_load ex_load_graph e
             + edge_gain e [[AEdge e12; AEdge e23]; []; [AEdge e12; AEdge e12]]
                 [Qc_of_Z 2; Qc_of_Z 7; Qc_of_Z 3])%Qc.
Proof.
  apply update_edges_adds_gain.
  - exact ex_load_graph_tagged.
  - repeat constructor; eexists; (split; [reflexivity|]); by_compute.
Defined.

Lemma np_sum_perm (l l' : list Qc) : l ≡ₚ l' → np_sum l = np_sum l'.
Proof.
  induction 1 as [|x l l' _ IH|x y l|l l' l'' _ IH1 _ IH2].
  - done.
  - by rewrite !np_sum_cons, IH.
  - rewrite !np_sum_cons. ring.
  - by rewrite IH1.
Qed.

(** X23. The order in which the ways are handed to [_update_edges] does
    not matter: two lists of ways with their values that are permutations
    of each other leave the same graph. *)
Theorem update_edges_order_irrelevant (G : graph)
    (seqs seqs' : list (list attr)) (ws ws' : list Qc) :
  tagged G →
  Forall (λ sw, Forall (names_edge (g_edges G)) sw.1) (zip seqs ws) →
  zip seqs ws ≡ₚ zip seqs' ws' →
  _update_edges G seqs "load" (Some ws)
  = _update_edges G seqs' "load" (Some ws').
Proof.
  intros Htag Hval Hperm.
  assert (Hval' : Forall (λ sw, Forall (names_edge (g_edges G)) sw.1)
                    (zip seqs' ws')).
  { eapply Permutation.Permutation_Forall; [exact Hperm|exact Hval]. }
  destruct (update_pairs_shift (zip seqs ws) G Htag Hval) as (G1 & Hup1 & Hs1).
  destruct (update_pairs_shift (zip seqs' ws') G Htag Hval')
    as (G2 & Hup2 & Hs2).
  unfold _update_edges. cbn [default from_option id].
  rewrite Hup1, Hup2. f_equal.
  eapply loads_shifted_inj; [exact Hs1|].
  eapply loads_shifted_ext; [|exact Hs2].
  intros e _. cbn beta. unfold pair_gain. apply np_sum_perm.
  by apply fmap_Permutation.
Qed.

Lemma update_edges_order_irrelevant_witness :
  _update_edges ex_load_graph [[AEdge e12; AEdge e23]; [AEdge e13]] "load"
    (Some [Qc_of_Z 2; Qc_of_Z 3])
  = _update_edges ex_load_graph [[AEdge e13]; [AEdge e12; AEdge e23]] "load"
      (Some [Qc_of_Z 3; Qc_of_Z 2]).
Proof.
  apply update_edges_order_irrelevant.
  - exact ex_load_graph_tagged.
  - repeat constructor; eexists; (split; [reflexivity|]); by_compute.
  - apply Permutation_swap.
Defined.

Lemma occurrences_app (e : edge) (s1 s2 : list attr) :
  occurrences e (s1 ++ s2) = (occurrences e s1 + occurrences e s2)%nat.
Proof. unfold occurrences. by rewrite list.filter_app, length_app. Qed.

Lemma pair_gain_ones (e : edge) (seqs : list (list attr)) :
  pair_gain e (zip seqs ((λ _, 1%Qc) <$> seqs))
  = Qc_of_Z (Z.of_nat (occurrences e (concat seqs))).
Proof.
  induction seqs as [|seq seqs IH].
  { change (Qc_of_Z (Z.of_nat (occurrences e (concat [])))) with (Qc_of_Z 0).
    by rewrite Z2Qc_inj_0. }
  rewrite fmap_cons.
  change (zip (seq :: seqs) (1%Qc :: ((λ _, 1%Qc) <$> seqs)))
    with ((seq, 1%Qc) :: zip seqs ((λ _ : list attr, 1%Qc) <$> seqs)).
  cbn [concat].
  rewrite pair_gain_cons, occurrences_app, Nat2Z.inj_add, Z2Qc_inj_add, IH.
  cbn [fst snd]. ring.
Qed.

Lemma Forall_zip_fst {A B} (P : A → Prop) (l : list A) (k : list B) :
  Forall P l → Forall (λ ab, P ab.1) (zip l k).
Proof.
  intros Hl. revert k. induction Hl as [|a l Ha _ IH]; intros [|b k];
    cbn [zip zip_with]; try constructor; try done.
Qed.

(** X24. Called without weights, [_update_edges] counts traversals: the
    load of every edge grows by the number of times the ways pass over
    it. *)
Theorem update_edges_default_counts (G : graph) (seqs : list (list attr)) :
  tagged G →
  Forall (Forall (names_edge (g_edges G))) seqs →
  ∃ G', _update_edges G seqs "load" None = Ret G' ∧
        ∀ e, e ∈ g_edges G →
          edge_load G' e
          = (edge_load G e
             + Qc_of_Z (Z.of_nat (occurrences e (concat seqs))))%Qc.
Proof.
  intros Htag Hval.
  destruct (update_pairs_shift (zip seqs ((λ _, 1%Qc) <$> seqs)) G Htag)
    as (G' & Hup & Hs).
  { by apply Forall_zip_fst. }
  exists G'. split; [exact Hup|]. intros e He.
  by rewrite (edge_load_shifted _ _ _ _ Hs He), pair_gain_ones.
Qed.

Lemma update_edges_default_counts_witness :
  ∃ G', _update_edges ex_load_graph
          [[AEdge e12; AEdge e23]; [AEdge e12]] "load" None = Ret G' ∧
        ∀ e, e ∈ g_edges ex_load_graph →
          edge_load G' e
          = (edge_load ex_load_graph e
             + Qc_of_Z (Z.of_nat (occurrences e
                  (concat [[AEdge e12; AEdge e23]; [AEdge e12]]))))%Qc.
Proof.
  apply update_edges_default_counts.
  - exact ex_load_graph_tagged.
  - repeat constructor; eexists; (split; [reflexivity|]); by_compute.
Defined.

(** X25. The first addition to an edge that has no numeric value under
    the attribute sets the attribute of every edge of the graph to 0
    before adding: afterwards the edge holds the added value and every
    other edge holds 0, whatever it held before. *)
Theorem update_edge_resets_all (G : graph) (name : string) (e : edge)
    (w : Qc) :
  e ∈ g_edges G →
  (∀ q, g_edge_attrs G !! (e, name) ≠ Some (ANum q)) →
  ∃ G', update_edge name G (AEdge e) w = Ret G' ∧
        ∀ e', e' ∈ g_edges G →
          g_edge_attrs G' !! (e', name)
          = Some (ANum (if bool_decide (e' = e) then w else 0%Qc)).
Proof.
  intros He Hno.
  assert (Hnone : add_to_edge G (AEdge e) name w = None).
  { unfold add_to_edge. rewrite bool_decide_eq_true_2 by done.
    destruct (g_edge_attrs G !! (e, name)) as [[q|x]|] eqn:Hq; try done.
    by destruct (Hno q). }
  unfold update_edge. rewrite Hnone. unfold add_to_edge.
  cbn [g_edges g_edge_attrs g_nodes g_node_attrs set_all_edges].
  rewrite bool_decide_eq_true_2 by done. rewrite lookup_set_all.
  rewrite bool_decide_eq_true_2 by done. eexists. split; [done|].
  intros e' He'. cbn [g_edge_attrs].
  destruct (decide (e' = e)) as [->|Hne].
  - rewrite lookup_insert_eq, bool_decide_eq_true_2 by done.
    by rewrite Qcplus_0_l.
  - rewrite lookup_insert_ne by congruence. rewrite lookup_set_all.
    rewrite bool_decide_eq_true_2 by done.
    by rewrite bool_decide_eq_false_2.
Qed.

Lemma update_edge_resets_all_witness :
  ∃ G', update_edge "load" ex_graph (AEdge e12) (Qc_of_Z 2) = Ret G' ∧
        ∀ e', e' ∈ g_edges ex_graph →
          g_edge_attrs G' !! (e', "load"%string)
          = Some (ANum (if bool_decide (e' = e12) then Qc_of_Z 2 else 0%Qc)).
Proof.
  apply update_edge_resets_all.
  - by_compute.
  - intros q. vm_compute. discriminate.
Defined.

Lemma add_to_edge_frame (G G' : graph) (a : attr) (name : string) (w : Qc) :
  add_to_edge G a name w = Some G' → only_attr_changed name G G'.
Proof.
  unfold add_to_edge. destruct a as [q|e]; [done|].
  case_bool_decide; [|done].
  destruct (g_edge_attrs G !! (e, name)) as [[q|x]|]; try done.
  intros [= <-]. split; [done|split; [done|split; [done|]]].
  intros e' n Hn. cbn [g_edge_attrs]. by rewrite lookup_insert_ne by congruence.
Qed.

Lemma only_attr_changed_refl (name : string) (G : graph) :
  only_attr_changed name G G.
Proof. by split; [|split; [|split]]. Qed.

Lemma only_attr_changed_trans (name : string) (G G1 G2 : graph) :
  only_attr_changed name G G1 → only_attr_changed name G1 G2 →
  only_attr_changed name G G2.
Proof.
  intros (HN1 & HE1 & HA1 & Hk1) (HN2 & HE2 & HA2 & Hk2).
  split; [congruence|split; [congruence|split; [congruence|]]].
  intros e n Hn. by rewrite Hk2, Hk1.
Qed.

Lemma set_all_edges_frame (name : string) (f : edge → attr) (G : graph) :
  only_attr_changed name G (set_all_edges name f G).
Proof.
  split; [done|split; [done|split; [done|]]]. intros e n Hn.
  cbn [g_edge_attrs set_all_edges]. rewrite lookup_set_all.
  rewrite bool_decide_eq_false_2; [done|]. by intros [_ ?].
Qed.

Lemma update_edge_frame (name : string) (G G' : graph) (a : attr) (w : Qc) :
  update_edge name G a w = Ret G' → only_attr_changed name G G'.
Proof.
  unfold update_edge.
  destruct (add_to_edge G a name w) as [G1|] eqn:H1.
  - intros [= <-]. by eapply add_to_edge_frame.
  - destruct (add_to_edge (set_all_edges _ _ G) a name w) as [G2|] eqn:H2;
      [|done].
    intros [= <-]. eapply only_attr_changed_trans;
      [apply set_all_edges_frame|by eapply add_to_edge_frame].
Qed.

Lemma foldM_outcome_preserves {A S} (R : S → S → Prop)
    (f : S → A → outcome S) (l : list A) :
  (∀ s, R s s) → (∀ s1 s2 s3, R s1 s2 → R s2 s3 → R s1 s3) →
  (∀ s a s', f s a = Ret s' → R s s') →
  ∀ s s', foldM_outcome f l s = Ret s' → R s s'.
Proof.
  intros Hrefl Htrans Hf. induction l as [|a l IH]; intros s s'.
  - intros [= <-]. apply Hrefl.
  - cbn [foldM_outcome]. destruct (f s a) as [s1| |] eqn:Hs; [|done..].
    cbn [mbind outcome_bind]. intros Hl.
    eapply Htrans; [by eapply Hf|by apply IH].
Qed.

(** X26. Whatever the ways, the attribute and the weights, a call of
    [_update_edges] that returns has changed nothing but that one edge
    attribute: the nodes, the edges, the node attributes and every other
    edge attribute are as before. *)
Theorem update_edges_frame (G G' : graph) (seqs : list (list attr))
    (name : string) (weights : option (list Qc)) :
  _update_edges G seqs name weights = Ret G' →
  only_attr_changed name G G'.
Proof.
  unfold _update_edges.
  apply (foldM_outcome_preserves (only_attr_changed name)).
  - apply only_attr_changed_refl.
  - apply only_attr_changed_trans.
  - intros G1 sw G2.
    apply (foldM_outcome_preserves (only_attr_changed name)).
    + apply only_attr_changed_refl.
    + apply only_attr_changed_trans.
    + intros G3 a G4. apply update_edge_frame.
Qed.

Lemma update_edges_frame_witness :
  only_attr_changed "time" ex_graph
    (match _update_edges ex_graph [[AEdge e12; AEdge e23]] "time" None with
     | Ret G' => G'
     | _ => ex_graph
     end).
Proof.
  apply (update_edges_frame _ _ [[AEdge e12; AEdge e23]] "time" None).
  vm_compute. reflexivity.
Defined.

Lemma update_edge_bad_tag (name : string) (G : graph) (a : attr) (w : Qc) :
  ¬ names_edge (g_edges G) a → returns (update_edge name G a w) = false.
Proof.
  intros Hbad. unfold update_edge, add_to_edge. destruct a as [q|e]; [done|].
  cbn [g_edges set_all_edges].
  rewrite !bool_decide_eq_false_2; [done|..];
    intros He; apply Hbad; by exists e.
Qed.

Lemma update_seq_bad_tag (name : string) (w : Qc) (seq : list attr) :
  ∀ G, Exists (λ a, ¬ names_edge (g_edges G) a) seq →
  returns (foldM_outcome (λ G e, update_edge name G e w) seq G) = false.
Proof.
  induction seq as [|a seq IH]; intros G Hex; [by apply Exists_nil in Hex|].
  cbn [foldM_outcome]. apply Exists_cons in Hex as [Ha|Hseq].
  - pose proof (update_edge_bad_tag name G a w Ha) as Hr.
    by destruct (update_edge name G a w).
  - destruct (update_edge name G a w) as [G1| |] eqn:Hup; [|done..].
    cbn [mbind outcome_bind]. apply IH.
    apply update_edge_frame in Hup as (_ & -> & _). exact Hseq.
Qed.

(** X27. A way that holds something that is not an edge of the graph makes
    [_update_edges] raise, wherever the way stands in the list. *)
Theorem update_edges_bad_tag (G : graph) (seqs : list (list attr))
    (name : string) (ws : list Qc) :
  Exists (λ sw, Exists (λ a, ¬ names_edge (g_edges G) a) sw.1)
    (zip seqs ws) →
  returns (_update_edges G seqs name (Some ws)) = false.
Proof.
  unfold _update_edges. cbn [default from_option id].
  generalize (zip seqs ws). intros l. revert G.
  induction l as [|sw l IH]; intros G Hex; [by apply Exists_nil in Hex|].
  cbn [foldM_outcome]. apply Exists_cons in Hex as [Hsw|Hl].
  - pose proof (update_seq_bad_tag name sw.2 sw.1 G Hsw) as Hr.
    by destruct (foldM_outcome _ sw.1 G).
  - destruct (foldM_outcome _ sw.1 G) as [G1| |] eqn:Hup; [|done..].
    cbn [mbind outcome_bind]. apply IH.
    assert (HE : g_edges G1 = g_edges G).
    { revert Hup. apply (foldM_outcome_preserves
                           (λ G G', g_edges G' = g_edges G)); [done|congruence|].
      intros G2 a G3 H23. by apply update_edge_frame in H23 as (_ & ? & _). }
    by rewrite HE.
Qed.

Lemma update_edges_bad_tag_witness :
  returns (_update_edges ex_load_graph
             [[AEdge e12]; [AEdge e23; AEdge (3, 1, 0)]] "load"
             (Some [Qc_of_Z 1; Qc_of_Z 1])) = false.
Proof.
  apply update_edges_bad_tag.
  apply Exists_cons_tl, Exists_cons_hd, Exists_cons_tl, Exists_cons_hd.
  intros (e & [= <-] & He). revert He. apply (bool_decide_eq_false_1 _).
  vm_compute. reflexivity.
Defined.

(** ** The loop over the samples, edge by edge *)

Section LoadLoopEdges.

Context (O : Oracles) (g0 : graph) (weight : string) (func : cost → Qc).
Context (name : string) (norm : bool) (tot : Qc).
Context (Htag : tagged g0).

Local Abbreviation Gig0 := (get_full_igraph g0).
Local Abbreviation step := (load_step O Gig0 weight func name norm tot).
Local Abbreviation gain := (sample_gain O Gig0 weight func name norm tot g0).

Lemma contributions_shifted (d : edge → Qc) (G : graph) source p :
  loads_shifted d g0 G →
  sample_contributions O Gig0 weight func name norm tot G source p
  = sample_contributions O Gig0 weight func name norm tot g0 source p.
Proof.
  intros (HN & HE & HA & _). unfold sample_contributions, node_data.
  by rewrite HN, HA.
Qed.

Lemma contributions_name_edges source p c :
  sample_contributions O Gig0 weight func name norm tot g0 source p = Ret c →
  Forall (Forall (names_edge (g_edges g0))) c.1.
Proof.
  unfold sample_contributions.
  destruct (_get_edges _ _) as [es| |] eqn:Hes; [|done..].
  cbn [mbind outcome_bind].
  destruct (node_data g0 name) as [nd| |]; [|done..]. cbn [mbind outcome_bind].
  destruct (np_mul _ _) as [w| |]; [|done..]. cbn [mbind outcome_bind].
  intros [= <-]. cbn [fst]. by eapply get_edges_valid.
Qed.

Lemma load_step_shift (d : edge → Qc) st source p c :
  loads_shifted d g0 (ls_graph st) → p ≠ 0%Qc →
  sample_contributions O Gig0 weight func name norm tot g0 source p = Ret c →
  ∃ st', step st (source, Some p) = Ret st' ∧
         loads_shifted (λ e, (d e + edge_gain e c.1 c.2)%Qc) g0 (ls_graph st').
Proof.
  intros Hs Hp Hc. unfold load_step. cbv beta iota.
  rewrite bool_decide_eq_false_2 by done.
  rewrite (contributions_shifted d) by done. rewrite Hc.
  cbn [mbind outcome_bind].
  pose proof (loads_shifted_tagged _ _ _ Htag Hs) as Htag'.
  destruct (update_pairs_shift (zip c.1 c.2) (ls_graph st) Htag')
    as (G' & Hup & Hs').
  { apply Forall_zip_fst. destruct Hs as (_ & -> & _).
    by eapply contributions_name_edges. }
  unfold _update_edges. cbn [default from_option id]. rewrite Hup.
  cbn [mbind outcome_bind]. eexists. split; [done|]. cbn [ls_graph].
  exact (loads_shifted_trans _ _ _ _ _ Hs Hs').
Qed.

Lemma load_fold_shift (l : list (nat * option Qc)) :
  ∀ st d, loads_shifted d g0 (ls_graph st) →
  Forall (λ sp : nat * Qc,
            returns (sample_contributions O Gig0 weight func name norm tot g0
                       sp.1 sp.2) = true) (live l) →
  ∃ st', foldM_outcome step l st = Ret st' ∧
         loads_shifted (λ e, (d e + np_sum (gain e <$> live l))%Qc) g0
           (ls_graph st').
Proof.
  induction l as [|[source pop] l IH]; intros st d Hs Hret.
  - exists st. split; [done|]. eapply loads_shifted_ext; [|exact Hs].
    intros e _. cbn. by rewrite Qcplus_0_r.
  - cbn [foldM_outcome]. unfold live in Hret |- *.
    destruct pop as [p|]; cbn [omap list_omap snd fst] in Hret |- *.
    2:{ destruct (IH st d Hs Hret) as (st' & Hrun & Hs').
        exists st'. by cbn [load_step mbind outcome_bind]. }
    revert Hret. destruct (bool_decide (p = 0%Qc)) eqn:Hb; intros Hret.
    { destruct (IH st d Hs Hret) as (st' & Hrun & Hs').
      exists st'. rewrite load_step_zero by done.
      by cbn [mbind outcome_bind]. }
    assert (Hp : p ≠ 0%Qc) by by apply bool_decide_eq_false in Hb.
    apply Forall_cons_1 in Hret as [Hc Hret]. cbn [fst snd] in Hc.
    destruct (sample_contributions O Gig0 weight func name norm tot g0
                source p) as [c| |] eqn:Hceq; [|done..].
    destruct (load_step_shift d st source p c Hs Hp Hceq)
      as (st1 & Hstep & Hs1).
    destruct (IH st1 _ Hs1 Hret) as (st' & Hrun & Hs').
    exists st'. rewrite Hstep. cbn [mbind outcome_bind]. split; [done|].
    eapply loads_shifted_ext; [|exact Hs'].
    intros e _. cbn beta. rewrite fmap_cons, np_sum_cons.
    replace (gain e (source, p)) with (edge_gain e c.1 c.2)
      by (unfold sample_gain; cbn [fst snd]; by rewrite Hceq).
    unfold live. ring.
Qed.

(** X28. On a copy whose edges carry their identity tags and a numeric
    load, the loop over the samples returns whenever the oracle's edge
    sequences can be read off the graph, and it leaves on every edge the
    load it found there plus, for every sample not skipped, the values of
    that sample's ways through the edge. *)
Theorem edge_load_is_sum_over_samples (ig_nodes : list nat)
    (pops : list (option Qc)) :
  Forall (λ sp : nat * Qc,
            returns (sample_contributions O Gig0 weight func name norm tot g0
                       sp.1 sp.2) = true)
         (live_samples ig_nodes pops) →
  ∃ st,
    load_loop O Gig0 weight func name norm tot ig_nodes pops
      {| ls_graph := g0; ls_queries := [] |} = Ret st ∧
    ∀ e, e ∈ g_edges g0 →
      edge_load (ls_graph st) e
      = (edge_load g0 e + np_sum (gain e <$> live_samples ig_nodes pops))%Qc.
Proof.
  intros Hret.
  destruct (load_fold_shift (zip ig_nodes pops)
              {| ls_graph := g0; ls_queries := [] |} (λ _, 0%Qc))
    as (st & Hrun & Hs); [by apply loads_shifted_refl|done|].
  exists st. split; [exact Hrun|]. intros e He.
  rewrite (edge_load_shifted _ _ _ _ Hs He). unfold live_samples. ring.
Qed.

End LoadLoopEdges.

Lemma edge_load_is_sum_over_samples_witness :
  ∃ st,
    load_loop bf_oracles (get_full_igraph ex_load_graph) "length"
      (acc_comulative (Qc_of_Z 30)) "cap" false 1%Qc
      [0%nat; 1%nat; 1%nat] [Some (Qc_of_Z 2); None; Some (Qc_of_Z 3)]
      {| ls_graph := ex_load_graph; ls_queries := [] |} = Ret st ∧
    ∀ e, e ∈ g_edges ex_load_graph →
      edge_load (ls_graph st) e
      = (edge_load ex_load_graph e
         + np_sum (sample_gain bf_oracles (get_full_igraph ex_load_graph)
                     "length" (acc_comulative (Qc_of_Z 30)) "cap" false 1%Qc
                     ex_load_graph e
                   <$> live_samples [0%nat; 1%nat; 1%nat]
                         [Some (Qc_of_Z 2); None; Some (Qc_of_Z 3)]))%Qc.
Proof.
  apply (edge_load_is_sum_over_samples bf_oracles ex_load_graph "length"
           (acc_comulative (Qc_of_Z 30)) "cap" false 1%Qc).
  - exact ex_load_graph_tagged.
  - by_compute.
Defined.

Lemma load_step_frame O Gig weight func name norm tot st sp st' :
  load_step O Gig weight func name norm tot st sp = Ret st' →
  ls_queries st' = ls_queries st ++ (live [sp]).*1 ∧
  only_attr_changed "load" (ls_graph st) (ls_graph st').
Proof.
  destruct sp as [source [p|]]; unfold load_step, live;
    cbn [omap list_omap fst snd].
  2:{ intros [= <-]. rewrite app_nil_r. split; [done|].
      apply only_attr_changed_refl. }
  case_bool_decide as Hp.
  { intros [= <-]. cbn [fmap list_fmap]. rewrite app_nil_r. split; [done|].
    apply only_attr_changed_refl. }
  destruct (sample_contributions _ _ _ _ _ _ _ _ _ _) as [c| |]; [|done..].
  cbn [mbind outcome_bind].
  destruct (_update_edges _ _ _ _) as [G'| |] eqn:Hup; [|done..].
  cbn [mbind outcome_bind]. intros [= <-]. cbn [ls_queries ls_graph].
  split; [done|]. by eapply update_edges_frame.
Qed.

Lemma live_cons (sp : nat * option Qc) (l : list (nat * option Qc)) :
  live (sp :: l) = live [sp] ++ live l.
Proof.
  unfold live. destruct sp as [source [p|]]; cbn [omap list_omap fst snd];
    [|done]. by case_bool_decide.
Qed.

(** X29. When the loop over the samples returns, the sources it has
    handed to the shortest-path routine are those of the samples whose
    weight is a number other than 0, in the order of the samples, and the
    graph differs from the one it started on in the edge attribute [load]
    at most. *)
Theorem load_loop_frame (O : Oracles) (Gig : igraph) (weight : string)
    (func : cost → Qc) (name : string) (norm : bool) (tot : Qc)
    (ig_nodes : list nat) (pops : list (option Qc)) (st st' : load_state) :
  load_loop O Gig weight func name norm tot ig_nodes pops st = Ret st' →
  ls_queries st' = ls_queries st ++ (live_samples ig_nodes pops).*1 ∧
  only_attr_changed "load" (ls_graph st) (ls_graph st').
Proof.
  unfold load_loop, live_samples. generalize (zip ig_nodes pops).
  intros l. revert st. induction l as [|sp l IH]; intros st.
  - intros [= <-]. cbn. rewrite app_nil_r. split; [done|].
    apply only_attr_changed_refl.
  - cbn [foldM_outcome].
    destruct (load_step O Gig weight func name norm tot st sp) as [st1| |]
      eqn:Hstep; [|done..].
    cbn [mbind outcome_bind]. intros Hrun.
    apply load_step_frame in Hstep as [Hq1 Hf1].
    apply IH in Hrun as [Hq Hf]. split.
    + rewrite Hq, Hq1, (live_cons sp l), fmap_app. by rewrite app_assoc.
    + by eapply only_attr_changed_trans.
Qed.

Lemma load_loop_frame_witness :
  let st' := match run_load ex_load_graph "length"
                     (acc_comulative (Qc_of_Z 30)) false
                     [0%nat; 1%nat; 2%nat; 1%nat]
                     [Some (Qc_of_Z 2); None; Some 0%Qc; Some (Qc_of_Z 3)] with
             | Ret s => s
             | _ => {| ls_graph := ex_graph; ls_queries := [] |}
             end in
  ls_queries st'
  = [] ++ (live_samples [0%nat; 1%nat; 2%nat; 1%nat]
             [Some (Qc_of_Z 2); None; Some 0%Qc; Some (Qc_of_Z 3)]).*1 ∧
  only_attr_changed "load" ex_load_graph (ls_graph st').
Proof.
  intros st'.
  apply (load_loop_frame bf_oracles (get_full_igraph ex_load_graph) "length"
           (acc_comulative (Qc_of_Z 30)) "cap" false
           (np_nansum [Some (Qc_of_Z 2); None; Some 0%Qc; Some (Qc_of_Z 3)])
           [0%nat; 1%nat; 2%nat; 1%nat]
           [Some (Qc_of_Z 2); None; Some 0%Qc; Some (Qc_of_Z 3)]
           {| ls_graph := ex_load_graph; ls_queries := [] |} st').
  vm_compute. reflexivity.
Defined.
